(** * swh.model.git: the git-compatible hash index of a directory tree

    A shallow embedding of [swh/model/git.py]: the bottom-up walker
    [walk_and_compute_sha1_from_directory], the in-memory ancestor pass
    [recompute_sha1_in_memory], [commonpath], the cascading removal
    [__remove_paths_from_objects] and the incremental updater
    [update_checksums_from], together with the properties the
    specification states about them. *)

From Stdlib Require Import Ascii String List Bool Arith NArith Lia.
From stdpp Require Import base option list gmap strings.

Local Open Scope string_scope.
Set Warnings "-register-all,-clear-no-such-hyp".

(** ** Python bytes

    The paths of [git.py] are Python [bytes]; they are modelled as
    [string] (a list of 8-bit characters). *)

Abbreviation bytes := string.

Definition sep : ascii := "/"%char.

Definition is_sep (c : ascii) : bool := Ascii.eqb c sep.

(** [b.rstrip(b'/')] *)
Fixpoint rstrip_sep (s : bytes) : bytes :=
  match s with
  | EmptyString => EmptyString
  | String c s' =>
      match rstrip_sep s' with
      | EmptyString => if is_sep c then EmptyString else String c EmptyString
      | r => String c r
      end
  end.

(** [b.endswith(b'/')] *)
Fixpoint endswith_sep (s : bytes) : bool :=
  match s with
  | EmptyString => false
  | String c EmptyString => is_sep c
  | String _ s' => endswith_sep s'
  end.

(** [b.startswith(b'/')], also [b[:1] == b'/'] *)
Definition startswith_sep (s : bytes) : bool :=
  match s with
  | String c _ => is_sep c
  | EmptyString => false
  end.

(** [s == b'/' * len(s)] *)
Fixpoint all_sep (s : bytes) : bool :=
  match s with
  | EmptyString => true
  | String c s' => is_sep c && all_sep s'
  end.

(** [p[:p.rfind(b'/') + 1]]: the prefix of [p] up to and including its
    last separator. *)
Fixpoint head_upto_sep (p : bytes) : bytes :=
  match p with
  | EmptyString => EmptyString
  | String c p' =>
      match head_upto_sep p' with
      | EmptyString => if is_sep c then String c EmptyString else EmptyString
      | h => String c h
      end
  end.

(** [p[p.rfind(b'/') + 1:]]: what follows the last separator. *)
Fixpoint tail_after_sep (p : bytes) : bytes :=
  match p with
  | EmptyString => EmptyString
  | String c p' =>
      match head_upto_sep p' with
      | EmptyString => if is_sep c then p' else String c p'
      | _ => tail_after_sep p'
      end
  end.

Module os_path.

(** [posixpath.split] *)
Definition split (p : bytes) : bytes * bytes :=
  let head := head_upto_sep p in
  let tail := tail_after_sep p in
  let head := if negb (String.eqb head "") && negb (all_sep head)
              then rstrip_sep head else head in
  (head, tail).

Definition dirname (p : bytes) : bytes := fst (split p).

Definition basename (p : bytes) : bytes := tail_after_sep p.

(** [posixpath.join(a, b)] with one component [b]. *)
Definition join (a b : bytes) : bytes :=
  if startswith_sep b then b
  else if String.eqb a "" || endswith_sep a then a ++ b
  else a ++ "/" ++ b.

End os_path.

(** [b.split(b'/')] *)
Fixpoint split_sep (s : bytes) : list bytes :=
  match s with
  | EmptyString => [EmptyString]
  | String c s' =>
      if is_sep c then EmptyString :: split_sep s'
      else match split_sep s' with
           | [] => [String c EmptyString]
           | w :: ws => String c w :: ws
           end
  end.

(** [b'/'.join(l)] *)
Fixpoint join_sep (l : list bytes) : bytes :=
  match l with
  | [] => ""
  | [w] => w
  | w :: ws => w ++ "/" ++ join_sep ws
  end.

(** ** Exceptions and results *)

Inductive exn :=
| KeyError
| ValueError (msg : string)
| IndexError
| TypeError
| OSError.

(** The result of running a piece of the program: a value, a raised
    exception, or no answer within the given number of recursive calls
    or loop turns. *)
Inductive res (A : Type) :=
| Ok (a : A)
| Raise (e : exn)
| OutOfFuel.
Arguments Ok {A} a.
Arguments Raise {A} e.
Arguments OutOfFuel {A}.

#[global] Instance res_bind : MBind res := fun A B k m =>
  match m with
  | Ok a => k a
  | Raise e => Raise e
  | OutOfFuel => OutOfFuel
  end.

#[global] Instance res_ret : MRet res := fun A a => Ok a.

Definition res_forget {A B} (r : res A) (b : B) : res B :=
  match r with
  | Ok _ => Ok b
  | Raise e => Raise e
  | OutOfFuel => OutOfFuel
  end.

(** ** commonpath *)

(** Python compares lists lexicographically, and bytes by unsigned byte
    value. *)
Fixpoint list_ltb (a b : list bytes) : bool :=
  match a, b with
  | [], [] => false
  | [], _ :: _ => true
  | _ :: _, [] => false
  | x :: a', y :: b' =>
      if String.eqb x y then list_ltb a' b' else String.ltb x y
  end.

(** [min(l)] and [max(l)] keep the first extremal item. *)
Definition py_min (x : list bytes) (l : list (list bytes)) : list bytes :=
  fold_left (fun m y => if list_ltb y m then y else m) l x.

Definition py_max (x : list bytes) (l : list (list bytes)) : list bytes :=
  fold_left (fun m y => if list_ltb m y then y else m) l x.

(** The loop [for i, c in enumerate(s1): if c != s2[i]: common = s1[:i]; break]. *)
Fixpoint common_prefix (s1 s2 : list bytes) : res (list bytes) :=
  match s1 with
  | [] => Ok []
  | c :: s1' =>
      match s2 with
      | [] => Raise IndexError
      | d :: s2' =>
          if String.eqb c d then r ← common_prefix s1' s2'; Ok (c :: r)
          else Ok []
      end
  end.

Definition curdir : bytes := ".".

(** [[c for c in s if c and c != curdir]] *)
Definition components (p : bytes) : list bytes :=
  List.filter (fun c => negb (String.eqb c "") && negb (String.eqb c curdir))
              (split_sep p).

Definition commonpath (paths : list bytes) : res bytes :=
  match paths with
  | [] => Raise (ValueError "commonpath() arg is an empty sequence")
  | p0 :: ps =>
      match remove_dups (map startswith_sep paths) with
      | [isabs] =>
          let s1 := py_min (components p0) (map components ps) in
          let s2 := py_max (components p0) (map components ps) in
          common ← common_prefix s1 s2;
          let prefix := if isabs then "/" else "" in
          Ok (prefix ++ join_sep common)
      | _ => Raise (ValueError "Can't mix absolute and relative paths")
      end
  end.

Example dirname_ex1 : os_path.dirname "/a/b" = "/a". Proof. reflexivity. Qed.
Example dirname_ex2 : os_path.dirname "/a" = "/". Proof. reflexivity. Qed.
Example dirname_ex3 : os_path.dirname "a" = "". Proof. reflexivity. Qed.
Example dirname_ex4 : os_path.dirname "//a" = "//". Proof. reflexivity. Qed.
Example dirname_ex5 : os_path.dirname "/a//" = "/a". Proof. reflexivity. Qed.
Example basename_ex1 : os_path.basename "/a/b" = "b". Proof. reflexivity. Qed.
Example basename_ex2 : os_path.basename "/a/b/" = "". Proof. reflexivity. Qed.
Example split_ex1 : split_sep "/a//b" = [""; "a"; ""; "b"]. Proof. reflexivity. Qed.
Example join_ex1 : os_path.join "/a" "x" = "/a/x". Proof. reflexivity. Qed.
Example join_ex2 : os_path.join "/" "x" = "/x". Proof. reflexivity. Qed.
Example join_ex3 : os_path.join "" "x" = "x". Proof. reflexivity. Qed.
Example commonpath_ex1 :
  commonpath ["/r/a/b"; "/r/a/c"; "/r/a"] = Ok "/r/a".
Proof. reflexivity. Qed.
Example commonpath_ex2 : commonpath ["x"; "y"] = Ok "". Proof. reflexivity. Qed.

(** ** The filesystem

    A filesystem is the tree below [/].  A symbolic link records its
    target (what [os.readlink] returns) and whether that target is a
    directory (what [DirEntry.is_dir] answers for the link).  Links are
    never followed when a path is resolved, [..] is not interpreted, and
    the working directory of the process is [/]: the model is that of
    the paths that go through directories only, and a path that is, or
    goes through, a link to a directory names nothing here, where the
    system would follow the link. *)

Inductive node :=
| File (data : bytes) (executable : bool)
| Symlink (target : bytes) (to_dir : bool)
| Dir (entries : list (bytes * node)).

Definition is_dir (n : node) : bool :=
  match n with
  | Dir _ => true
  | Symlink _ d => d
  | File _ _ => false
  end.

Definition is_symlink (n : node) : bool :=
  match n with
  | Symlink _ _ => true
  | _ => false
  end.

Fixpoint lookup_name (name : bytes) (es : list (bytes * node)) : option node :=
  match es with
  | [] => None
  | (n, c) :: es' => if String.eqb n name then Some c else lookup_name name es'
  end.

Fixpoint descend (cur : node) (comps : list bytes) : option node :=
  match comps with
  | [] => Some cur
  | c :: cs =>
      match cur with
      | Dir es => n ← lookup_name c es; descend n cs
      | _ => None
      end
  end.

(** The node a path names ([lstat]); the empty path names nothing. *)
Definition resolve (fs : node) (p : bytes) : option node :=
  if String.eqb p "" then None else descend fs (components p).

Module os.

(** One triple per directory, as [os.walk(top, topdown=False)] yields
    them: the subdirectories that are not links first, in listing
    order, then the directory itself.  A link to a directory is named
    among the directories and not walked into. *)
Fixpoint walk_from (top : bytes) (n : node)
  : list (bytes * list bytes * list bytes) :=
  match n with
  | Dir es =>
      ((fix walk_dirs (l : list (bytes * node)) :=
         match l with
         | [] => []
         | (name, c) :: l' =>
             ((if is_dir c && negb (is_symlink c)
               then walk_from (os_path.join top name) c else [])
              ++ walk_dirs l')%list
         end) es
      ++ [(top,
           map fst (List.filter (fun e => is_dir (snd e)) es),
           map fst (List.filter (fun e => negb (is_dir (snd e))) es))])%list
  | _ => []
  end.

(** A top that cannot be listed yields nothing: [os.walk] ignores the
    error of [scandir].  A top that is a link to a directory, which
    [os.walk] lists, is not told apart from it. *)
Definition walk (fs : node) (top : bytes)
  : list (bytes * list bytes * list bytes) :=
  match resolve fs top with
  | Some (Dir es) => walk_from top (Dir es)
  | _ => []
  end.

Definition islink (fs : node) (p : bytes) : bool :=
  match resolve fs p with
  | Some n => is_symlink n
  | None => false
  end.

Definition readlink (fs : node) (p : bytes) : res bytes :=
  match resolve fs p with
  | Some (Symlink target _) => Ok target
  | _ => Raise OSError
  end.

(** The bytes of a regular file. *)
Definition read (fs : node) (p : bytes) : res bytes :=
  match resolve fs p with
  | Some (File data _) => Ok data
  | _ => Raise OSError
  end.

(** [os.access(p, os.X_OK)] *)
Definition access_x (fs : node) (p : bytes) : bool :=
  match resolve fs p with
  | Some (File _ x) => x
  | Some (Dir _) => true
  | _ => false
  end.

Fixpoint delete_name (name : bytes) (es : list (bytes * node))
  : list (bytes * node) :=
  match es with
  | [] => []
  | (n, c) :: es' =>
      if String.eqb n name then es' else (n, c) :: delete_name name es'
  end.

Fixpoint replace_name (name : bytes) (c' : node) (es : list (bytes * node))
  : list (bytes * node) :=
  match es with
  | [] => []
  | (n, c) :: es' =>
      if String.eqb n name then (n, c') :: es'
      else (n, c) :: replace_name name c' es'
  end.

(** Unlink the node at [comps] when [ok] accepts it. *)
Fixpoint unlink_at (ok : node → bool) (cur : node) (comps : list bytes)
  : option node :=
  match comps, cur with
  | [c], Dir es =>
      n ← lookup_name c es;
      if ok n then Some (Dir (delete_name c es)) else None
  | c :: cs, Dir es =>
      n ← lookup_name c es;
      n' ← unlink_at ok n cs;
      Some (Dir (replace_name c n' es))
  | _, _ => None
  end.

Definition unlink (ok : node → bool) (fs : node) (p : bytes) : res node :=
  if String.eqb p "" then Raise OSError
  else match unlink_at ok fs (components p) with
       | Some fs' => Ok fs'
       | None => Raise OSError
       end.

(** [os.rmdir]: only an empty directory goes. *)
Definition rmdir : node → bytes → res node :=
  unlink (fun n => match n with Dir [] => true | _ => false end).

(** [os.remove]: anything but a directory goes. *)
Definition remove : node → bytes → res node :=
  unlink (fun n => match n with Dir _ => false | _ => true end).

(** The loop of [os.removedirs]: prune the parents, rightmost first,
    until one cannot be removed.  Every turn shortens [head]. *)
Fixpoint removedirs_up (turns : nat) (fs : node) (head tail : bytes) : node :=
  match turns with
  | O => fs
  | S turns' =>
      if negb (String.eqb head "") && negb (String.eqb tail "") then
        match rmdir fs head with
        | Ok fs' =>
            let '(head', tail') := os_path.split head in
            removedirs_up turns' fs' head' tail'
        | _ => fs
        end
      else fs
  end.

Definition removedirs (fs : node) (name : bytes) : res node :=
  fs' ← rmdir fs name;
  let '(head, tail) := os_path.split name in
  let '(head, tail) :=
    if String.eqb tail "" then os_path.split head else (head, tail) in
  Ok (removedirs_up (S (String.length name)) fs' head tail).

End os.

(** ** Entries and the index *)

Definition ROOT_TREE_KEY : bytes := "".

Module GitType.
Inductive t := BLOB | TREE | EXEC | LINK | COMM | RELE | REFS.
#[global] Instance eq_dec : EqDecision t.
Proof. solve_decision. Defined.
End GitType.

Module GitPerm.
Inductive t := BLOB | TREE | EXEC | LINK.
#[global] Instance eq_dec : EqDecision t.
Proof. solve_decision. Defined.

Definition value (p : t) : bytes :=
  match p with
  | BLOB => "100644"
  | TREE => "40000"
  | EXEC => "100755"
  | LINK => "120000"
  end.

(** [int(s, 8)] on a string of octal digits. *)
Definition int8 (s : bytes) : N :=
  fold_left (fun acc c => (8 * acc + (N_of_ascii c - 48))%N)
            (list_ascii_of_string s) 0%N.

(** [int(perms.value, 8)] *)
Definition mode (p : t) : N := int8 (value p).
End GitPerm.

(** What [hashutil.hash_data] and [hashutil.hash_path] return: the
    [sha1_git] digest and the digests of the other algorithms. *)
Record hashes := { h_sha1_git : bytes; h_others : list (string * bytes) }.

(** One item of the [entries] list handed to
    [identifiers.directory_identifier]. *)
Record directory_entry := {
  de_name : bytes;
  de_perms : N;
  de_target : bytes;
  de_type : string
}.

(** The modules [hashutil] and [identifiers] are outside this file: the
    development is parametric in them.  [hash_path] is taken as a
    function of the bytes of the file at the path. *)
Class DigestDelegate := {
  hash_data : bytes → hashes;
  hash_path : bytes → hashes;
  directory_identifier : list directory_entry → string;
  hash_to_bytes : string → bytes
}.

(** A directory entry of the index: the dictionary with keys
    [sha1_git], [name], [perms], [type], [path], the digests of the
    other algorithms for contents and, for links, [data] and [length]. *)
Record entry := {
  e_sha1_git : bytes;
  e_name : bytes;
  e_perms : GitPerm.t;
  e_type : GitType.t;
  e_path : bytes;
  e_others : list (string * bytes);
  e_data : option bytes;
  e_length : option nat
}.

(** A value of the index: a list of entries, or the iterator that
    [filter(pred, list)] returns, which yields its pending entries once
    and is empty afterwards. *)
Inductive stored :=
| Lst (l : list entry)
| Flt (pending : list entry).

Abbreviation index := (gmap string stored).

(** Truth value of a stored value: a list is true when it is not empty,
    an iterator object always. *)
Definition truthy (s : stored) : bool :=
  match s with
  | Lst [] => false
  | _ => true
  end.

(** The entries a [for] loop over the value sees. *)
Definition items (s : stored) : list entry :=
  match s with
  | Lst l => l
  | Flt pending => pending
  end.

(** Code that works on a dictionary in place: it ends with a result and
    the dictionary as it then is, also when it raises. *)
Definition St (A : Type) : Type := index → res A * index.

#[global] Instance St_bind : MBind St := fun A B k m objects =>
  match m objects with
  | (Ok a, objects') => k a objects'
  | (Raise e, objects') => (Raise e, objects')
  | (OutOfFuel, objects') => (OutOfFuel, objects')
  end.

#[global] Instance St_ret : MRet St := fun A a objects => (Ok a, objects).

Definition raise {A} (e : exn) : St A := fun objects => (Raise e, objects).

Definition set_item (k : bytes) (v : stored) : St unit :=
  fun objects => (Ok tt, <[k := v]> objects).

Section Engine.

Context `{DigestDelegate}.

Definition to_directory_entry (e : entry) : directory_entry :=
  {| de_name := e_name e;
     de_perms := GitPerm.mode (e_perms e);
     de_target := e_sha1_git e;
     de_type := if decide (e_perms e = GitPerm.TREE) then "dir" else "file" |}.

Definition directory_sha1 (l : list entry) : bytes :=
  hash_to_bytes (directory_identifier (map to_directory_entry l)).

(** Reading [hashes[dirpath]] raises [KeyError] on a missing key, and
    the comprehension over it uses up an iterator stored there. *)
Definition compute_directory_git_sha1 (dirpath : bytes) : St bytes :=
  fun hashes =>
    match hashes !! dirpath with
    | None => (Raise KeyError, hashes)
    | Some (Lst l) => (Ok (directory_sha1 l), hashes)
    | Some (Flt pending) =>
        (Ok (directory_sha1 pending), <[dirpath := Flt []]> hashes)
    end.

Definition compute_link_metadata (fs : node) (linkpath : bytes) : res entry :=
  data ← os.readlink fs linkpath;
  let link_metadata := hash_data data in
  Ok {| e_sha1_git := h_sha1_git link_metadata;
        e_others := h_others link_metadata;
        e_data := Some data;
        e_length := Some (String.length data);
        e_name := os_path.basename linkpath;
        e_perms := GitPerm.LINK;
        e_type := GitType.BLOB;
        e_path := linkpath |}.

Definition compute_blob_metadata (fs : node) (filepath : bytes) : res entry :=
  content ← os.read fs filepath;
  let blob_metadata := hash_path content in
  let perms := if os.access_x fs filepath then GitPerm.EXEC else GitPerm.BLOB in
  Ok {| e_sha1_git := h_sha1_git blob_metadata;
        e_others := h_others blob_metadata;
        e_data := None;
        e_length := None;
        e_name := os_path.basename filepath;
        e_perms := perms;
        e_type := GitType.BLOB;
        e_path := filepath |}.

Definition compute_tree_metadata (dirname : bytes) : St entry :=
  sha1 ← compute_directory_git_sha1 dirname;
  mret {| e_sha1_git := sha1;
          e_others := [];
          e_data := None;
          e_length := None;
          e_name := os_path.basename dirname;
          e_perms := GitPerm.TREE;
          e_type := GitType.TREE;
          e_path := dirname |}.

(** *** The walker *)

Definition filtfn (dir_ok_fn : bytes → bool) (dirpath : bytes)
           (dirnames : list bytes) : list bytes :=
  List.filter (fun dirname => dir_ok_fn (os_path.join dirpath dirname))
              dirnames.

Definition gen_dir (fs : node) (rootdir : bytes) (dir_ok_fn : bytes → bool)
  : list (bytes * list bytes * list bytes) :=
  map (fun '(dp, dns, fns) => (dp, filtfn dir_ok_fn dp dns, fns))
      (List.filter (fun '(dp, _, _) => dir_ok_fn dp) (os.walk fs rootdir)).

(** The round trip that removes empty folders.  The triples are those
    of the tree as it is when the pass starts: [os.walk] lists a
    directory before anything in or above it is removed. *)
Fixpoint remove_empty_folders (fs : node)
         (dirs : list (bytes * list bytes * list bytes)) : res unit * node :=
  match dirs with
  | [] => (Ok tt, fs)
  | (dirpath, dirnames, filenames) :: dirs' =>
      match dirnames, filenames with
      | [], [] =>
          match (if os.islink fs dirpath then os.remove fs dirpath
                 else os.removedirs fs dirpath) with
          | Ok fs' => remove_empty_folders fs' dirs'
          | r => (res_forget r tt, fs)
          end
      | _, _ => remove_empty_folders fs dirs'
      end
  end.

(** The loop [for fulldirname in subdirs]. *)
Fixpoint tree_hashes (subdirs : list bytes) : St (list entry) :=
  match subdirs with
  | [] => mret []
  | fulldirname :: subdirs' =>
      tree_hash ← compute_tree_metadata fulldirname;
      dir_hashes ← tree_hashes subdirs';
      mret (tree_hash :: dir_hashes)
  end.

(** One turn of the main loop; [all_links] is passed along. *)
Definition hash_directory (fs : node) (all_links : gset string)
           (dir : bytes * list bytes * list bytes) : St (gset string) :=
  let '(dirpath, dirnames, filenames) := dir in
  let links :=
    List.filter (os.islink fs)
                (map (os_path.join dirpath) (filenames ++ dirnames)%list) in
  fun ls_hashes =>
    match mapM (compute_link_metadata fs) links with
    | Ok link_hashes =>
        let all_links := all_links ∪ list_to_set links in
        let only_files :=
          List.filter (fun p => bool_decide (p ∉ all_links))
                      (map (os_path.join dirpath) filenames) in
        match mapM (compute_blob_metadata fs) only_files with
        | Ok blob_hashes =>
            let hashes := (link_hashes ++ blob_hashes)%list in
            let subdirs :=
              List.filter (fun p => bool_decide (p ∉ all_links))
                          (map (os_path.join dirpath) dirnames) in
            (dir_hashes ← tree_hashes subdirs;
             (* the list stored at [dirpath] is still [hashes] *)
             set_item dirpath (Lst (hashes ++ dir_hashes)%list);;
             mret all_links) (<[dirpath := Lst hashes]> ls_hashes)
        | r => (res_forget r all_links, ls_hashes)
        end
    | r => (res_forget r all_links, ls_hashes)
    end.

Fixpoint hash_directories (fs : node) (all_links : gset string)
         (dirs : list (bytes * list bytes * list bytes)) : St unit :=
  match dirs with
  | [] => mret tt
  | dir :: dirs' =>
      all_links ← hash_directory fs all_links dir;
      hash_directories fs all_links dirs'
  end.

Definition root_tree (rootdir : bytes) : St unit :=
  sha1 ← compute_directory_git_sha1 rootdir;
  let root_hash :=
    {| e_sha1_git := sha1;
       e_path := rootdir;
       e_name := os_path.basename rootdir;
       e_perms := GitPerm.TREE;
       e_type := GitType.TREE;
       e_others := []; e_data := None; e_length := None |} in
  set_item ROOT_TREE_KEY (Lst [root_hash]).

(** The result is the returned dictionary, or the exception, and the
    filesystem as the call leaves it. *)
Definition walk_and_compute_sha1_from_directory
           (fs : node) (rootdir : bytes) (dir_ok_fn : bytes → bool)
           (with_root_tree remove_empty_folder : bool) : res index * node :=
  let rootdir := if endswith_sep rootdir then rstrip_sep rootdir else rootdir in
  let '(pruned, fs) :=
    if remove_empty_folder
    then remove_empty_folders fs (gen_dir fs rootdir dir_ok_fn)
    else (Ok tt, fs) in
  match pruned with
  | Ok _ =>
      let '(r, ls_hashes) :=
        (hash_directories fs ∅ (gen_dir fs rootdir dir_ok_fn);;
         if with_root_tree then root_tree rootdir else mret tt) ∅ in
      (res_forget r ls_hashes, fs)
  | r => (res_forget r ∅, fs)
  end.

(** *** Recomputation in memory *)

Definition recompute_entry (hashfile : entry) : St entry :=
  let fulldirname := e_path hashfile in
  if decide (e_type hashfile = GitType.TREE)
  then compute_tree_metadata fulldirname
  else mret hashfile.

(** The loop [for hashfile in files] over the items not seen yet;
    [ls_hashes] is the list built so far. *)
Fixpoint recompute_files (rootdir : bytes) (files ls_hashes : list entry)
  : St unit :=
  match files with
  | [] => mret tt
  | hashfile :: files' =>
      e ← recompute_entry hashfile;
      let ls_hashes := (ls_hashes ++ [e])%list in
      set_item rootdir (Lst ls_hashes);;
      recompute_files rootdir files' ls_hashes
  end.

(** The later turns of that loop when [files] is an iterator: it goes
    on with what the iterator, until now stored at [rootdir], still
    holds. *)
Definition recompute_pending (rootdir : bytes) (e : entry) : St unit :=
  fun objects =>
    let pending := from_option items [] (objects !! rootdir) in
    (set_item rootdir (Lst [e]);;
     recompute_files rootdir pending [e]) objects.

(** One turn of the [while] loop.  When [objects[rootdir]] is an
    iterator, it stays in the dictionary during the first turn of the
    inner loop, where reading [objects[rootdir]] uses it up. *)
Definition recompute_level (rootdir : bytes) : St unit :=
  fun objects =>
    match objects !! rootdir with
    | None => (Raise KeyError, objects)
    | Some (Lst files) => recompute_files rootdir files [] objects
    | Some (Flt []) => (Ok tt, objects)
    | Some (Flt (hashfile :: pending)) =>
        (e ← recompute_entry hashfile; recompute_pending rootdir e)
          (<[rootdir := Flt pending]> objects)
    end.

Fixpoint recompute_levels (fuel : nat) (upper_root rootdir : bytes)
  : St unit :=
  if String.eqb rootdir upper_root then mret tt
  else match fuel with
       | O => fun objects => (OutOfFuel, objects)
       | S fuel' =>
           recompute_level rootdir;;
           recompute_levels fuel' upper_root (os_path.dirname rootdir)
       end.

(** [objects[ROOT_TREE_KEY][0]['sha1_git'] = root_tree_hash] *)
Definition set_root_sha1 (root_tree_hash : bytes) : St unit :=
  fun objects =>
    match objects !! ROOT_TREE_KEY with
    | None => (Raise KeyError, objects)
    | Some (Flt _) => (Raise TypeError, objects)
    | Some (Lst []) => (Raise IndexError, objects)
    | Some (Lst (e :: l)) =>
        let e' := {| e_sha1_git := root_tree_hash;
                     e_name := e_name e; e_perms := e_perms e;
                     e_type := e_type e; e_path := e_path e;
                     e_others := e_others e; e_data := e_data e;
                     e_length := e_length e |} in
        (Ok tt, <[ROOT_TREE_KEY := Lst (e' :: l)]> objects)
    end.

Definition recompute_sha1_in_memory (fuel : nat) (root deeper_rootdir : bytes)
  : St unit :=
  let upper_root := os_path.dirname root in
  let rootdir := os_path.dirname deeper_rootdir in
  recompute_levels fuel upper_root rootdir;;
  root_tree_hash ← compute_directory_git_sha1 root;
  set_root_sha1 root_tree_hash.

End Engine.

(** ** Cascading removal *)

(** Python values that meet in a comparison. *)
Inductive pyval :=
| PyBytes (b : bytes)
| PyDict (e : entry).

#[global] Instance entry_eq_dec : EqDecision entry.
Proof. solve_decision. Defined.

(** [a != b]: values of different types are never equal. *)
Definition py_ne (a b : pyval) : bool :=
  match a, b with
  | PyBytes x, PyBytes y => bool_decide (x ≠ y)
  | PyDict x, PyDict y => bool_decide (x ≠ y)
  | _, _ => true
  end.

(** The order in which a [for] loop, or [list(s)], goes through a set of
    bytes is not fixed by the language. *)
Class SetOrder := {
  set_iter : gset string → list string;
  set_iter_elem : ∀ s x, x ∈ set_iter s ↔ x ∈ s;
  set_iter_nodup : ∀ s, NoDup (set_iter s)
}.

#[global] Program Instance elements_order : SetOrder :=
  {| set_iter := elements |}.
Next Obligation. intros. apply elem_of_elements. Qed.
Next Obligation. intros. apply NoDup_elements. Qed.

Section Removal.

Context `{SetOrder}.

(** [filter(lambda p: p != path, objects.get(parent, []))] *)
Definition py_filter_ne (path : bytes) (s : stored) : stored :=
  Flt (List.filter (fun p => py_ne (PyDict p) (PyBytes path)) (items s)).

(** One turn of the loop [for path in rootpaths]. *)
Definition remove_path (dir_ok_fn : bytes → bool) (path : bytes)
           (dirpaths_to_clean : gset string) : St (gset string) :=
  fun objects =>
    let path_list := objects !! path in
    let objects := delete path objects in
    let dirpaths_to_clean :=
      match path_list with
      | Some s =>
          if truthy s then
            fold_left (fun acc child =>
                         if decide (e_type child = GitType.TREE)
                         then acc ∪ {[e_path child]} else acc)
                      (items s) dirpaths_to_clean
          else dirpaths_to_clean
      | None => dirpaths_to_clean
      end in
    let parent := os_path.dirname path in
    let parent_check := dir_ok_fn parent in
    if negb parent_check && bool_decide (parent ∉ dirpaths_to_clean)
    then (Ok (dirpaths_to_clean ∪ {[parent]}), objects)
    else
      match objects !! parent with
      | Some s =>
          if truthy s
          then (Ok dirpaths_to_clean,
                <[parent := py_filter_ne path s]> objects)
          else (Ok dirpaths_to_clean, objects)
      | None => (Ok dirpaths_to_clean, objects)
      end.

Fixpoint remove_paths (dir_ok_fn : bytes → bool) (rootpaths : list bytes)
         (dirpaths_to_clean : gset string) : St (gset string) :=
  match rootpaths with
  | [] => mret dirpaths_to_clean
  | path :: rootpaths' =>
      dirpaths_to_clean ← remove_path dir_ok_fn path dirpaths_to_clean;
      remove_paths dir_ok_fn rootpaths' dirpaths_to_clean
  end.

(** [fuel] bounds the depth of the recursion. *)
Fixpoint __remove_paths_from_objects (fuel : nat) (rootpaths : list bytes)
         (dir_ok_fn : bytes → bool) : St unit :=
  match fuel with
  | O => fun objects => (OutOfFuel, objects)
  | S fuel' =>
      dirpaths_to_clean ← remove_paths dir_ok_fn rootpaths ∅;
      if bool_decide (dirpaths_to_clean ≠ ∅)
      then __remove_paths_from_objects fuel' (set_iter dirpaths_to_clean)
                                       dir_ok_fn
      else mret tt
  end.

End Removal.

(** ** The incremental updater *)

(** A change: the dictionary with keys [path] and [action]. *)
Record change := { c_path : bytes; c_action : string }.

(** How [update_checksums_from] ends: what it returns or raises, the
    dictionary it was given as the call leaves it, and the filesystem. *)
Record outcome := {
  returned : res index;
  objects_after : index;
  fs_after : node
}.

(** What the first round trip over the changes finds. *)
Inductive scan :=
| RecomputeEverything
| Impacted (paths paths_to_remove : gset string).

Section Updater.

Context `{DigestDelegate} `{SetOrder}.

(** [objects[ROOT_TREE_KEY][0]['path']] *)
Definition root_path (objects : index) : res bytes :=
  match objects !! ROOT_TREE_KEY with
  | None => Raise KeyError
  | Some (Flt _) => Raise TypeError
  | Some (Lst []) => Raise IndexError
  | Some (Lst (e :: _)) => Ok (e_path e)
  end.

(** The loop [for changed_path in changed_paths]. *)
Fixpoint scan_changes (root : bytes) (changed_paths : list change)
         (paths paths_to_remove : gset string) : scan :=
  match changed_paths with
  | [] => Impacted paths paths_to_remove
  | changed_path :: changed_paths' =>
      let path := c_path changed_path in
      let parent := os_path.dirname path in
      if String.eqb parent root then RecomputeEverything
      else
        let paths_to_remove :=
          if String.eqb (c_action changed_path) "D"
          then paths_to_remove ∪ {[path]} else paths_to_remove in
        scan_changes root changed_paths' (paths ∪ {[parent]}) paths_to_remove
  end.

(** The full walk both fallbacks return; the dictionary given is left
    as it is at that point. *)
Definition full_walk (fs : node) (root : bytes) (objects : index)
           (dir_ok_fn : bytes → bool) (remove_empty_folder : bool) : outcome :=
  let '(r, fs') :=
    walk_and_compute_sha1_from_directory fs root dir_ok_fn true
                                         remove_empty_folder in
  {| returned := r; objects_after := objects; fs_after := fs' |}.

Definition update_checksums_from (fuel : nat) (fs : node)
           (changed_paths : list change) (objects : index)
           (dir_ok_fn : bytes → bool) (remove_empty_folder : bool) : outcome :=
  match root_path objects with
  | Ok root =>
      let root := if endswith_sep root then rstrip_sep root else root in
      match scan_changes root changed_paths ∅ ∅ with
      | RecomputeEverything =>
          full_walk fs root objects dir_ok_fn remove_empty_folder
      | Impacted paths paths_to_remove =>
          if bool_decide (paths = ∅)
          then {| returned := Ok objects; objects_after := objects;
                  fs_after := fs |}
          else
            match commonpath (set_iter paths) with
            | Ok rootdir =>
                let '(removed, objects) :=
                  if bool_decide (paths_to_remove ≠ ∅)
                  then __remove_paths_from_objects
                         fuel (set_iter paths_to_remove) dir_ok_fn objects
                  else (Ok tt, objects) in
                match removed with
                | Ok _ =>
                    if negb (from_option truthy false (objects !! rootdir))
                    then full_walk fs root objects dir_ok_fn
                                   remove_empty_folder
                    else
                      match walk_and_compute_sha1_from_directory
                              fs rootdir dir_ok_fn false remove_empty_folder
                      with
                      | (Ok hashes, fs') =>
                          (* objects.update(hashes) *)
                          let objects := hashes ∪ objects in
                          let '(r, objects) :=
                            recompute_sha1_in_memory fuel root rootdir objects in
                          {| returned := res_forget r objects;
                             objects_after := objects; fs_after := fs' |}
                      | (r, fs') =>
                          {| returned := r; objects_after := objects;
                             fs_after := fs' |}
                      end
                | r => {| returned := res_forget r objects;
                          objects_after := objects; fs_after := fs |}
                end
            | r => {| returned := res_forget r objects;
                      objects_after := objects; fs_after := fs |}
            end
      end
  | r => {| returned := res_forget r objects; objects_after := objects;
            fs_after := fs |}
  end.

End Updater.

(** ** A small tree to run the definitions on *)

Module Sample.

(** A stand-in for the digest functions that keeps apart what it is
    given: the digest of a content is the content, the identifier of a
    directory lists its entries. *)
#[export] Instance delegate : DigestDelegate := {|
  hash_data := fun d => {| h_sha1_git := "L:" ++ d; h_others := [] |};
  hash_path := fun d => {| h_sha1_git := "B:" ++ d; h_others := [] |};
  directory_identifier := fun l =>
    "T(" ++ String.concat ","
              (map (fun e => de_type e ++ " " ++ de_name e
                             ++ "=" ++ de_target e) l)
         ++ ")";
  hash_to_bytes := fun h => h
|}.

(** [/r/a/b/file.txt] and [/r/c.txt] *)
Definition fs0 : node :=
  Dir [("r", Dir [("a", Dir [("b", Dir [("file.txt", File "foo" false)])]);
                  ("c.txt", File "bar" false)])].

Definition all_ok (p : bytes) : bool := true.

(** A filter that rejects [/r/a] and nothing else. *)
Definition all_but_a (p : bytes) : bool := negb (String.eqb p "/r/a").

Definition walked (fs : node) (rootdir : bytes) (dir_ok_fn : bytes → bool)
  : index :=
  match fst (walk_and_compute_sha1_from_directory
               fs rootdir dir_ok_fn true false) with
  | Ok idx => idx
  | _ => ∅
  end.

(** The index of [fs0] below [/r]. *)
Definition index0 : index := Eval vm_compute in walked fs0 "/r" all_ok.

(** The same with [/r/a] filtered out. *)
Definition index_but_a : index := Eval vm_compute in walked fs0 "/r" all_but_a.

End Sample.

(** * Properties *)

(** ** The first round trip over the changes *)

Section ScanFacts.

Lemma scan_changes_root_adjacent root changed_paths paths paths_to_remove :
  (∃ c, c ∈ changed_paths ∧ os_path.dirname (c_path c) = root) →
  scan_changes root changed_paths paths paths_to_remove = RecomputeEverything.
Proof.
  revert paths paths_to_remove.
  induction changed_paths as [|c0 l IH]; intros P R [c [Hin Hc]].
  - inversion Hin.
  - simpl. destruct (String.eqb_spec (os_path.dirname (c_path c0)) root) as [|Hne].
    + reflexivity.
    + apply IH. exists c. split; [|done].
      apply elem_of_cons in Hin as [->|]; [congruence|done].
Qed.

Definition deleted_paths (changed_paths : list change) : list bytes :=
  map c_path (List.filter (fun c => String.eqb (c_action c) "D") changed_paths).

Lemma scan_changes_impacted root changed_paths paths paths_to_remove :
  Forall (fun c => os_path.dirname (c_path c) ≠ root) changed_paths →
  scan_changes root changed_paths paths paths_to_remove =
    Impacted (paths ∪ list_to_set (map (fun c => os_path.dirname (c_path c))
                                       changed_paths))
             (paths_to_remove ∪ list_to_set (deleted_paths changed_paths)).
Proof.
  revert paths paths_to_remove.
  induction changed_paths as [|c0 l IH]; intros P R Hall.
  - simpl. f_equal; set_solver.
  - inversion_clear Hall as [|? ? Hc Hl]. simpl.
    destruct (String.eqb_spec (os_path.dirname (c_path c0)) root) as [|_];
      [done|].
    rewrite IH by done. unfold deleted_paths. simpl.
    destruct (String.eqb (c_action c0) "D"); simpl; f_equal; set_solver.
Qed.

End ScanFacts.

(** ** commonpath: the fatal inputs *)

Lemma commonpath_empty :
  commonpath [] = Raise (ValueError "commonpath() arg is an empty sequence").
Proof. reflexivity. Qed.

Lemma commonpath_mixed (paths : list bytes) p q :
  p ∈ paths → q ∈ paths →
  startswith_sep p = true → startswith_sep q = false →
  commonpath paths = Raise (ValueError "Can't mix absolute and relative paths").
Proof.
  intros Hp Hq Habs Hrel. unfold commonpath.
  destruct paths as [|p0 ps]; [inversion Hp|].
  assert (Ht : true ∈ remove_dups (map startswith_sep (p0 :: ps))).
  { apply elem_of_remove_dups. rewrite <- Habs. by apply list_elem_of_fmap_2. }
  assert (Hf : false ∈ remove_dups (map startswith_sep (p0 :: ps))).
  { apply elem_of_remove_dups. rewrite <- Hrel. by apply list_elem_of_fmap_2. }
  destruct (remove_dups (map startswith_sep (p0 :: ps))) as [|b [|b' l]];
    [inversion Ht| |reflexivity].
  apply list_elem_of_singleton in Ht, Hf. congruence.
Qed.

Section UpdaterFacts.

Context `{DigestDelegate} `{SetOrder}.

(** The root as [update_checksums_from] resolves it: the path of the
    sentinel entry without trailing separators. *)
Definition resolved_root (objects : index) : res bytes :=
  root ← root_path objects;
  Ok (if endswith_sep root then rstrip_sep root else root).

Lemma update_unfold_root fuel fs changed_paths objects dir_ok_fn prune root :
  resolved_root objects = Ok root →
  update_checksums_from fuel fs changed_paths objects dir_ok_fn prune =
    match scan_changes root changed_paths ∅ ∅ with
    | RecomputeEverything => full_walk fs root objects dir_ok_fn prune
    | Impacted paths paths_to_remove =>
        if bool_decide (paths = ∅)
        then {| returned := Ok objects; objects_after := objects;
                fs_after := fs |}
        else
          match commonpath (set_iter paths) with
          | Ok rootdir =>
              let '(removed, objects) :=
                if bool_decide (paths_to_remove ≠ ∅)
                then __remove_paths_from_objects
                       fuel (set_iter paths_to_remove) dir_ok_fn objects
                else (Ok tt, objects) in
              match removed with
              | Ok _ =>
                  if negb (from_option truthy false (objects !! rootdir))
                  then full_walk fs root objects dir_ok_fn prune
                  else
                    match walk_and_compute_sha1_from_directory
                            fs rootdir dir_ok_fn false prune
                    with
                    | (Ok hashes, fs') =>
                        let objects := hashes ∪ objects in
                        let '(r, objects) :=
                          recompute_sha1_in_memory fuel root rootdir objects in
                        {| returned := res_forget r objects;
                           objects_after := objects; fs_after := fs' |}
                    | (r, fs') =>
                        {| returned := r; objects_after := objects;
                           fs_after := fs' |}
                    end
              | r => {| returned := res_forget r objects;
                        objects_after := objects; fs_after := fs |}
              end
          | r => {| returned := res_forget r objects;
                    objects_after := objects; fs_after := fs |}
          end
    end.
Proof.
  unfold resolved_root, update_checksums_from.
  destruct (root_path objects) as [root0| |]; simpl; [|done..].
  by intros [= <-].
Qed.

End UpdaterFacts.

(** C7. [commonpath] raises [ValueError] at once on an empty sequence and
    on a sequence that mixes absolute and relative paths; and when the
    parents of the changes given to [update_checksums_from] mix both,
    the call raises that error with the dictionary and the filesystem
    exactly as they were given. *)
Theorem commonpath_fatal_inputs_leave_index `{DigestDelegate} `{SetOrder}
        (paths : list bytes) fuel fs (changed_paths : list change)
        (objects : index) dir_ok_fn prune root :
  commonpath [] = Raise (ValueError "commonpath() arg is an empty sequence")
  ∧ ((∃ p q, p ∈ paths ∧ q ∈ paths
             ∧ startswith_sep p = true ∧ startswith_sep q = false) →
     commonpath paths
     = Raise (ValueError "Can't mix absolute and relative paths"))
  ∧ (resolved_root objects = Ok root →
     Forall (fun c => os_path.dirname (c_path c) ≠ root) changed_paths →
     (∃ c1 c2, c1 ∈ changed_paths ∧ c2 ∈ changed_paths
               ∧ startswith_sep (os_path.dirname (c_path c1)) = true
               ∧ startswith_sep (os_path.dirname (c_path c2)) = false) →
     update_checksums_from fuel fs changed_paths objects dir_ok_fn prune
     = {| returned := Raise (ValueError "Can't mix absolute and relative paths");
          objects_after := objects;
          fs_after := fs |}).
Proof.
  split; [reflexivity|]. split.
  - intros (p & q & Hp & Hq & Habs & Hrel).
    exact (commonpath_mixed _ _ _ Hp Hq Habs Hrel).
  - intros Hroot Hall (c1 & c2 & H1 & H2 & Habs & Hrel).
    rewrite (update_unfold_root _ _ _ _ _ _ _ Hroot).
    rewrite (scan_changes_impacted _ _ _ _ Hall).
    set (parents := map (fun c => os_path.dirname (c_path c)) changed_paths).
    assert (Hin : ∀ c, c ∈ changed_paths →
                       os_path.dirname (c_path c) ∈ set_iter (∅ ∪ list_to_set parents)).
    { intros c Hc. apply set_iter_elem. apply elem_of_union_r.
      apply elem_of_list_to_set. unfold parents.
      by apply (list_elem_of_fmap_2 (fun c => os_path.dirname (c_path c))). }
    rewrite bool_decide_eq_false_2.
    + by rewrite (commonpath_mixed _ _ _ (Hin _ H1) (Hin _ H2) Habs Hrel).
    + intros Hempty. specialize (Hin _ H1). apply set_iter_elem in Hin.
      rewrite Hempty in Hin. set_solver.
Qed.

(** C6. When some change has the resolved root as the parent of its
    path, [update_checksums_from] returns what the full walk of the root
    with the same filter and the same pruning option returns, and leaves
    the dictionary it was given untouched. *)
Theorem root_adjacent_change_is_full_walk `{DigestDelegate} `{SetOrder}
        fuel fs (changed_paths : list change) (objects : index)
        dir_ok_fn prune root c :
  resolved_root objects = Ok root →
  c ∈ changed_paths →
  os_path.dirname (c_path c) = root →
  update_checksums_from fuel fs changed_paths objects dir_ok_fn prune
  = {| returned :=
         fst (walk_and_compute_sha1_from_directory fs root dir_ok_fn true prune);
       objects_after := objects;
       fs_after :=
         snd (walk_and_compute_sha1_from_directory fs root dir_ok_fn true prune) |}.
Proof.
  intros Hroot Hc Hparent.
  rewrite (update_unfold_root _ _ _ _ _ _ _ Hroot).
  rewrite scan_changes_root_adjacent by eauto.
  unfold full_walk.
  by destruct (walk_and_compute_sha1_from_directory fs root dir_ok_fn true prune).
Qed.

(** A change whose action is not ['D'], read as a modification. *)
Definition as_modification (c : change) : change :=
  if String.eqb (c_action c) "D" then c
  else {| c_path := c_path c; c_action := "M" |}.

Lemma as_modification_path c : c_path (as_modification c) = c_path c.
Proof. unfold as_modification. by destruct (String.eqb (c_action c) "D"). Qed.

Lemma as_modification_deletes c :
  String.eqb (c_action (as_modification c)) "D" = String.eqb (c_action c) "D".
Proof.
  unfold as_modification.
  by destruct (String.eqb (c_action c) "D") eqn:Hd.
Qed.

Lemma scan_changes_as_modification root changed_paths paths paths_to_remove :
  scan_changes root (map as_modification changed_paths) paths paths_to_remove
  = scan_changes root changed_paths paths paths_to_remove.
Proof.
  revert paths paths_to_remove.
  induction changed_paths as [|c l IH]; intros P R; [done|].
  cbn [map scan_changes].
  rewrite as_modification_path, as_modification_deletes.
  destruct (String.eqb _ root); [done|]. apply IH.
Qed.

(** C10. The action of a change is never checked: a change whose action
    is anything but ['D'] has its parent accumulated and adds nothing to
    the paths to remove; with no ['D'] among the changes nothing is to
    be removed; and the whole call ends exactly as it does when every
    such action is replaced by ['M']. *)
Theorem action_is_not_validated `{DigestDelegate} `{SetOrder}
        fuel fs (changed_paths : list change) (objects : index)
        dir_ok_fn prune root c paths paths_to_remove :
  (c_action c ≠ "D" → os_path.dirname (c_path c) ≠ root →
   scan_changes root (c :: changed_paths) paths paths_to_remove
   = scan_changes root changed_paths
                  (paths ∪ {[os_path.dirname (c_path c)]}) paths_to_remove)
  ∧ (Forall (fun c => c_action c ≠ "D") changed_paths →
     Forall (fun c => os_path.dirname (c_path c) ≠ root) changed_paths →
     ∃ impacted, scan_changes root changed_paths ∅ ∅ = Impacted impacted ∅)
  ∧ update_checksums_from fuel fs changed_paths objects dir_ok_fn prune
    = update_checksums_from fuel fs (map as_modification changed_paths)
                            objects dir_ok_fn prune.
Proof.
  repeat split.
  - intros Hact Hpar. simpl.
    destruct (String.eqb_spec (os_path.dirname (c_path c)) root); [done|].
    by destruct (String.eqb_spec (c_action c) "D").
  - intros Hact Hpar. rewrite (scan_changes_impacted _ _ _ _ Hpar).
    eexists. f_equal. unfold deleted_paths.
    replace (List.filter _ changed_paths) with (@nil change); [set_solver|].
    clear Hpar. induction Hact as [|c0 l Hc0 _ IH]; [done|]. simpl.
    by destruct (String.eqb_spec (c_action c0) "D").
  - unfold update_checksums_from.
    destruct (root_path objects); [|done..].
    by rewrite scan_changes_as_modification.
Qed.

(** ** Paths: lengths *)

Lemma rstrip_sep_shorter s :
  rstrip_sep s = s ∨ String.length (rstrip_sep s) < String.length s.
Proof.
  induction s as [|c s IH]; [by left|]. simpl.
  destruct (rstrip_sep s) as [|c' r] eqn:Hr.
  - destruct (is_sep c).
    + right. simpl. lia.
    + destruct IH as [<-|IH]; [by left|]. right. simpl in *. lia.
  - destruct IH as [<-|IH]; [by left|]. right. simpl in *. lia.
Qed.

Lemma head_upto_sep_shorter p :
  head_upto_sep p = p ∨ String.length (head_upto_sep p) < String.length p.
Proof.
  induction p as [|c p IH]; [by left|]. simpl.
  destruct (head_upto_sep p) as [|c' h] eqn:Hh.
  - destruct (is_sep c).
    + destruct IH as [<-|IH]; [by left|]. right. simpl in *. lia.
    + right. simpl. lia.
  - destruct IH as [<-|IH]; [by left|]. right. simpl in *. lia.
Qed.

Lemma dirname_shorter p :
  os_path.dirname p = p
  ∨ String.length (os_path.dirname p) < String.length p.
Proof.
  unfold os_path.dirname, os_path.split. simpl.
  destruct (head_upto_sep_shorter p) as [Hh|Hh].
  - rewrite Hh.
    destruct (negb (p =? "") && negb (all_sep p)); [|by left].
    apply rstrip_sep_shorter.
  - right.
    destruct (negb (head_upto_sep p =? "") && negb (all_sep (head_upto_sep p)));
      [|done].
    destruct (rstrip_sep_shorter (head_upto_sep p)) as [->|]; lia.
Qed.

(** ** Cascading removal: what one level does *)

Section RemovalFacts.

Context `{SetOrder}.

Lemma py_filter_ne_items path s : items (py_filter_ne path s) = items s.
Proof.
  unfold py_filter_ne. simpl.
  induction (items s) as [|e l IH]; [done|]. simpl. by rewrite IH.
Qed.

(** A turn never raises, never adds a key, and queues only tree
    children of the value it pops and a parent the filter rejects. *)
Lemma remove_path_spec dir_ok_fn path queue (objects : index) :
  ∃ queue' objects',
    remove_path dir_ok_fn path queue objects = (Ok queue', objects')
    ∧ dom objects' = dom objects ∖ {[path]}
    ∧ queue ⊆ queue'
    ∧ (∀ q, q ∈ queue' → q ∈ queue
            ∨ (is_Some (objects !! path))
            ∨ (q = os_path.dirname path ∧ dir_ok_fn q = false)).
Proof.
  unfold remove_path.
  set (queue1 := match objects !! path with
                 | Some s => if truthy s then fold_left _ (items s) queue else queue
                 | None => queue
                 end).
  assert (Hsub : queue ⊆ queue1).
  { subst queue1. destruct (objects !! path) as [s|]; [|done].
    destruct (truthy s); [|done].
    generalize (items s). intros l. revert queue.
    induction l as [|e l IH]; intros queue; simpl; [done|].
    etrans; [|apply IH]. destruct (decide _); set_solver. }
  assert (Hq1 : ∀ q, q ∈ queue1 → q ∈ queue ∨ is_Some (objects !! path)).
  { subst queue1. intros q. destruct (objects !! path) as [s|]; eauto. }
  destruct (negb (dir_ok_fn (os_path.dirname path))
            && bool_decide (os_path.dirname path ∉ queue1)) eqn:Hc.
  - eexists _, _. split; [done|]. split; [by rewrite dom_delete_L|].
    split; [set_solver|].
    intros q [Hq| ->%elem_of_singleton]%elem_of_union.
    + destruct (Hq1 q Hq); eauto.
    + right; right. split; [done|].
      apply andb_true_iff in Hc as [Hc _]. by apply negb_true_iff in Hc.
  - destruct (delete path objects !! os_path.dirname path) as [s|] eqn:Hp.
    + destruct (truthy s).
      * eexists _, _. split; [done|]. split; [|split; [done|]].
        -- rewrite dom_insert_L, dom_delete_L.
           apply elem_of_dom_2 in Hp. rewrite dom_delete_L in Hp. set_solver.
        -- intros q Hq. destruct (Hq1 q Hq); eauto.
      * eexists _, _. split; [done|]. split; [by rewrite dom_delete_L|].
        split; [done|]. intros q Hq. destruct (Hq1 q Hq); eauto.
    + eexists _, _. split; [done|]. split; [by rewrite dom_delete_L|].
      split; [done|]. intros q Hq. destruct (Hq1 q Hq); eauto.
Qed.

Lemma remove_paths_spec dir_ok_fn rootpaths queue (objects : index) :
  ∃ queue' objects',
    remove_paths dir_ok_fn rootpaths queue objects = (Ok queue', objects')
    ∧ dom objects' = dom objects ∖ list_to_set rootpaths
    ∧ queue ⊆ queue'
    ∧ (∀ q, q ∈ queue' → q ∈ queue
            ∨ (∃ p, p ∈ rootpaths ∧ is_Some (objects !! p))
            ∨ (∃ p, p ∈ rootpaths ∧ q = os_path.dirname p
                    ∧ dir_ok_fn q = false)).
Proof.
  revert queue objects.
  induction rootpaths as [|path l IH]; intros queue objects.
  - eexists _, _. split; [done|]. split; [set_solver|]. split; [done|]. eauto.
  - destruct (remove_path_spec dir_ok_fn path queue objects)
      as (queue1 & objects1 & Hrun1 & Hdom1 & Hsub1 & Hq1).
    destruct (IH queue1 objects1)
      as (queue2 & objects2 & Hrun2 & Hdom2 & Hsub2 & Hq2).
    exists queue2, objects2. split.
    { cbn [remove_paths]. unfold mbind, St_bind. by rewrite Hrun1. }
    split; [rewrite Hdom2, Hdom1; set_solver|]. split; [set_solver|].
    intros q Hq. destruct (Hq2 q Hq) as [Hin|[(p & Hp & Hsome)|(p & Hp & Hd)]].
    + destruct (Hq1 q Hin) as [?|[?|[? ?]]]; [by left| |].
      * right; left. exists path. split; [set_solver|done].
      * right; right. exists path. split; [set_solver|done].
    + right; left.
      destruct (decide (p = path)) as [->|Hne].
      * destruct Hsome as [s Hs]. apply elem_of_dom_2 in Hs.
        rewrite Hdom1 in Hs. set_solver.
      * exists p. split; [set_solver|].
        apply elem_of_dom. destruct Hsome as [s Hs]. apply elem_of_dom_2 in Hs.
        rewrite Hdom1 in Hs. set_solver.
    + right; right. exists p. split; [set_solver|done].
Qed.

End RemovalFacts.

Section RemovalTermination.

Context `{SetOrder}.

Definition max_len (l : list bytes) : nat :=
  foldr (fun p m => Nat.max (String.length p) m) 0 l.

Lemma max_len_bound l : Forall (fun p => (String.length p ≤ max_len l)%nat) l.
Proof.
  induction l as [|p l IH]; constructor; simpl; [lia|].
  eapply Forall_impl; [exact IH|]. simpl. intros. lia.
Qed.

Lemma removal_terminates_aux dir_ok_fn :
  (∀ p, os_path.dirname p = p → dir_ok_fn p = true) →
  ∀ n m rootpaths (objects : index),
    (size (dom objects) ≤ n)%nat →
    Forall (fun p => (String.length p ≤ m)%nat) rootpaths →
    ∃ fuel objects',
      __remove_paths_from_objects fuel rootpaths dir_ok_fn objects
      = (Ok tt, objects').
Proof.
  intros Hfix n. induction n as [n IHn] using lt_wf_ind.
  intros m. induction m as [m IHm] using lt_wf_ind.
  intros rootpaths objects Hsize Hlen.
  destruct (remove_paths_spec dir_ok_fn rootpaths ∅ objects)
    as (queue & objects1 & Hrun & Hdom & _ & Hq).
  destruct (decide (queue = ∅)) as [Hempty|Hnonempty].
  { exists 1, objects1. cbn [__remove_paths_from_objects].
    unfold mbind, St_bind. rewrite Hrun.
    by rewrite bool_decide_eq_false_2 by (by intros ?). }
  assert (Hle : dom objects1 ⊆ dom objects) by (rewrite Hdom; set_solver).
  assert (Hnext : ∃ fuel objects',
             __remove_paths_from_objects fuel (set_iter queue) dir_ok_fn objects1
             = (Ok tt, objects')).
  { destruct (decide (dom objects1 = dom objects)) as [Heq|Hne].
    - (* no key went: the queue holds rejected parents only *)
      assert (Hshort : Forall (fun q => (String.length q ≤ m - 1 ∧ 1 ≤ m)%nat)
                              (set_iter queue)).
      { apply Forall_forall. intros q Hin%set_iter_elem.
        destruct (Hq q Hin) as [Hin0|[(p & Hp & Hsome)|(p & Hp & -> & Hrej)]].
        - set_solver.
        - exfalso. apply elem_of_dom in Hsome.
          assert (p ∉ dom objects1) by (rewrite Hdom; set_solver).
          congruence.
        - rewrite Forall_forall in Hlen. specialize (Hlen p Hp).
          destruct (dirname_shorter p) as [Heqp|Hlt]; [|lia].
          rewrite Hfix in Hrej by (by rewrite Heqp). done. }
      destruct (set_iter queue) as [|q0 l] eqn:Hiter.
      { exfalso. apply Hnonempty. apply set_eq. intros x.
        rewrite <- set_iter_elem, Hiter. set_solver. }
      assert (1 ≤ m)%nat by (by inversion Hshort as [|? ? [_ ?]]).
      apply (IHm (m - 1)); [lia| |].
      + etrans; [|exact Hsize]. by apply subseteq_size.
      + eapply Forall_impl; [exact Hshort|]. by intros ? [? _].
    - apply (IHn (size (dom objects1))) with (m := max_len (set_iter queue)).
      + eapply Nat.lt_le_trans; [|exact Hsize].
        apply subset_size. set_solver.
      + done.
      + apply max_len_bound. }
  destruct Hnext as (fuel & objects' & Hrec).
  exists (S fuel), objects'. cbn [__remove_paths_from_objects].
  unfold mbind, St_bind. rewrite Hrun.
  by rewrite bool_decide_eq_true_2.
Qed.

End RemovalTermination.

(** C5, as amended.  When the filter accepts every path that is its own
    parent (the empty path and the paths made of separators only),
    cascading removal ends for every dictionary and every set of paths:
    enough levels of recursion reach a level that queues nothing. *)
Theorem cascading_removal_terminates `{SetOrder}
        (dir_ok_fn : bytes → bool) (rootpaths : list bytes) (objects : index) :
  (∀ p, os_path.dirname p = p → dir_ok_fn p = true) →
  ∃ fuel objects',
    __remove_paths_from_objects fuel rootpaths dir_ok_fn objects
    = (Ok tt, objects').
Proof.
  intros Hfix.
  exact (removal_terminates_aux dir_ok_fn Hfix _ _ rootpaths objects
           (Nat.le_refl _) (max_len_bound rootpaths)).
Qed.

Section RemovalDivergence.

Context `{SetOrder}.

Lemma remove_path_queues_rejected_parent dir_ok_fn path queue (objects : index) :
  dir_ok_fn (os_path.dirname path) = false →
  ∃ queue' objects',
    remove_path dir_ok_fn path queue objects = (Ok queue', objects')
    ∧ os_path.dirname path ∈ queue'.
Proof.
  intros Hrej. unfold remove_path. rewrite Hrej. simpl.
  match goal with |- context [bool_decide (?x ∉ ?q)] =>
    destruct (decide (x ∉ q)) as [Hin|Hin%dec_stable] end.
  - rewrite bool_decide_eq_true_2 by done.
    eexists _, _. split; [done|]. set_solver.
  - rewrite bool_decide_eq_false_2 by (by intros ?).
    destruct (delete path objects !! os_path.dirname path) as [s|];
      [destruct (truthy s)|]; eexists _, _; (split; [done|]); done.
Qed.

Lemma remove_paths_queues_rejected_parent dir_ok_fn rootpaths queue
      (objects : index) p :
  p ∈ rootpaths →
  dir_ok_fn (os_path.dirname p) = false →
  ∃ queue' objects',
    remove_paths dir_ok_fn rootpaths queue objects = (Ok queue', objects')
    ∧ os_path.dirname p ∈ queue'.
Proof.
  intros Hin Hrej. revert queue objects.
  induction rootpaths as [|path l IH]; intros queue objects;
    [inversion Hin|].
  cbn [remove_paths]. unfold mbind, St_bind.
  destruct (decide (p = path)) as [->|Hne].
  - destruct (remove_path_queues_rejected_parent dir_ok_fn path queue objects Hrej)
      as (queue1 & objects1 & -> & Hq).
    destruct (remove_paths_spec dir_ok_fn l queue1 objects1)
      as (queue2 & objects2 & -> & _ & Hsub & _).
    eexists _, _. split; [done|]. set_solver.
  - destruct (remove_path_spec dir_ok_fn path queue objects)
      as (queue1 & objects1 & -> & _).
    apply IH. apply elem_of_cons in Hin as [?|?]; [congruence|done].
Qed.

(** A filter that rejects [/] keeps the recursion going for ever once
    a path directly below [/], or [/] itself, is to be removed. *)
Lemma removal_diverges dir_ok_fn :
  dir_ok_fn "/" = false →
  ∀ fuel rootpaths (objects : index),
    (∃ p, p ∈ rootpaths ∧ os_path.dirname p = "/") →
    fst (__remove_paths_from_objects fuel rootpaths dir_ok_fn objects)
    = OutOfFuel.
Proof.
  intros Hrej fuel.
  induction fuel as [|fuel IH]; intros rootpaths objects (p & Hp & Hd);
    [done|].
  cbn [__remove_paths_from_objects]. unfold mbind, St_bind.
  destruct (remove_paths_queues_rejected_parent
              dir_ok_fn rootpaths ∅ objects p Hp)
    as (queue & objects1 & -> & Hq); [by rewrite Hd|].
  rewrite Hd in Hq.
  rewrite bool_decide_eq_true_2 by set_solver.
  apply IH. exists "/". split; [by apply set_iter_elem|done].
Qed.

End RemovalDivergence.

(** C5, counterexample.  With a filter that rejects [/], removing
    [/r] from the empty dictionary never reaches a level that queues
    nothing: no amount of recursion returns. *)
Lemma cascading_removal_can_diverge :
  ¬ ∃ fuel objects',
      __remove_paths_from_objects
        fuel ["/r"] (fun p => negb (String.eqb p "/")) ∅
      = (Ok tt, objects').
Proof.
  intros (fuel & objects' & Hrun).
  pose proof (removal_diverges (fun p => negb (String.eqb p "/")) eq_refl
                fuel ["/r"] ∅) as Hdiv.
  rewrite Hrun in Hdiv. simpl in Hdiv.
  discriminate Hdiv. exists "/r". split; [set_solver|reflexivity].
Qed.

(** ** The walker: what one directory contributes *)

Lemma mapM_res_Ok {A B} (f : A → res B) (l : list A) (bs : list B) :
  mapM f l = Ok bs → Forall2 (fun a b => f a = Ok b) l bs.
Proof.
  revert bs. induction l as [|a l IH]; intros bs; simpl.
  - intros [= <-]. constructor.
  - unfold mbind, res_bind, mret, res_ret.
    destruct (f a) as [b| |] eqn:Hfa; [|done..].
    destruct (mapM f l) as [bs'| |]; [|done..].
    intros [= <-]. constructor; [done|]. by apply IH.
Qed.

Lemma mapM_res_ext {A B} (f g : A → res B) (l : list A) :
  (∀ a, a ∈ l → f a = g a) → mapM f l = mapM g l.
Proof.
  induction l as [|a l IH]; intros Hfg; simpl; [done|].
  rewrite Hfg by set_solver. rewrite IH; [done|].
  intros. apply Hfg. set_solver.
Qed.

(** Every value is a list: no iterator is stored. *)
Definition all_lists (m : index) : Prop :=
  ∀ k s, m !! k = Some s → ∃ l, s = Lst l.

Lemma all_lists_empty : all_lists ∅.
Proof. intros k s Hk. by rewrite lookup_empty in Hk. Qed.

Lemma all_lists_insert m k l : all_lists m → all_lists (<[k := Lst l]> m).
Proof.
  intros Hm k' s. rewrite lookup_insert. case_decide.
  - intros [= <-]. eauto.
  - apply Hm.
Qed.

Section WalkerFacts.

Context `{DigestDelegate}.

(** The entry [compute_tree_metadata] builds for a directory whose
    stored list is [l]. *)
Definition tree_entry (dirname : bytes) (l : list entry) : entry :=
  {| e_sha1_git := directory_sha1 l;
     e_others := [];
     e_data := None;
     e_length := None;
     e_name := os_path.basename dirname;
     e_perms := GitPerm.TREE;
     e_type := GitType.TREE;
     e_path := dirname |}.

Lemma compute_directory_git_sha1_lists dirpath (m : index) :
  all_lists m →
  compute_directory_git_sha1 dirpath m
  = match m !! dirpath with
    | Some s => (Ok (directory_sha1 (items s)), m)
    | None => (Raise KeyError, m)
    end.
Proof.
  intros Hm. unfold compute_directory_git_sha1.
  destruct (m !! dirpath) as [s|] eqn:Hs; [|done].
  by destruct (Hm _ _ Hs) as [l ->].
Qed.

Lemma compute_tree_metadata_lists dirname (m : index) :
  all_lists m →
  compute_tree_metadata dirname m
  = match m !! dirname with
    | Some s => (Ok (tree_entry dirname (items s)), m)
    | None => (Raise KeyError, m)
    end.
Proof.
  intros Hm. unfold compute_tree_metadata, mbind, St_bind.
  rewrite compute_directory_git_sha1_lists by done.
  by destruct (m !! dirname).
Qed.

Lemma tree_hashes_lists subdirs (m : index) r m' :
  all_lists m →
  tree_hashes subdirs m = (r, m') →
  m' = m
  ∧ ∀ es, r = Ok es →
          Forall2 (fun d e => ∃ s, m !! d = Some s
                                   ∧ e = tree_entry d (items s)) subdirs es.
Proof.
  intros Hm. revert r m'.
  induction subdirs as [|d l IH]; intros r m'; simpl.
  - intros [= <- <-]. split; [done|]. intros es [= <-]. constructor.
  - unfold mbind, St_bind. rewrite compute_tree_metadata_lists by done.
    destruct (m !! d) as [s|] eqn:Hd.
    + destruct (tree_hashes l m) as [r1 m1] eqn:Hrec.
      destruct (IH r1 m1 eq_refl) as [-> Hes].
      destruct r1 as [es1| |]; intros [= <- <-]; (split; [done|]);
        intros es [= <-].
      constructor; eauto.
    + intros [= <- <-]. split; [done|]. intros es [=].
Qed.

(** The paths of the links, of the files and of the subdirectories
    that one turn of the main loop sees. *)
Definition link_paths (fs : node) (dirpath : bytes)
           (dirnames filenames : list bytes) : list bytes :=
  List.filter (os.islink fs)
              (map (os_path.join dirpath) (filenames ++ dirnames)%list).

Definition not_in (all_links : gset string) (p : bytes) : bool :=
  bool_decide (p ∉ all_links).

Lemma hash_directory_spec fs all_links dirpath dirnames filenames
      (m : index) all_links' m' :
  all_lists m →
  hash_directory fs all_links (dirpath, dirnames, filenames) m
  = (Ok all_links', m') →
  ∃ links blobs trees,
    all_links' = all_links
                 ∪ list_to_set (link_paths fs dirpath dirnames filenames)
    ∧ Forall2 (fun p e => compute_link_metadata fs p = Ok e)
              (link_paths fs dirpath dirnames filenames) links
    ∧ Forall2 (fun p e => compute_blob_metadata fs p = Ok e)
              (List.filter (not_in all_links')
                           (map (os_path.join dirpath) filenames)) blobs
    ∧ Forall2 (fun d e =>
                 ∃ s, <[dirpath := Lst (links ++ blobs)%list]> m !! d = Some s
                      ∧ e = tree_entry d (items s))
              (List.filter (not_in all_links')
                           (map (os_path.join dirpath) dirnames)) trees
    ∧ m' = <[dirpath := Lst (links ++ blobs ++ trees)%list]> m.
Proof.
  intros Hm. unfold hash_directory. fold (link_paths fs dirpath dirnames filenames).
  destruct (mapM (compute_link_metadata fs) _) as [links| |] eqn:Hlinks;
    [|done..].
  set (al := all_links ∪ list_to_set (link_paths fs dirpath dirnames filenames)).
  fold (not_in al).
  destruct (mapM (compute_blob_metadata fs) _) as [blobs| |] eqn:Hblobs;
    [|done..].
  unfold mbind, St_bind.
  destruct (tree_hashes _ _) as [r m1] eqn:Htrees.
  destruct (tree_hashes_lists _ _ _ _ (all_lists_insert _ dirpath _ Hm) Htrees)
    as [-> Hes].
  destruct r as [trees| |]; [|done..].
  unfold set_item, mret, St_ret. intros [= <- <-].
  exists links, blobs, trees. split; [done|].
  split; [by apply mapM_res_Ok|]. split; [by apply mapM_res_Ok|].
  split; [by apply Hes|].
  rewrite insert_insert_eq. by rewrite <- app_assoc.
Qed.

End WalkerFacts.

Section WalkerInvariants.

Context `{DigestDelegate}.

Lemma compute_link_metadata_entry fs p e :
  compute_link_metadata fs p = Ok e →
  e_path e = p ∧ e_perms e = GitPerm.LINK ∧ e_type e = GitType.BLOB.
Proof.
  unfold compute_link_metadata, mbind, res_bind.
  destruct (os.readlink fs p); [|done..]. by intros [= <-].
Qed.

Lemma compute_blob_metadata_entry fs p e :
  compute_blob_metadata fs p = Ok e →
  e_path e = p ∧ e_type e = GitType.BLOB
  ∧ (e_perms e = GitPerm.BLOB ∨ e_perms e = GitPerm.EXEC).
Proof.
  unfold compute_blob_metadata, mbind, res_bind.
  destruct (os.read fs p); [|done..]. intros [= <-]. simpl.
  destruct (os.access_x fs p); auto.
Qed.

(** A property of the dictionary that every turn of the main loop
    keeps holds when the loop ends. *)
Lemma hash_directories_invariant fs (Inv : index → Prop) dirs :
  (∀ all_links dp dns fns (m : index) all_links' m',
      (dp, dns, fns) ∈ dirs → all_lists m → Inv m →
      hash_directory fs all_links (dp, dns, fns) m = (Ok all_links', m') →
      Inv m') →
  ∀ all_links (m m' : index),
    all_lists m → Inv m →
    hash_directories fs all_links dirs m = (Ok tt, m') →
    all_lists m' ∧ Inv m'.
Proof.
  induction dirs as [|[[dp dns] fns] dirs IH]; intros Hstep al m m' Hm HI.
  - by intros [= <-].
  - cbn [hash_directories]. unfold mbind, St_bind.
    destruct (hash_directory fs al (dp, dns, fns) m) as [[al1| |] m1] eqn:Hd;
      [|done..].
    intros Hrest.
    assert (Hm1 : all_lists m1).
    { destruct (hash_directory_spec _ _ _ _ _ _ _ _ Hm Hd)
        as (? & ? & ? & _ & _ & _ & _ & ->).
      by apply all_lists_insert. }
    apply (IH (fun al dp' dns' fns' m0 al' m0' Hin =>
                 Hstep al dp' dns' fns' m0 al' m0'
                       (list_elem_of_further _ _ _ Hin)) al1 m1 m');
      [done| |done].
    eapply Hstep; [|exact Hm|exact HI|exact Hd]. left.
Qed.

Lemma hash_directories_dom fs dirs all_links (m m' : index) :
  all_lists m →
  hash_directories fs all_links dirs m = (Ok tt, m') →
  dom m' = dom m ∪ list_to_set (map (fun d => fst (fst d)) dirs).
Proof.
  revert all_links m.
  induction dirs as [|[[dp dns] fns] dirs IH]; intros al m Hm.
  - intros [= <-]. set_solver.
  - cbn [hash_directories]. unfold mbind, St_bind.
    destruct (hash_directory fs al (dp, dns, fns) m) as [[al1| |] m1] eqn:Hd;
      [|done..].
    destruct (hash_directory_spec _ _ _ _ _ _ _ _ Hm Hd)
      as (? & ? & ? & _ & _ & _ & _ & ->).
    intros Hrest. apply IH in Hrest; [|by apply all_lists_insert].
    rewrite Hrest, dom_insert_L. set_solver.
Qed.

(** The root without trailing separators, as the walker uses it. *)
Definition stripped (rootdir : bytes) : bytes :=
  if endswith_sep rootdir then rstrip_sep rootdir else rootdir.

(** The filesystem the hashing pass reads: the one given, or what the
    removal of the empty folders leaves. *)
Definition hashed_fs (fs : node) (rootdir : bytes) (dir_ok_fn : bytes → bool)
           (remove_empty_folder : bool) : res unit * node :=
  if remove_empty_folder
  then remove_empty_folders fs (gen_dir fs (stripped rootdir) dir_ok_fn)
  else (Ok tt, fs).

Lemma walk_returns fs rootdir dir_ok_fn with_root_tree prune idx fs' :
  walk_and_compute_sha1_from_directory fs rootdir dir_ok_fn with_root_tree prune
  = (Ok idx, fs') →
  hashed_fs fs rootdir dir_ok_fn prune = (Ok tt, fs')
  ∧ ∃ m : index,
      hash_directories fs' ∅ (gen_dir fs' (stripped rootdir) dir_ok_fn) ∅
      = (Ok tt, m)
      ∧ if with_root_tree
        then ∃ s, m !! stripped rootdir = Some s
                  ∧ idx = <[ROOT_TREE_KEY :=
                              Lst [{| e_sha1_git := directory_sha1 (items s);
                                      e_path := stripped rootdir;
                                      e_name := os_path.basename (stripped rootdir);
                                      e_perms := GitPerm.TREE;
                                      e_type := GitType.TREE;
                                      e_others := []; e_data := None;
                                      e_length := None |}]]> m
        else idx = m.
Proof.
  unfold walk_and_compute_sha1_from_directory, hashed_fs.
  fold (stripped rootdir).
  destruct (if prune then _ else _) as [[[]| |] fs1] eqn:Hprune; [|done..].
  unfold mbind, St_bind.
  destruct (hash_directories fs1 ∅ _ ∅) as [[[]| |] m] eqn:Hhash;
    [|by destruct with_root_tree..].
  assert (Hm : all_lists m).
  { eapply (hash_directories_invariant fs1 (fun _ => True)); eauto.
    apply all_lists_empty. }
  destruct with_root_tree.
  - unfold root_tree, mbind, St_bind.
    rewrite compute_directory_git_sha1_lists by done.
    destruct (m !! stripped rootdir) as [s|] eqn:Hs; [|done].
    unfold set_item. simpl. intros [= <- <-]. split; [done|].
    exists m. split; [done|]. by exists s.
  - simpl. intros [= <- <-]. split; [done|]. by exists m.
Qed.

End WalkerInvariants.

Lemma Forall2_elem_of_r {A B} (R : A → B → Prop) l k y :
  Forall2 R l k → y ∈ k → ∃ x, x ∈ l ∧ R x y.
Proof.
  induction 1 as [|x y' l k HR _ IH]; intros Hy; [inversion Hy|].
  apply elem_of_cons in Hy as [->|Hy].
  - exists x. split; [left|done].
  - destruct (IH Hy) as (x' & ? & ?). exists x'. split; [by right|done].
Qed.

Lemma elem_of_List_filter {A} (f : A → bool) l x :
  x ∈ List.filter f l ↔ x ∈ l ∧ f x = true.
Proof. rewrite !list_elem_of_In. apply filter_In. Qed.

Section FilterFacts.

Context `{DigestDelegate}.

Lemma gen_dir_elem fs rootdir dir_ok_fn dp dns fns :
  (dp, dns, fns) ∈ gen_dir fs rootdir dir_ok_fn
  ↔ ∃ dns0, (dp, dns0, fns) ∈ os.walk fs rootdir
            ∧ dir_ok_fn dp = true ∧ dns = filtfn dir_ok_fn dp dns0.
Proof.
  unfold gen_dir. rewrite list_elem_of_fmap. split.
  - intros ([[dp0 dns0] fns0] & [= -> -> ->] & [Hin Hok]%elem_of_List_filter).
    by exists dns0.
  - intros (dns0 & Hin & Hok & ->). exists (dp, dns0, fns).
    split; [done|]. by apply elem_of_List_filter.
Qed.

Lemma gen_dir_paths fs rootdir dir_ok_fn p :
  p ∈ map (fun d => fst (fst d)) (gen_dir fs rootdir dir_ok_fn)
  ↔ dir_ok_fn p = true ∧ ∃ dns fns, (p, dns, fns) ∈ os.walk fs rootdir.
Proof.
  rewrite list_elem_of_fmap. split.
  - intros ([[dp dns] fns] & -> & (dns0 & Hin & Hok & _)%gen_dir_elem).
    simpl. eauto.
  - intros (Hok & dns & fns & Hin).
    exists (p, filtfn dir_ok_fn p dns, fns). split; [done|].
    apply gen_dir_elem. eauto.
Qed.

Lemma filtfn_elem dir_ok_fn dirpath dirnames d :
  d ∈ filtfn dir_ok_fn dirpath dirnames →
  dir_ok_fn (os_path.join dirpath d) = true.
Proof. unfold filtfn. by intros [_ ?]%elem_of_List_filter. Qed.

(** Every tree entry the main loop stores is for a path the filter
    accepts. *)
Lemma hash_directories_trees_accepted fs rootdir dir_ok_fn all_links
      (m m' : index) :
  all_lists m →
  (∀ k s e, m !! k = Some s → e ∈ items s → e_type e = GitType.TREE →
            dir_ok_fn (e_path e) = true) →
  hash_directories fs all_links (gen_dir fs rootdir dir_ok_fn) m = (Ok tt, m') →
  ∀ k s e, m' !! k = Some s → e ∈ items s → e_type e = GitType.TREE →
           dir_ok_fn (e_path e) = true.
Proof.
  intros Hm HI Hrun.
  eapply (hash_directories_invariant fs
            (fun m => ∀ k s e, m !! k = Some s → e ∈ items s →
                               e_type e = GitType.TREE →
                               dir_ok_fn (e_path e) = true));
    [|exact Hm|exact HI|exact Hrun].
  clear. intros al dp dns fns m al' m' Hin Hm HI Hd.
  destruct (hash_directory_spec _ _ _ _ _ _ _ _ Hm Hd)
    as (links & blobs & trees & _ & Hlinks & Hblobs & Htrees & ->).
  intros k s e. rewrite lookup_insert. case_decide; [|by apply HI].
  intros [= <-]. simpl.
  rewrite !elem_of_app. intros [He|[He|He]] Htype.
  - destruct (Forall2_elem_of_r _ _ _ _ Hlinks He) as (p & _ & Hp).
    apply compute_link_metadata_entry in Hp as (_ & _ & ?). congruence.
  - destruct (Forall2_elem_of_r _ _ _ _ Hblobs He) as (p & _ & Hp).
    apply compute_blob_metadata_entry in Hp as (_ & ? & _). congruence.
  - destruct (Forall2_elem_of_r _ _ _ _ Htrees He) as (d & Hd' & s & _ & ->).
    simpl. apply elem_of_List_filter in Hd' as [Hd' _].
    apply list_elem_of_fmap in Hd' as (dn & -> & Hdn).
    apply gen_dir_elem in Hin as (dns0 & _ & _ & ->).
    by eapply filtfn_elem.
Qed.

End FilterFacts.

(** C3, as amended.  In the dictionary the walker returns, a directory
    the filter rejects is not a key and no tree entry is for it; a
    directory below it is left out only when the filter rejects its own
    path: the keys other than the sentinel are exactly the directories
    [os.walk] reaches whose own path the filter accepts. *)
Theorem walker_filters_each_directory_by_its_own_path `{DigestDelegate}
        fs rootdir (dir_ok_fn : bytes → bool) with_root_tree prune
        (idx : index) fs' :
  walk_and_compute_sha1_from_directory fs rootdir dir_ok_fn with_root_tree prune
  = (Ok idx, fs') →
  (∀ p, p ≠ ROOT_TREE_KEY →
        (is_Some (idx !! p)
         ↔ dir_ok_fn p = true
           ∧ ∃ dirnames filenames,
               (p, dirnames, filenames) ∈ os.walk fs' (stripped rootdir)))
  ∧ (∀ k s e, idx !! k = Some s → e ∈ items s → e_type e = GitType.TREE →
              dir_ok_fn (e_path e) = true).
Proof.
  intros Hwalk.
  destruct (walk_returns _ _ _ _ _ _ _ Hwalk) as (_ & m & Hhash & Hidx).
  pose proof (hash_directories_dom _ _ _ _ _ all_lists_empty Hhash) as Hdom.
  assert (Hkeys : ∀ p, is_Some (m !! p)
                       ↔ dir_ok_fn p = true
                         ∧ ∃ dns fns, (p, dns, fns) ∈ os.walk fs' (stripped rootdir)).
  { intros p. rewrite <- elem_of_dom, Hdom, dom_empty_L, <- gen_dir_paths.
    set_solver. }
  assert (Htrees : ∀ k s e, m !! k = Some s → e ∈ items s →
                            e_type e = GitType.TREE → dir_ok_fn (e_path e) = true).
  { eapply hash_directories_trees_accepted; [apply all_lists_empty| |exact Hhash].
    intros k s e Hk. by rewrite lookup_empty in Hk. }
  destruct with_root_tree.
  - destruct Hidx as (s & Hs & ->). split.
    + intros p Hp. rewrite lookup_insert_ne by done. apply Hkeys.
    + intros k s' e. rewrite lookup_insert. case_decide; [|by apply Htrees].
      intros [= <-]. simpl. intros ->%list_elem_of_singleton _. simpl.
      by apply Hkeys.
  - subst idx. split; [intros; apply Hkeys|exact Htrees].
Qed.

Section OnTheSample.

Import Sample.

(** C3, counterexample.  In [/r/a/b/file.txt] with a filter that rejects
  [/r/a] only, the directory [/r/a/b] below the rejected one is a key
  of the index the walker returns. *)
Lemma descendant_of_rejected_directory_is_indexed :
  ∃ idx : index,
    walk_and_compute_sha1_from_directory
      Sample.fs0 "/r" Sample.all_but_a true false = (Ok idx, Sample.fs0)
    ∧ Sample.all_but_a "/r/a" = false
    ∧ os_path.dirname "/r/a/b" = "/r/a"
    ∧ idx !! "/r/a" = None
    ∧ is_Some (idx !! "/r/a/b").
Proof.
  exists Sample.index_but_a. split; [by vm_compute|].
  split; [done|]. split; [done|]. split; [by vm_compute|].
  by eexists; vm_compute.
Qed.

(** C2, the code at a failing input.  Removing [/r/a/b] from the index
  of [/r/a/b/file.txt], with a filter that accepts everything, pops the
  key [/r/a/b]; its parent [/r/a] is still a key, and what is stored
  there still yields the tree entry for [/r/a/b]. *)
Lemma removal_keeps_the_reference_in_the_parent :
  ∃ objects' e,
    __remove_paths_from_objects 1 ["/r/a/b"] Sample.all_ok Sample.index0
    = (Ok tt, objects')
    ∧ is_Some (Sample.index0 !! "/r/a")
    ∧ objects' !! "/r/a/b" = None
    ∧ objects' !! "/r/a" = Some (Flt [e])
    ∧ e_path e = "/r/a/b" ∧ e_type e = GitType.TREE.
Proof.
  eexists _, _. split; [by vm_compute|].
  split; [by eexists; vm_compute|]. by vm_compute.
Qed.

End OnTheSample.

Lemma Forall2_paths {A} (R : bytes → A → Prop) (proj : A → bytes) l k :
  (∀ p a, R p a → proj a = p) → Forall2 R l k → map proj k = l.
Proof.
  intros HR. induction 1 as [|p a l k Hpa _ IH]; simpl; [done|].
  by rewrite (HR _ _ Hpa), IH.
Qed.

Section EntryOrder.

Context `{DigestDelegate}.

Definition is_link_entry (e : entry) : Prop :=
  e_perms e = GitPerm.LINK ∧ e_type e = GitType.BLOB.

Definition is_file_entry (e : entry) : Prop :=
  (e_perms e = GitPerm.BLOB ∨ e_perms e = GitPerm.EXEC)
  ∧ e_type e = GitType.BLOB.

Definition is_tree_entry (e : entry) : Prop :=
  e_perms e = GitPerm.TREE ∧ e_type e = GitType.TREE.

(** What the walker stores for a directory: the links among the files
    and the accepted subdirectories, then the other files, then the
    other accepted subdirectories, each group in the order of the
    listing.  [seen] stands for the links met in the directories
    walked before. *)
Definition walker_order (fs : node) (dirs : list (bytes * list bytes * list bytes))
           (k : bytes) (s : stored) : Prop :=
  ∃ dirnames filenames links blobs trees (seen : gset string),
    let all_links :=
      seen ∪ list_to_set (link_paths fs k dirnames filenames) in
    (k, dirnames, filenames) ∈ dirs
    ∧ s = Lst (links ++ blobs ++ trees)%list
    ∧ map e_path links = link_paths fs k dirnames filenames
    ∧ Forall is_link_entry links
    ∧ map e_path blobs
      = List.filter (not_in all_links) (map (os_path.join k) filenames)
    ∧ Forall is_file_entry blobs
    ∧ map e_path trees
      = List.filter (not_in all_links) (map (os_path.join k) dirnames)
    ∧ Forall is_tree_entry trees.

Lemma hash_directories_order fs dirs all_links (m' : index) :
  hash_directories fs all_links dirs ∅ = (Ok tt, m') →
  ∀ k s, m' !! k = Some s → walker_order fs dirs k s.
Proof.
  intros Hrun.
  eapply (hash_directories_invariant fs
            (fun m => ∀ k s, m !! k = Some s → walker_order fs dirs k s));
    [|apply all_lists_empty| |exact Hrun].
  - clear. intros al dp dns fns m al' m' Hin Hm HI Hd.
    destruct (hash_directory_spec _ _ _ _ _ _ _ _ Hm Hd)
      as (links & blobs & trees & -> & Hlinks & Hblobs & Htrees & ->).
    intros k s. rewrite lookup_insert. case_decide; [|by apply HI].
    subst k. intros [= <-].
    exists dns, fns, links, blobs, trees, al. split; [done|]. split; [done|].
    split.
    { eapply Forall2_paths; [|exact Hlinks].
      by intros p e (? & _)%compute_link_metadata_entry. }
    split.
    { apply Forall_forall. intros e He.
      destruct (Forall2_elem_of_r _ _ _ _ Hlinks He) as (p & _ & Hp).
      apply compute_link_metadata_entry in Hp as (_ & ? & ?). by split. }
    split.
    { eapply Forall2_paths; [|exact Hblobs].
      by intros p e (? & _)%compute_blob_metadata_entry. }
    split.
    { apply Forall_forall. intros e He.
      destruct (Forall2_elem_of_r _ _ _ _ Hblobs He) as (p & _ & Hp).
      apply compute_blob_metadata_entry in Hp as (_ & ? & ?). by split. }
    split.
    { eapply Forall2_paths; [|exact Htrees].
      by intros d e (s & _ & ->). }
    apply Forall_forall. intros e He.
    by destruct (Forall2_elem_of_r _ _ _ _ Htrees He) as (d & _ & s & _ & ->).
  - intros k s Hk. by rewrite lookup_empty in Hk.
Qed.

End EntryOrder.

(** C9.  In the dictionary the walker returns, what is stored at a key
    other than the sentinel is a list made of the link entries, in the
    order of the listing (files, then accepted subdirectories), then the
    entries of the files that are not among the links, then the tree
    entries of the accepted subdirectories that are not among the
    links. *)
Theorem walker_stores_links_files_trees `{DigestDelegate}
        fs rootdir (dir_ok_fn : bytes → bool) with_root_tree prune
        (idx : index) fs' k s :
  walk_and_compute_sha1_from_directory fs rootdir dir_ok_fn with_root_tree prune
  = (Ok idx, fs') →
  k ≠ ROOT_TREE_KEY →
  idx !! k = Some s →
  walker_order fs' (gen_dir fs' (stripped rootdir) dir_ok_fn) k s.
Proof.
  intros Hwalk Hk Hs.
  destruct (walk_returns _ _ _ _ _ _ _ Hwalk) as (_ & m & Hhash & Hidx).
  apply (hash_directories_order _ _ _ _ Hhash).
  destruct with_root_tree.
  - destruct Hidx as (s0 & _ & ->). by rewrite lookup_insert_ne in Hs.
  - by subst.
Qed.

(** ** Reasoning about code that works on the dictionary in place *)

(** From a dictionary that satisfies [J], the code [c] ends with a
    dictionary that satisfies [J], and what it returns satisfies [Post]. *)
Definition keeps {A} (J : index → Prop) (c : St A) (Post : A → Prop) : Prop :=
  ∀ (m : index) r m', J m → c m = (r, m') → J m' ∧ ∀ a, r = Ok a → Post a.

Lemma keeps_bind {A B} J (c : St A) (k : A → St B) P Q :
  keeps J c P → (∀ a, P a → keeps J (k a) Q) → keeps J (c ≫= k) Q.
Proof.
  intros Hc Hk m r m' HJ. unfold mbind, St_bind.
  destruct (c m) as [r1 m1] eqn:Hrun.
  destruct (Hc _ _ _ HJ Hrun) as [HJ1 HP].
  destruct r1 as [a| |].
  - intros Hrun2. by eapply Hk; [apply HP| |exact Hrun2].
  - intros [= <- <-]. split; [done|]. intros ? [=].
  - intros [= <- <-]. split; [done|]. intros ? [=].
Qed.

Lemma keeps_ret {A} J (a : A) (P : A → Prop) : P a → keeps J (mret a) P.
Proof.
  intros HP m r m' HJ [= <- <-]. split; [done|]. by intros ? [= <-].
Qed.

Lemma keeps_weaken {A} J (c : St A) (P Q : A → Prop) :
  keeps J c P → (∀ a, P a → Q a) → keeps J c Q.
Proof.
  intros Hc HPQ m r m' HJ Hrun. destruct (Hc _ _ _ HJ Hrun) as [? HP].
  split; [done|]. intros a Ha. by apply HPQ, HP.
Qed.

(** ** Closure of the index *)

(** Every tree entry is for a path that is a key. *)
Definition closed (idx : index) : Prop :=
  ∀ k s e, idx !! k = Some s → e ∈ items s → e_type e = GitType.TREE →
           is_Some (idx !! e_path e).

Section ClosureOfTheWalk.

Context `{DigestDelegate}.

Lemma hash_directories_closed fs dirs all_links (m' : index) :
  hash_directories fs all_links dirs ∅ = (Ok tt, m') → closed m'.
Proof.
  intros Hrun.
  eapply (hash_directories_invariant fs closed);
    [|apply all_lists_empty| |exact Hrun].
  - clear. intros al dp dns fns m al' m' Hin Hm HI Hd.
    destruct (hash_directory_spec _ _ _ _ _ _ _ _ Hm Hd)
      as (links & blobs & trees & _ & Hlinks & Hblobs & Htrees & ->).
    intros k s e. rewrite lookup_insert. case_decide.
    + subst k. intros [= <-]. simpl.
      rewrite !elem_of_app. intros [He|[He|He]] Htype.
      * destruct (Forall2_elem_of_r _ _ _ _ Hlinks He) as (p & _ & Hp).
        apply compute_link_metadata_entry in Hp as (_ & _ & ?). congruence.
      * destruct (Forall2_elem_of_r _ _ _ _ Hblobs He) as (p & _ & Hp).
        apply compute_blob_metadata_entry in Hp as (_ & ? & _). congruence.
      * destruct (Forall2_elem_of_r _ _ _ _ Htrees He)
          as (d & _ & s & Hs & ->). simpl.
        rewrite lookup_insert in Hs. rewrite lookup_insert.
        case_decide; eauto.
    + intros Hk He Htype. destruct (HI _ _ _ Hk He Htype) as [s' Hs'].
      rewrite lookup_insert. case_decide; eauto.
  - intros k s e Hk. by rewrite lookup_empty in Hk.
Qed.

Lemma walk_closed fs rootdir dir_ok_fn with_root_tree prune (idx : index) fs' :
  walk_and_compute_sha1_from_directory fs rootdir dir_ok_fn with_root_tree prune
  = (Ok idx, fs') →
  closed idx.
Proof.
  intros Hwalk.
  destruct (walk_returns _ _ _ _ _ _ _ Hwalk) as (_ & m & Hhash & Hidx).
  pose proof (hash_directories_closed _ _ _ _ Hhash) as Hclosed.
  destruct with_root_tree; [|by subst].
  destruct Hidx as (s0 & Hs0 & ->).
  intros k s e. rewrite lookup_insert. case_decide.
  - intros [= <-]. simpl. intros ->%list_elem_of_singleton _. simpl.
    rewrite lookup_insert. case_decide; eauto.
  - intros Hk He Htype. destruct (Hclosed _ _ _ Hk He Htype) as [s' Hs'].
    rewrite lookup_insert. case_decide; eauto.
Qed.

Lemma walk_all_lists fs rootdir dir_ok_fn with_root_tree prune (idx : index) fs' :
  walk_and_compute_sha1_from_directory fs rootdir dir_ok_fn with_root_tree prune
  = (Ok idx, fs') →
  all_lists idx.
Proof.
  intros Hwalk.
  destruct (walk_returns _ _ _ _ _ _ _ Hwalk) as (_ & m & Hhash & Hidx).
  assert (Hm : all_lists m).
  { eapply (hash_directories_invariant fs' (fun _ => True)); eauto.
    apply all_lists_empty. }
  destruct with_root_tree; [|by subst].
  destruct Hidx as (s0 & _ & ->). by apply all_lists_insert.
Qed.

End ClosureOfTheWalk.

Section ClosureOfTheRecomputation.

Context `{DigestDelegate}.
Variable keys : gset string.
Variable gone : bytes → Prop.

Definition good (e : entry) : Prop :=
  e_type e = GitType.TREE → e_path e ∈ keys ∨ gone (e_path e).

(** The keys are [keys] and every entry is good. *)
Definition settled (m : index) : Prop :=
  dom m = keys ∧ ∀ k s e, m !! k = Some s → e ∈ items s → good e.

Lemma settled_insert (m : index) k s :
  settled m → k ∈ keys → (∀ e, e ∈ items s → good e) →
  settled (<[k := s]> m).
Proof.
  intros [Hdom Hgood] Hk Hs. split.
  - rewrite dom_insert_L. set_solver.
  - intros k' s' e. rewrite lookup_insert. case_decide.
    + intros [= <-]. apply Hs.
    + apply Hgood.
Qed.

Lemma settled_lookup (m : index) k s :
  settled m → m !! k = Some s → k ∈ keys ∧ ∀ e, e ∈ items s → good e.
Proof.
  intros [Hdom Hgood] Hk. split; [|intros e; by apply (Hgood k s e)].
  rewrite <- Hdom. by eapply elem_of_dom_2.
Qed.

Lemma keeps_compute_directory_git_sha1 dirpath :
  keeps settled (compute_directory_git_sha1 dirpath) (fun _ => dirpath ∈ keys).
Proof.
  intros m r m' HJ. unfold compute_directory_git_sha1.
  destruct (m !! dirpath) as [[l|pending]|] eqn:Hd.
  - intros [= <- <-]. split; [done|]. intros _ _.
    by eapply settled_lookup.
  - intros [= <- <-]. destruct (settled_lookup _ _ _ HJ Hd) as [Hk _].
    split; [|done]. apply settled_insert; [done..|].
    intros e He. inversion He.
  - intros [= <- <-]. split; [done|]. intros ? [=].
Qed.

Lemma keeps_compute_tree_metadata dirname :
  keeps settled (compute_tree_metadata dirname) good.
Proof.
  unfold compute_tree_metadata.
  eapply keeps_bind; [apply keeps_compute_directory_git_sha1|].
  intros sha1 Hk. apply keeps_ret. intros _. by left.
Qed.

Lemma keeps_recompute_entry hashfile :
  keeps settled (recompute_entry hashfile) good.
Proof.
  unfold recompute_entry. case_decide.
  - apply keeps_compute_tree_metadata.
  - apply keeps_ret. by intros ?.
Qed.

Lemma keeps_set_item k l :
  k ∈ keys → (∀ e, e ∈ l → good e) →
  keeps settled (set_item k (Lst l)) (fun _ => True).
Proof.
  intros Hk Hl m r m' HJ [= <- <-]. split; [|done].
  by apply settled_insert.
Qed.

Lemma keeps_recompute_files rootdir files ls_hashes :
  rootdir ∈ keys → (∀ e, e ∈ ls_hashes → good e) →
  keeps settled (recompute_files rootdir files ls_hashes) (fun _ => True).
Proof.
  intros Hk. revert ls_hashes.
  induction files as [|hashfile files IH]; intros ls Hls; simpl.
  - by apply keeps_ret.
  - eapply keeps_bind; [apply keeps_recompute_entry|].
    intros e He.
    assert (Hls' : ∀ e', e' ∈ (ls ++ [e])%list → good e').
    { intros e' [?| ->%list_elem_of_singleton]%elem_of_app; auto. }
    eapply keeps_bind; [by apply keeps_set_item|].
    intros _ _. by apply IH.
Qed.

Lemma keeps_recompute_pending rootdir e :
  rootdir ∈ keys → good e →
  keeps settled (recompute_pending rootdir e) (fun _ => True).
Proof.
  intros Hk He m r m' HJ. unfold recompute_pending.
  assert (Hone : ∀ e', e' ∈ [e] → good e').
  { by intros e' ->%list_elem_of_singleton. }
  intros Hrun.
  eapply (keeps_bind settled (set_item rootdir (Lst [e])) _
                     (fun _ => True) (fun _ => True));
    [by apply keeps_set_item| |exact HJ|exact Hrun].
  intros ? _. by apply keeps_recompute_files.
Qed.

Lemma keeps_recompute_level rootdir :
  keeps settled (recompute_level rootdir) (fun _ => True).
Proof.
  intros m r m' HJ. unfold recompute_level.
  destruct (m !! rootdir) as [[files|[|hashfile pending]]|] eqn:Hd.
  - destruct (settled_lookup _ _ _ HJ Hd) as [Hk _].
    intros Hrun.
    eapply keeps_recompute_files; [exact Hk| |exact HJ|exact Hrun].
    intros e He. inversion He.
  - by intros [= <- <-].
  - destruct (settled_lookup _ _ _ HJ Hd) as [Hk Hgood].
    intros Hrun.
    eapply (keeps_bind settled _ _ good (fun _ => True));
      [apply keeps_recompute_entry| | |exact Hrun].
    + intros e He. by apply keeps_recompute_pending.
    + apply settled_insert; [done..|].
      intros e He. apply Hgood. simpl. by right.
  - intros [= <- <-]. split; [done|]. intros ? [=].
Qed.

Lemma keeps_recompute_levels fuel upper_root rootdir :
  keeps settled (recompute_levels fuel upper_root rootdir) (fun _ => True).
Proof.
  revert rootdir. induction fuel as [|fuel IH]; intros rootdir; simpl.
  - destruct (String.eqb rootdir upper_root); [by apply keeps_ret|].
    intros m r m' HJ [= <- <-]. split; [done|]. intros ? [=].
  - destruct (String.eqb rootdir upper_root); [by apply keeps_ret|].
    eapply keeps_bind; [apply keeps_recompute_level|].
    intros _ _. apply IH.
Qed.

Lemma keeps_set_root_sha1 root_tree_hash :
  keeps settled (set_root_sha1 root_tree_hash) (fun _ => True).
Proof.
  intros m r m' HJ. unfold set_root_sha1.
  destruct (m !! ROOT_TREE_KEY) as [[[|e l]|pending]|] eqn:Hd;
    try (intros [= <- <-]; split; [done|]; by intros ? [=]).
  intros [= <- <-]. split; [|done].
  destruct (settled_lookup _ _ _ HJ Hd) as [Hk Hgood].
  apply settled_insert; [done..|].
  intros e' [->|He']%elem_of_cons.
  - intros Htype. apply (Hgood e); [by left|done].
  - apply Hgood. by right.
Qed.

Lemma keeps_recompute_sha1_in_memory fuel root deeper_rootdir :
  keeps settled (recompute_sha1_in_memory fuel root deeper_rootdir)
        (fun _ => True).
Proof.
  unfold recompute_sha1_in_memory.
  eapply keeps_bind; [apply keeps_recompute_levels|]. intros _ _.
  eapply keeps_bind; [apply keeps_compute_directory_git_sha1|]. intros ? _.
  apply keeps_set_root_sha1.
Qed.

End ClosureOfTheRecomputation.

(** ** Cascading removal: what is left *)

(** [m'] has no key that [m] has not, and what it stores at a key yields
    the entries that [m] stores there. *)
Definition shrinks (m m' : index) : Prop :=
  ∀ k s', m' !! k = Some s' → ∃ s, m !! k = Some s ∧ items s' = items s.

Lemma shrinks_refl m : shrinks m m.
Proof. intros k s Hk. eauto. Qed.

Lemma shrinks_trans m1 m2 m3 : shrinks m1 m2 → shrinks m2 m3 → shrinks m1 m3.
Proof.
  intros H12 H23 k s3 Hk. destruct (H23 _ _ Hk) as (s2 & Hk2 & ->).
  destruct (H12 _ _ Hk2) as (s1 & Hk1 & ->). eauto.
Qed.

Section RemovalLeaves.

Context `{SetOrder}.

Lemma remove_path_shrinks dir_ok_fn path queue (objects : index) :
  shrinks objects (snd (remove_path dir_ok_fn path queue objects)).
Proof.
  assert (Hdel : shrinks objects (delete path objects)).
  { intros k s. rewrite lookup_delete. case_decide; [done|eauto]. }
  unfold remove_path.
  destruct (negb _ && bool_decide _); [done|].
  destruct (delete path objects !! os_path.dirname path) as [s|] eqn:Hp;
    [|done].
  destruct (truthy s); [|done]. simpl.
  eapply shrinks_trans; [exact Hdel|].
  intros k s'. rewrite lookup_insert. case_decide; [|eauto].
  subst k. intros [= <-]. exists s. split; [done|]. apply py_filter_ne_items.
Qed.

Lemma remove_paths_shrinks dir_ok_fn rootpaths queue (objects : index) :
  shrinks objects (snd (remove_paths dir_ok_fn rootpaths queue objects)).
Proof.
  revert queue objects.
  induction rootpaths as [|path l IH]; intros queue objects; simpl.
  - apply shrinks_refl.
  - unfold mbind, St_bind.
    destruct (remove_path_spec dir_ok_fn path queue objects)
      as (queue1 & objects1 & Hrun & _).
    pose proof (remove_path_shrinks dir_ok_fn path queue objects) as H1.
    rewrite Hrun in *. simpl in H1.
    eapply shrinks_trans; [exact H1|apply IH].
Qed.

Lemma remove_paths_from_objects_shrinks dir_ok_fn fuel rootpaths
      (objects : index) :
  shrinks objects
          (snd (__remove_paths_from_objects fuel rootpaths dir_ok_fn objects)).
Proof.
  revert rootpaths objects.
  induction fuel as [|fuel IH]; intros rootpaths objects; simpl.
  - apply shrinks_refl.
  - unfold mbind, St_bind.
    destruct (remove_paths_spec dir_ok_fn rootpaths ∅ objects)
      as (queue1 & objects1 & Hrun & _).
    pose proof (remove_paths_shrinks dir_ok_fn rootpaths ∅ objects) as H1.
    rewrite Hrun in *. simpl in H1.
    destruct (bool_decide (queue1 ≠ ∅)); [|done].
    eapply shrinks_trans; [exact H1|apply IH].
Qed.

End RemovalLeaves.

(** X16. The dictionary the walker returns is closed, whatever the
    tree, the root, the filter and the options: every tree entry stored
    at any key is for a path that is a key. *)
Theorem walker_index_is_closed `{DigestDelegate}
        fs rootdir (dir_ok_fn : bytes → bool) with_root_tree prune
        (idx : index) fs' :
  walk_and_compute_sha1_from_directory fs rootdir dir_ok_fn with_root_tree prune
  = (Ok idx, fs') →
  closed idx.
Proof. apply walk_closed. Qed.

Section TheUpdaterAfterADeletion.

Import Sample.

(** [/r/a/b/file.txt], [/r/x/z] and [/r/c.txt] *)
Definition tree_before : node :=
  Dir [("r", Dir [("a", Dir [("b", Dir [("file.txt", File "foo" false)])]);
                  ("x", Dir [("z", File "zed" false)]);
                  ("c.txt", File "bar" false)])].

(** The same after [/r/a/b] is deleted and [/r/x/y] added. *)
Definition tree_after : node :=
  Dir [("r", Dir [("a", Dir []);
                  ("x", Dir [("z", File "zed" false); ("y", File "why" false)]);
                  ("c.txt", File "bar" false)])].

Definition index_before : index := Eval vm_compute in walked tree_before "/r" all_ok.

Definition deletion_and_addition : list change :=
  [{| c_path := "/r/a/b"; c_action := "D" |};
   {| c_path := "/r/x/y"; c_action := "A" |}].

(** What the update returns, with the removal of empty folders. *)
Definition index_after : index :=
  Eval vm_compute in
    match returned (update_checksums_from 5 tree_after deletion_and_addition
                                          index_before all_ok true) with
    | Ok idx => idx
    | _ => ∅
    end.

(** C4. The updater returns a dictionary that is not closed.  The
    index of a full walk of [tree_before], which is closed, is updated
    after [/r/a/b] is deleted and [/r/x/y] added, with the removal of
    empty folders.  The update returns; in what it returns [/r/a/b] is
    no key, [/r/a] still is one, and what is stored there still yields
    the tree entry of [/r/a/b]: the removal has popped the key and left
    the reference in the parent, and nothing has walked [/r/a] again. *)
Theorem updater_returns_a_dangling_tree_entry :
  walk_and_compute_sha1_from_directory tree_before "/r" all_ok true false
  = (Ok index_before, tree_before)
  ∧ closed index_before
  ∧ returned (update_checksums_from 5 tree_after deletion_and_addition
                                    index_before all_ok true)
    = Ok index_after
  ∧ index_after !! "/r/a/b" = None
  ∧ (∃ e, index_after !! "/r/a" = Some (Flt [e])
          ∧ e_type e = GitType.TREE ∧ e_path e = "/r/a/b")
  ∧ ¬ closed index_after.
Proof.
  assert (Hwalk : walk_and_compute_sha1_from_directory
                    tree_before "/r" all_ok true false
                  = (Ok index_before, tree_before)) by (vm_compute; reflexivity).
  assert (Hdangling : ∃ e, index_after !! "/r/a" = Some (Flt [e])
                           ∧ e_type e = GitType.TREE ∧ e_path e = "/r/a/b").
  { eexists. split; [vm_compute; reflexivity|]. split; reflexivity. }
  split; [exact Hwalk|]. split; [exact (walk_closed _ _ _ _ _ _ _ Hwalk)|].
  split; [vm_compute; reflexivity|]. split; [vm_compute; reflexivity|].
  split; [exact Hdangling|].
  destruct Hdangling as (e & Hk & Ht & Hp). intros Hclosed.
  destruct (Hclosed "/r/a" (Flt [e]) e Hk ltac:(left) Ht) as [s Hs].
  rewrite Hp in Hs. vm_compute in Hs. discriminate.
Qed.

Lemma walker_index_is_closed_witness :
  walk_and_compute_sha1_from_directory tree_before "/r" all_ok true false
  = (Ok index_before, tree_before)
  ∧ closed index_before.
Proof.
  assert (Hwalk : walk_and_compute_sha1_from_directory
                    tree_before "/r" all_ok true false
                  = (Ok index_before, tree_before)) by (vm_compute; reflexivity).
  split; [exact Hwalk|].
  exact (walker_index_is_closed tree_before "/r" all_ok true false
                                index_before tree_before Hwalk).
Defined.

End TheUpdaterAfterADeletion.

Section Determinism.

Context `{DigestDelegate}.

Lemma gen_dir_ext fs rootdir (ok1 ok2 : bytes → bool) :
  (∀ p, ok1 p = ok2 p) → gen_dir fs rootdir ok1 = gen_dir fs rootdir ok2.
Proof.
  intros Hext. unfold gen_dir.
  rewrite (filter_ext (fun '(dp, _, _) => ok1 dp) (fun '(dp, _, _) => ok2 dp))
    by (by intros [[dp ?] ?]).
  apply map_ext. intros [[dp dns] fns]. f_equal. f_equal.
  unfold filtfn. apply filter_ext. intros d. apply Hext.
Qed.

Lemma walk_without_pruning_keeps_fs fs rootdir dir_ok_fn with_root_tree :
  snd (walk_and_compute_sha1_from_directory fs rootdir dir_ok_fn
                                            with_root_tree false) = fs.
Proof.
  unfold walk_and_compute_sha1_from_directory. simpl.
  match goal with |- context [let '(_, _) := ?c in _] => by destruct c end.
Qed.

End Determinism.

(** C8.  What the walker returns is a function of the tree, the root,
    the answers of the filter and the two options: two runs on the same
    tree with filters that answer alike end with the same dictionary,
    or the same exception, and the same tree.  Without the removal of
    empty folders a run leaves the tree as it is, so a second run right
    after the first returns the same dictionary again. *)
Theorem walker_is_deterministic `{DigestDelegate}
        fs rootdir (ok1 ok2 : bytes → bool) with_root_tree prune :
  (∀ p, ok1 p = ok2 p) →
  walk_and_compute_sha1_from_directory fs rootdir ok1 with_root_tree prune
  = walk_and_compute_sha1_from_directory fs rootdir ok2 with_root_tree prune
  ∧ (let '(first, fs1) :=
       walk_and_compute_sha1_from_directory fs rootdir ok1 with_root_tree false in
     let '(second, fs2) :=
       walk_and_compute_sha1_from_directory fs1 rootdir ok2 with_root_tree false in
     first = second ∧ fs1 = fs ∧ fs2 = fs).
Proof.
  intros Hext.
  assert (Hsame : ∀ p, walk_and_compute_sha1_from_directory
                         fs rootdir ok1 with_root_tree p
                       = walk_and_compute_sha1_from_directory
                           fs rootdir ok2 with_root_tree p).
  { intros p. unfold walk_and_compute_sha1_from_directory.
    rewrite (gen_dir_ext fs _ ok1 ok2 Hext).
    destruct (if p then _ else _) as [[[]| |] fs1]; [|done..].
    by rewrite (gen_dir_ext fs1 _ ok1 ok2 Hext). }
  split; [apply Hsame|].
  pose proof (walk_without_pruning_keeps_fs fs rootdir ok1 with_root_tree) as Hfs.
  destruct (walk_and_compute_sha1_from_directory fs rootdir ok1 with_root_tree false)
    as [first fs1] eqn:H1. simpl in Hfs. subst fs1.
  rewrite <- Hsame, H1. done.
Qed.

(** ** The theorems at work on the sample tree *)

Section Witnesses.

Import Sample.

Definition modify_file : change :=
  {| c_path := "/r/a/b/file.txt"; c_action := "M" |}.

Lemma commonpath_fatal_inputs_leave_index_witness :
  (∃ p q, p ∈ ["/r/a"; "x"] ∧ q ∈ ["/r/a"; "x"]
          ∧ startswith_sep p = true ∧ startswith_sep q = false)
  ∧ resolved_root index0 = Ok "/r"
  ∧ Forall (fun c => os_path.dirname (c_path c) ≠ "/r")
           [modify_file; {| c_path := "x/y"; c_action := "M" |}]
  ∧ commonpath ["/r/a"; "x"]
    = Raise (ValueError "Can't mix absolute and relative paths")
  ∧ update_checksums_from
      1 fs0 [modify_file; {| c_path := "x/y"; c_action := "M" |}]
      index0 all_ok false
    = {| returned := Raise (ValueError "Can't mix absolute and relative paths");
         objects_after := index0;
         fs_after := fs0 |}.
Proof.
  assert (Hmixed : ∃ p q, p ∈ ["/r/a"; "x"] ∧ q ∈ ["/r/a"; "x"]
                          ∧ startswith_sep p = true ∧ startswith_sep q = false).
  { exists "/r/a", "x". split; [left|]. split; [right; left|].
    split; reflexivity. }
  assert (Hroot : resolved_root index0 = Ok "/r") by reflexivity.
  assert (Hall : Forall (fun c => os_path.dirname (c_path c) ≠ "/r")
                        [modify_file; {| c_path := "x/y"; c_action := "M" |}]).
  { repeat constructor; by vm_compute. }
  destruct (commonpath_fatal_inputs_leave_index
              ["/r/a"; "x"] 1 fs0
              [modify_file; {| c_path := "x/y"; c_action := "M" |}]
              index0 all_ok false "/r") as (_ & Hcommon & Hupdate).
  split; [exact Hmixed|]. split; [exact Hroot|]. split; [exact Hall|].
  split; [exact (Hcommon Hmixed)|].
  apply Hupdate; [exact Hroot|exact Hall|].
  exists modify_file, {| c_path := "x/y"; c_action := "M" |}.
  split; [left|]. split; [right; left|]. split; reflexivity.
Defined.

Lemma root_adjacent_change_is_full_walk_witness :
  resolved_root index0 = Ok "/r"
  ∧ os_path.dirname "/r/c.txt" = "/r"
  ∧ update_checksums_from
      1 fs0 [modify_file; {| c_path := "/r/c.txt"; c_action := "A" |}]
      index0 all_ok false
    = {| returned :=
           fst (walk_and_compute_sha1_from_directory fs0 "/r" all_ok true false);
         objects_after := index0;
         fs_after :=
           snd (walk_and_compute_sha1_from_directory fs0 "/r" all_ok true false) |}.
Proof.
  split; [reflexivity|]. split; [reflexivity|].
  apply (root_adjacent_change_is_full_walk
           1 fs0 [modify_file; {| c_path := "/r/c.txt"; c_action := "A" |}]
           index0 all_ok false "/r" {| c_path := "/r/c.txt"; c_action := "A" |});
    [reflexivity|right; left|reflexivity].
Defined.

Lemma action_is_not_validated_witness :
  scan_changes "/r" [{| c_path := "/r/a/b/file.txt"; c_action := "?" |}] ∅ ∅
  = scan_changes "/r" [] (∅ ∪ {["/r/a/b"]}) ∅
  ∧ (∃ impacted,
        scan_changes "/r" [{| c_path := "/r/a/b/file.txt"; c_action := "?" |}]
                     ∅ ∅ = Impacted impacted ∅)
  ∧ update_checksums_from
      2 fs0 [{| c_path := "/r/a/b/file.txt"; c_action := "?" |}]
      index0 all_ok false
    = update_checksums_from 2 fs0 [modify_file] index0 all_ok false.
Proof.
  destruct (action_is_not_validated
              2 fs0 [{| c_path := "/r/a/b/file.txt"; c_action := "?" |}]
              index0 all_ok false "/r"
              {| c_path := "/r/a/b/file.txt"; c_action := "?" |} ∅ ∅)
    as (_ & Hnone & Hsame).
  destruct (action_is_not_validated
              2 fs0 [] index0 all_ok false "/r"
              {| c_path := "/r/a/b/file.txt"; c_action := "?" |} ∅ ∅)
    as (Hstep & _ & _).
  split; [apply Hstep; by vm_compute|].
  split; [apply Hnone; repeat constructor; by vm_compute|].
  exact Hsame.
Defined.

Lemma cascading_removal_terminates_witness :
  (∀ p, os_path.dirname p = p → all_ok p = true)
  ∧ ∃ fuel objects',
      __remove_paths_from_objects fuel ["/r/a/b"] all_ok index0
      = (Ok tt, objects').
Proof.
  split; [reflexivity|].
  apply (cascading_removal_terminates all_ok ["/r/a/b"] index0). reflexivity.
Defined.

Lemma walker_filters_each_directory_by_its_own_path_witness :
  walk_and_compute_sha1_from_directory fs0 "/r" all_but_a true false
  = (Ok index_but_a, fs0)
  ∧ (is_Some (index_but_a !! "/r/a/b")
     ↔ all_but_a "/r/a/b" = true
       ∧ ∃ dirnames filenames,
           ("/r/a/b", dirnames, filenames) ∈ os.walk fs0 (stripped "/r")).
Proof.
  assert (Hwalk : walk_and_compute_sha1_from_directory fs0 "/r" all_but_a true false
                  = (Ok index_but_a, fs0)) by (by vm_compute).
  split; [exact Hwalk|].
  apply (walker_filters_each_directory_by_its_own_path
           fs0 "/r" all_but_a true false index_but_a fs0 Hwalk).
  by vm_compute.
Defined.

Lemma walker_stores_links_files_trees_witness :
  ∃ s, walk_and_compute_sha1_from_directory fs0 "/r" all_ok true false
       = (Ok index0, fs0)
       ∧ "/r" ≠ ROOT_TREE_KEY
       ∧ index0 !! "/r" = Some s
       ∧ walker_order fs0 (gen_dir fs0 (stripped "/r") all_ok) "/r" s.
Proof.
  assert (Hwalk : walk_and_compute_sha1_from_directory fs0 "/r" all_ok true false
                  = (Ok index0, fs0)) by (by vm_compute).
  assert (Hs : is_Some (index0 !! "/r")) by (by eexists; vm_compute).
  destruct Hs as [s Hs]. exists s.
  split; [exact Hwalk|]. split; [by vm_compute|]. split; [exact Hs|].
  apply (walker_stores_links_files_trees
           fs0 "/r" all_ok true false index0 fs0 "/r" s Hwalk);
    [by vm_compute|exact Hs].
Defined.

Lemma walker_is_deterministic_witness :
  (∀ p, all_ok p = all_ok p)
  ∧ walk_and_compute_sha1_from_directory fs0 "/r" all_ok true true
    = walk_and_compute_sha1_from_directory fs0 "/r" all_ok true true.
Proof.
  split; [reflexivity|].
  exact (proj1 (walker_is_deterministic fs0 "/r" all_ok all_ok true true
                                        (fun p => eq_refl))).
Defined.

End Witnesses.


(** ** Absolute paths in normal form *)

Fixpoint has_sep (s : bytes) : bool :=
  match s with
  | EmptyString => false
  | String c s' => is_sep c || has_sep s'
  end.

(** A name a directory can list: not empty, not [.], without separator. *)
Definition valid_name (n : bytes) : bool :=
  negb (String.eqb n "") && negb (String.eqb n curdir) && negb (has_sep n).

(** The path [/c1/.../ck]. *)
Definition abs_path (cs : list bytes) : bytes := "/" ++ join_sep cs.

Lemma valid_name_inv n :
  valid_name n = true → n ≠ "" ∧ n ≠ curdir ∧ has_sep n = false.
Proof.
  unfold valid_name. rewrite !andb_true_iff, !negb_true_iff.
  intros [[H1 H2] H3]. by apply String.eqb_neq in H1, H2.
Qed.

Lemma append_String c (s t : bytes) : String c s ++ t = String c (s ++ t).
Proof. reflexivity. Qed.

Lemma append_empty_l (t : bytes) : "" ++ t = t.
Proof. reflexivity. Qed.

Lemma append_assoc (a b c : bytes) : (a ++ b) ++ c = a ++ (b ++ c).
Proof.
  induction a as [|x a IH]; [done|]. by rewrite !append_String, IH.
Qed.

Lemma append_empty_r (a : bytes) : a ++ "" = a.
Proof. induction a as [|x a IH]; [done|]. by rewrite append_String, IH. Qed.

Lemma split_sep_nonempty s : split_sep s ≠ [].
Proof.
  induction s as [|c s IH]; simpl; [done|].
  destruct (is_sep c); [done|]. by destruct (split_sep s).
Qed.

Lemma split_sep_no_sep w : has_sep w = false → split_sep w = [w].
Proof.
  induction w as [|c w IH]; simpl; [done|].
  intros [Hc Hw]%orb_false_iff. rewrite Hc, IH by done. done.
Qed.

Lemma split_sep_app w s :
  has_sep w = false → split_sep (w ++ String sep s) = w :: split_sep s.
Proof.
  induction w as [|c w IH]; [done|]. rewrite append_String. simpl.
  intros [Hc Hw]%orb_false_iff. rewrite Hc, IH by done. done.
Qed.

Lemma join_sep_cons w ws :
  ws ≠ [] → join_sep (w :: ws) = w ++ String sep (join_sep ws).
Proof. by destruct ws. Qed.

Lemma join_sep_snoc cs n :
  cs ≠ [] → join_sep (cs ++ [n]) = join_sep cs ++ String sep n.
Proof.
  induction cs as [|c cs IH]; [done|]. intros _.
  destruct cs as [|c' cs]; [done|].
  change ((c :: c' :: cs) ++ [n])%list with (c :: ((c' :: cs) ++ [n]))%list.
  rewrite !join_sep_cons by (by destruct cs). rewrite IH by done.
  by rewrite append_assoc.
Qed.

Lemma split_join_sep cs :
  Forall (fun c => has_sep c = false) cs → cs ≠ [] →
  split_sep (join_sep cs) = cs.
Proof.
  induction 1 as [|c cs Hc Hcs IH]; [done|]. intros _.
  destruct cs as [|c' cs]; [by apply split_sep_no_sep|].
  rewrite join_sep_cons by done. rewrite split_sep_app by done.
  by rewrite IH.
Qed.

Lemma Forall_valid_no_sep cs :
  Forall (fun c => valid_name c = true) cs →
  Forall (fun c => has_sep c = false) cs.
Proof.
  intros Hcs. eapply Forall_impl; [exact Hcs|].
  by intros c (_ & _ & ?)%valid_name_inv.
Qed.

Lemma components_abs_path cs :
  Forall (fun c => valid_name c = true) cs → components (abs_path cs) = cs.
Proof.
  intros Hcs. unfold components, abs_path.
  change ("/" ++ join_sep cs) with (String sep (join_sep cs)).
  cbn [split_sep]. change (is_sep sep) with true. cbn [List.filter]. simpl.
  destruct cs as [|c cs]; [done|].
  rewrite split_join_sep; [|by apply Forall_valid_no_sep|done].
  induction Hcs as [|x l Hx Hl IH]; [done|]. cbn [List.filter].
  destruct (valid_name_inv _ Hx) as (H1 & H2 & _).
  apply String.eqb_neq in H1, H2. rewrite H1, H2. simpl. by rewrite IH.
Qed.

Lemma abs_path_inj cs1 cs2 :
  Forall (fun c => valid_name c = true) cs1 →
  Forall (fun c => valid_name c = true) cs2 →
  abs_path cs1 = abs_path cs2 → cs1 = cs2.
Proof.
  intros H1 H2 Heq. apply (f_equal components) in Heq.
  by rewrite !components_abs_path in Heq.
Qed.

Lemma abs_path_not_empty cs : abs_path cs ≠ "".
Proof. done. Qed.

Lemma startswith_sep_abs_path cs : startswith_sep (abs_path cs) = true.
Proof. done. Qed.

Lemma endswith_sep_app_no_sep a n :
  n ≠ "" → has_sep n = false → endswith_sep (a ++ n) = false.
Proof.
  intros Hn Hsep. induction a as [|c a IH].
  - rewrite append_empty_l. clear Hn.
    induction n as [|c n IH]; [done|]. simpl in *.
    apply orb_false_iff in Hsep as [Hc Hsep].
    destruct n; [done|]. by apply IH.
  - rewrite append_String. simpl. rewrite IH.
    destruct (a ++ n) eqn:Han; [|done].
    destruct a; [|done]. by rewrite append_empty_l in Han.
Qed.

Lemma endswith_sep_abs_path cs :
  Forall (fun c => valid_name c = true) cs → cs ≠ [] →
  endswith_sep (abs_path cs) = false.
Proof.
  intros Hcs Hne. destruct (exists_last Hne) as (cs' & n & ->).
  apply Forall_app in Hcs as [_ Hn]. inversion_clear Hn as [|? ? Hv _].
  destruct (valid_name_inv _ Hv) as (Hn1 & _ & Hn3).
  unfold abs_path. destruct cs' as [|c cs'].
  - by apply endswith_sep_app_no_sep.
  - rewrite join_sep_snoc by done.
    rewrite <- append_assoc.
    change (String sep n) with ("/" ++ n). rewrite <- append_assoc.
    by apply endswith_sep_app_no_sep.
Qed.

Lemma startswith_sep_valid n : valid_name n = true → startswith_sep n = false.
Proof.
  intros (Hn & _ & Hsep)%valid_name_inv. destruct n as [|c n]; [done|].
  simpl in *. by apply orb_false_iff in Hsep as [? _].
Qed.

(** [os.path.join] of a normal path and a name. *)
Lemma join_abs_path cs n :
  Forall (fun c => valid_name c = true) cs → valid_name n = true →
  os_path.join (abs_path cs) n = abs_path (cs ++ [n]).
Proof.
  intros Hcs Hn. unfold os_path.join.
  rewrite startswith_sep_valid by done.
  change (abs_path cs =? "") with false. cbn [orb].
  destruct cs as [|c cs]; [done|].
  rewrite endswith_sep_abs_path by done.
  unfold abs_path. rewrite join_sep_snoc by done.
  by rewrite append_assoc.
Qed.

Lemma head_upto_sep_app a n :
  has_sep n = false → head_upto_sep (a ++ String sep n) = a ++ "/".
Proof.
  intros Hn. assert (Hbase : head_upto_sep n = "").
  { induction n as [|c n IH]; [done|]. simpl in *.
    apply orb_false_iff in Hn as [Hc Hn]. by rewrite IH, Hc. }
  induction a as [|c a IH].
  - rewrite !append_empty_l. simpl. by rewrite Hbase.
  - rewrite !append_String. simpl. rewrite IH.
    by destruct a.
Qed.


Lemma rstrip_sep_app_sep a :
  endswith_sep a = false → a ≠ "" → rstrip_sep (a ++ "/") = a.
Proof.
  induction a as [|c a IH]; [done|]. intros Hend _.
  rewrite append_String. simpl.
  destruct a as [|c' a].
  - rewrite append_empty_l. simpl in *. by rewrite Hend.
  - rewrite IH; [done| |done]. exact Hend.
Qed.

Lemma all_sep_app_false a b :
  endswith_sep a = false → a ≠ "" → all_sep (a ++ b) = false.
Proof.
  induction a as [|c a IH]; [done|]. intros Hend _.
  rewrite append_String. simpl.
  destruct a as [|c' a].
  - simpl in Hend. by rewrite Hend.
  - rewrite IH; [apply andb_false_r|exact Hend|done].
Qed.

Lemma dirname_unfold p :
  os_path.dirname p
  = if negb (head_upto_sep p =? "") && negb (all_sep (head_upto_sep p))
    then rstrip_sep (head_upto_sep p) else head_upto_sep p.
Proof. reflexivity. Qed.

Lemma abs_path_snoc cs n :
  abs_path (cs ++ [n])
  = (match cs with [] => "" | _ => abs_path cs end) ++ String sep n.
Proof.
  destruct cs as [|c cs]; [done|]. unfold abs_path.
  rewrite join_sep_snoc by done. by rewrite append_assoc.
Qed.

Lemma dirname_abs_path_snoc cs n :
  Forall (fun c => valid_name c = true) cs → valid_name n = true →
  os_path.dirname (abs_path (cs ++ [n])) = abs_path cs.
Proof.
  intros Hcs (_ & _ & Hsep)%valid_name_inv.
  rewrite dirname_unfold, abs_path_snoc, head_upto_sep_app by done.
  destruct cs as [|c cs]; [done|].
  pose proof (endswith_sep_abs_path (c :: cs) Hcs ltac:(done)) as Hend.
  rewrite all_sep_app_false by done.
  replace ((abs_path (c :: cs) ++ "/") =? "") with false.
  - cbn [negb andb]. by apply rstrip_sep_app_sep.
  - symmetry. by apply String.eqb_neq.
Qed.


Lemma dirname_abs_path_nil : os_path.dirname (abs_path []) = abs_path [].
Proof. reflexivity. Qed.

(** The parent of a normal path is the normal path of all components
    but the last. *)
Lemma dirname_abs_path cs :
  Forall (fun c => valid_name c = true) cs →
  os_path.dirname (abs_path cs) = abs_path (removelast cs).
Proof.
  intros Hcs. destruct (decide (cs = [])) as [->|Hne]; [done|].
  destruct (exists_last Hne) as (cs' & n & ->).
  apply Forall_app in Hcs as [Hcs' Hn]. inversion_clear Hn.
  rewrite removelast_last. by apply dirname_abs_path_snoc.
Qed.

Lemma stripped_abs_path cs :
  Forall (fun c => valid_name c = true) cs → cs ≠ [] →
  stripped (abs_path cs) = abs_path cs.
Proof.
  intros Hcs Hne. unfold stripped. by rewrite endswith_sep_abs_path.
Qed.

Lemma resolve_abs_path fs cs :
  Forall (fun c => valid_name c = true) cs →
  resolve fs (abs_path cs) = descend fs cs.
Proof.
  intros Hcs. unfold resolve. by rewrite components_abs_path.
Qed.

(** ** The order of [min] and [max] and the common prefix *)

Lemma string_compare_refl a : String.compare a a = Eq.
Proof.
  pose proof (String.compare_antisym a a) as Hanti.
  destruct (String.compare a a); [done|discriminate..].
Qed.

Lemma string_ltb_irrefl a : String.ltb a a = false.
Proof. unfold String.ltb. by rewrite string_compare_refl. Qed.

Lemma string_ltb_trichotomy a b :
  a ≠ b → String.ltb a b = true ∨ String.ltb b a = true.
Proof.
  intros Hne. unfold String.ltb. rewrite (String.compare_antisym a b).
  destruct (String.compare b a) eqn:Hc; simpl; auto.
  apply String.compare_eq_iff in Hc. congruence.
Qed.

Lemma string_ltb_le a b :
  String.ltb a b = true ↔ String.le a b ∧ a ≠ b.
Proof.
  unfold String.ltb, String.le, String.leb.
  destruct (String.compare a b) eqn:Hc; simpl.
  - apply String.compare_eq_iff in Hc. subst. split; [done|]. by intros [_ ?].
  - split; [|done]. intros _. split; [done|]. intros ->.
    by rewrite string_compare_refl in Hc.
  - split; [done|]. by intros [? _].
Qed.

Lemma string_ltb_trans a b c :
  String.ltb a b = true → String.ltb b c = true → String.ltb a c = true.
Proof.
  rewrite !string_ltb_le. intros [Hab Hne1] [Hbc Hne2]. split.
  - by etrans.
  - intros ->. apply Hne1. by apply (anti_symm String.le).
Qed.

Lemma list_ltb_irrefl a : list_ltb a a = false.
Proof.
  induction a as [|x a IH]; [done|]. simpl. by rewrite String.eqb_refl.
Qed.

Lemma list_ltb_trans a b c :
  list_ltb a b = true → list_ltb b c = true → list_ltb a c = true.
Proof.
  revert b c. induction a as [|x a IH]; intros [|y b] [|z c]; simpl; try done.
  destruct (String.eqb_spec x y) as [->|Hxy].
  - destruct (String.eqb_spec y z) as [->|Hyz]; [apply IH|done].
  - destruct (String.eqb_spec y z) as [->|Hyz].
    + intros ? _. by destruct (String.eqb_spec x z).
    + intros Hlt1 Hlt2. pose proof (string_ltb_trans _ _ _ Hlt1 Hlt2) as Hlt.
      destruct (String.eqb_spec x z) as [->|_]; [|done].
      by rewrite string_ltb_irrefl in Hlt.
Qed.

Lemma list_ltb_trichotomy a b :
  a ≠ b → list_ltb a b = true ∨ list_ltb b a = true.
Proof.
  revert b. induction a as [|x a IH]; intros [|y b] Hne; simpl;
    [done|by left|by right|].
  rewrite (String.eqb_sym y x).
  destruct (String.eqb_spec x y) as [->|Hxy].
  - apply IH. congruence.
  - by apply string_ltb_trichotomy.
Qed.

(** [a] is not above [b]. *)
Lemma list_ltb_below a b c :
  list_ltb a b = true → list_ltb c b = false → list_ltb a c = true.
Proof.
  intros Hab Hcb. destruct (decide (b = c)) as [<-|Hne]; [done|].
  destruct (list_ltb_trichotomy b c Hne) as [Hbc|Hcb']; [|congruence].
  by eapply list_ltb_trans.
Qed.

Lemma list_ltb_above a b c :
  list_ltb b a = true → list_ltb b c = false → list_ltb c a = true.
Proof.
  intros Hba Hbc. destruct (decide (b = c)) as [<-|Hne]; [done|].
  destruct (list_ltb_trichotomy b c Hne) as [Hbc'|Hcb]; [congruence|].
  by eapply list_ltb_trans.
Qed.

Lemma py_min_spec x l :
  py_min x l ∈ x :: l ∧ ∀ y, y ∈ x :: l → list_ltb y (py_min x l) = false.
Proof.
  unfold py_min. revert x. induction l as [|z l IH]; intros x; simpl.
  - split; [left|]. intros y ->%list_elem_of_singleton. apply list_ltb_irrefl.
  - destruct (IH (if list_ltb z x then z else x)) as [Hin Hmin].
    set (m := fold_left _ l _) in *.
    split.
    + apply elem_of_cons in Hin as [->|Hin]; [|by right; right].
      destruct (list_ltb z x); [right; left|left].
    + assert (Hl : ∀ y, y ∈ l → list_ltb y m = false).
      { intros y Hy. apply Hmin. by right. }
      pose proof (Hmin _ ltac:(left)) as Hs.
      intros y [->|[->|Hy]%elem_of_cons]%elem_of_cons; [| |by apply Hl].
      * destruct (list_ltb z x) eqn:Hzx; [|done].
        destruct (list_ltb x m) eqn:Hlt; [|done].
        by rewrite (list_ltb_trans _ _ _ Hzx Hlt) in Hs.
      * destruct (list_ltb z x) eqn:Hzx; [done|].
        destruct (list_ltb z m) eqn:Hlt; [|done].
        by rewrite (list_ltb_below _ _ _ Hlt Hs) in Hzx.
Qed.

Lemma py_max_spec x l :
  py_max x l ∈ x :: l ∧ ∀ y, y ∈ x :: l → list_ltb (py_max x l) y = false.
Proof.
  unfold py_max. revert x. induction l as [|z l IH]; intros x; simpl.
  - split; [left|]. intros y ->%list_elem_of_singleton. apply list_ltb_irrefl.
  - destruct (IH (if list_ltb x z then z else x)) as [Hin Hmax].
    set (m := fold_left _ l _) in *.
    split.
    + apply elem_of_cons in Hin as [->|Hin]; [|by right; right].
      destruct (list_ltb x z); [right; left|left].
    + assert (Hl : ∀ y, y ∈ l → list_ltb m y = false).
      { intros y Hy. apply Hmax. by right. }
      pose proof (Hmax _ ltac:(left)) as Hs.
      intros y [->|[->|Hy]%elem_of_cons]%elem_of_cons; [| |by apply Hl].
      * destruct (list_ltb x z) eqn:Hxz; [|done].
        destruct (list_ltb m x) eqn:Hlt; [|done].
        by rewrite (list_ltb_trans _ _ _ Hlt Hxz) in Hs.
      * destruct (list_ltb x z) eqn:Hxz; [done|].
        destruct (list_ltb m z) eqn:Hlt; [|done].
        by rewrite (list_ltb_above _ _ _ Hlt Hs) in Hxz.
Qed.

(** Between two lists that are in order the loop of [commonpath] never
    reads past the end of the second, and what it returns starts every
    list that lies between the two. *)
Lemma common_prefix_spec s1 s2 :
  list_ltb s2 s1 = false →
  ∃ c, common_prefix s1 s2 = Ok c
       ∧ c `prefix_of` s1
       ∧ ∀ y, list_ltb y s1 = false → list_ltb s2 y = false → c `prefix_of` y.
Proof.
  revert s2. induction s1 as [|a s1 IH]; intros s2 Hle.
  - exists []. split; [done|]. split; [by exists []|]. intros. by eexists.
  - destruct s2 as [|b s2]; [done|]. simpl in *.
    rewrite (String.eqb_sym a b).
    destruct (String.eqb_spec b a) as [->|Hne].
    + destruct (IH s2 Hle) as (c & -> & Hpre & Hmid).
      exists (a :: c). split; [done|]. split; [by apply prefix_cons|].
      intros [|u y]; [done|]. simpl.
      destruct (String.eqb_spec u a) as [->|Hua].
      * rewrite String.eqb_refl. intros ? ?. apply prefix_cons. by apply Hmid.
      * destruct (String.eqb_spec a u) as [->|_]; [done|].
        intros H1 H2. destruct (string_ltb_trichotomy u a Hua); congruence.
    + exists []. split; [done|]. split; [by eexists|]. intros. by eexists.
Qed.


(** A path in normal form. *)
Definition normal (p : bytes) : Prop :=
  ∃ cs, Forall (fun c => valid_name c = true) cs ∧ p = abs_path cs.



(** ** Well-formed trees and what the walker computes for them *)

(** The names a directory lists are valid and distinct, all the way
    down. *)
Fixpoint well_formed (n : node) : bool :=
  match n with
  | Dir es =>
      bool_decide (NoDup (map fst es))
      && forallb (fun e => valid_name (fst e)) es
      && (fix all (l : list (bytes * node)) : bool :=
            match l with
            | [] => true
            | (_, c) :: l' => well_formed c && all l'
            end) es
  | _ => true
  end.

Lemma well_formed_Dir es :
  well_formed (Dir es) = true →
  NoDup (map fst es)
  ∧ Forall (fun e => valid_name (fst e) = true) es
  ∧ Forall (fun e => well_formed (snd e) = true) es.
Proof.
  simpl. rewrite !andb_true_iff. intros [[Hnd Hval] Hall].
  split; [by apply bool_decide_eq_true in Hnd|]. split.
  - apply Forall_forall. intros e He.
    rewrite forallb_forall in Hval. apply Hval. by apply list_elem_of_In.
  - clear Hnd Hval. induction es as [|[name c] es IH]; [constructor|].
    apply andb_true_iff in Hall as [Hc Hall]. constructor; [done|by apply IH].
Qed.

Lemma node_ind' (P : node → Prop) :
  (∀ data x, P (File data x)) →
  (∀ target d, P (Symlink target d)) →
  (∀ es, Forall (fun e => P (snd e)) es → P (Dir es)) →
  ∀ n, P n.
Proof.
  intros Hfile Hlink Hdir. fix IH 1. intros [data x|target d|es].
  - apply Hfile.
  - apply Hlink.
  - apply Hdir. induction es as [|[name c] es IHes]; constructor.
    + apply IH.
    + apply IHes.
Qed.

Lemma lookup_name_elem name es c :
  lookup_name name es = Some c → (name, c) ∈ es.
Proof.
  induction es as [|[n0 c0] es IH]; simpl; [done|].
  destruct (String.eqb_spec n0 name) as [->|_].
  - intros [= ->]. left.
  - intros ?. right. by apply IH.
Qed.

Lemma lookup_name_NoDup name es c :
  NoDup (map fst es) → (name, c) ∈ es → lookup_name name es = Some c.
Proof.
  induction es as [|[n0 c0] es IH]; simpl; [by inversion 2|].
  intros Hnd%NoDup_cons. destruct Hnd as [Hnotin Hnd].
  intros [[= <- <-]|Hin]%elem_of_cons.
  - by rewrite String.eqb_refl.
  - destruct (String.eqb_spec n0 name) as [->|_]; [|by apply IH].
    exfalso. apply Hnotin.
    by apply (list_elem_of_fmap_2 fst) in Hin.
Qed.

Lemma descend_app cur cs1 cs2 :
  descend cur (cs1 ++ cs2) = descend cur cs1 ≫= fun n => descend n cs2.
Proof.
  revert cur. induction cs1 as [|c cs1 IH]; intros cur; simpl; [done|].
  destruct cur as [| |es]; [done..|].
  destruct (lookup_name c es) as [n|]; simpl; [apply IH|done].
Qed.

Lemma descend_well_formed n rel n' :
  well_formed n = true → descend n rel = Some n' →
  Forall (fun c => valid_name c = true) rel ∧ well_formed n' = true.
Proof.
  revert n. induction rel as [|c rel IH]; intros n Hwf; simpl.
  - intros [= <-]. by split.
  - destruct n as [| |es]; [done..|].
    destruct (lookup_name c es) as [ch|] eqn:Hch; [|done]. simpl.
    apply lookup_name_elem in Hch.
    destruct (well_formed_Dir _ Hwf) as (_ & Hval & Hall).
    rewrite Forall_forall in Hval, Hall.
    intros Hd. destruct (IH ch (Hall _ Hch) Hd) as [? ?].
    split; [|done]. constructor; [|done]. apply (Hval _ Hch).
Qed.

Section Semantics.

Context `{DigestDelegate}.

(** The entry [compute_link_metadata] builds for a link to [target]. *)
Definition link_entry (linkpath target : bytes) : entry :=
  {| e_sha1_git := h_sha1_git (hash_data target);
     e_others := h_others (hash_data target);
     e_data := Some target;
     e_length := Some (String.length target);
     e_name := os_path.basename linkpath;
     e_perms := GitPerm.LINK;
     e_type := GitType.BLOB;
     e_path := linkpath |}.

(** The entry [compute_blob_metadata] builds for a file. *)
Definition blob_entry (filepath data : bytes) (executable : bool) : entry :=
  {| e_sha1_git := h_sha1_git (hash_path data);
     e_others := h_others (hash_path data);
     e_data := None;
     e_length := None;
     e_name := os_path.basename filepath;
     e_perms := if executable then GitPerm.EXEC else GitPerm.BLOB;
     e_type := GitType.BLOB;
     e_path := filepath |}.

Definition links_of (top : bytes) (l : list (bytes * node)) : list entry :=
  flat_map (fun '(name, c) =>
              match c with
              | Symlink target _ => [link_entry (os_path.join top name) target]
              | _ => []
              end) l.

Definition blobs_of (top : bytes) (l : list (bytes * node)) : list entry :=
  flat_map (fun '(name, c) =>
              match c with
              | File data x => [blob_entry (os_path.join top name) data x]
              | _ => []
              end) l.

(** The tree entries of the directories among [l], with [sub] giving the
    list of each. *)
Definition trees_with (sub : bytes → node → list entry) (top : bytes)
           (l : list (bytes * node)) : list entry :=
  flat_map (fun '(name, c) =>
              match c with
              | Dir _ => [tree_entry (os_path.join top name)
                                     (sub (os_path.join top name) c)]
              | _ => []
              end) l.

(** What [os.walk] names as files, and as directories that pass the
    filter. *)
Definition listed_files (es : list (bytes * node)) : list (bytes * node) :=
  List.filter (fun e => negb (is_dir (snd e))) es.

Definition listed_dirs (dir_ok_fn : bytes → bool) (top : bytes)
           (es : list (bytes * node)) : list (bytes * node) :=
  List.filter (fun e => is_dir (snd e) && dir_ok_fn (os_path.join top (fst e)))
              es.

Definition entries_with (sub : bytes → node → list entry)
           (dir_ok_fn : bytes → bool) (top : bytes)
           (es : list (bytes * node)) : list entry :=
  (links_of top (listed_files es ++ listed_dirs dir_ok_fn top es)
   ++ blobs_of top (listed_files es)
   ++ trees_with sub top (listed_dirs dir_ok_fn top es))%list.

(** The list of entries of the directory [n] at [top]: its links, its
    files, and a tree entry for every subdirectory the filter accepts,
    whose digest is that of the subdirectory's own list. *)
Fixpoint dir_entries (dir_ok_fn : bytes → bool) (top : bytes) (n : node)
  : list entry :=
  match n with
  | Dir es =>
      (links_of top (listed_files es ++ listed_dirs dir_ok_fn top es)
       ++ blobs_of top (listed_files es)
       ++ (fix trees (l : list (bytes * node)) : list entry :=
             match l with
             | [] => []
             | (name, c) :: l' =>
                 match c with
                 | Dir _ =>
                     if dir_ok_fn (os_path.join top name)
                     then tree_entry (os_path.join top name)
                                     (dir_entries dir_ok_fn
                                                  (os_path.join top name) c)
                          :: trees l'
                     else trees l'
                 | _ => trees l'
                 end
             end) es)%list
  | _ => []
  end.

Lemma dir_entries_unfold dir_ok_fn top es :
  dir_entries dir_ok_fn top (Dir es)
  = entries_with (dir_entries dir_ok_fn) dir_ok_fn top es.
Proof.
  unfold entries_with. cbn [dir_entries]. do 2 f_equal.
  unfold trees_with, listed_dirs.
  induction es as [|[name c] es IH]; [done|]. cbn [List.filter fst snd].
  destruct c as [data x|target d|es']; cbn [is_dir andb].
  - exact IH.
  - destruct (d && _); [|exact IH]. cbn [flat_map app]. exact IH.
  - destruct (dir_ok_fn (os_path.join top name)); [|exact IH].
    cbn [flat_map app]. by rewrite IH.
Qed.

End Semantics.

Section WalkSemantics.

Context `{DigestDelegate}.
Variable fs : node.
Variable dir_ok_fn : bytes → bool.

(** The triples of [gen_dir] for the directory [n] at [top]. *)
Definition gen_from (top : bytes) (n : node)
  : list (bytes * list bytes * list bytes) :=
  map (fun '(dp, dns, fns) => (dp, filtfn dir_ok_fn dp dns, fns))
      (List.filter (fun '(dp, _, _) => dir_ok_fn dp) (os.walk_from top n)).

Lemma gen_dir_gen_from rootdir :
  gen_dir fs rootdir dir_ok_fn
  = match resolve fs rootdir with
    | Some (Dir es) => gen_from rootdir (Dir es)
    | _ => []
    end.
Proof.
  unfold gen_dir, os.walk, gen_from.
  by destruct (resolve fs rootdir) as [[| |es]|].
Qed.

Fixpoint children_gen (top : bytes) (l : list (bytes * node))
  : list (bytes * list bytes * list bytes) :=
  match l with
  | [] => []
  | (name, c) :: l' =>
      (match c with
       | Dir _ => gen_from (os_path.join top name) c
       | _ => []
       end ++ children_gen top l')%list
  end.

Lemma filtfn_listed_dirs top es :
  filtfn dir_ok_fn top (map fst (List.filter (fun e => is_dir (snd e)) es))
  = map fst (listed_dirs dir_ok_fn top es).
Proof.
  unfold filtfn, listed_dirs.
  induction es as [|[name c] es IH]; [done|]. cbn [List.filter fst snd].
  destruct (is_dir c); cbn [andb map List.filter fst]; [|exact IH].
  destruct (dir_ok_fn (os_path.join top name)); cbn [map fst]; by rewrite IH.
Qed.

Lemma gen_from_Dir top es :
  gen_from top (Dir es)
  = (children_gen top es
     ++ if dir_ok_fn top
        then [(top, map fst (listed_dirs dir_ok_fn top es),
               map fst (listed_files es))]
        else [])%list.
Proof.
  unfold gen_from. cbn [os.walk_from].
  rewrite List.filter_app, map_app. f_equal.
  - induction es as [|[name c] es IH]; [done|].
    rewrite List.filter_app, map_app, IH. cbn [children_gen]. f_equal.
    destruct c as [data x|target d|es']; cbn [is_dir is_symlink negb andb];
      [done| |done].
    by rewrite andb_false_r.
  - cbn [List.filter]. destruct (dir_ok_fn top); [|done].
    cbn [map]. by rewrite filtfn_listed_dirs.
Qed.

Lemma gen_from_not_Dir top n :
  (∀ es, n ≠ Dir es) → gen_from top n = [].
Proof. intros Hn. by destruct n as [| |es]; [..|destruct (Hn es)]. Qed.

(** The main loop, with the links it has met handed out at the end. *)
Fixpoint hash_dirs_links (all_links : gset string)
         (dirs : list (bytes * list bytes * list bytes)) : St (gset string) :=
  match dirs with
  | [] => mret all_links
  | dir :: dirs' =>
      all_links ← hash_directory fs all_links dir;
      hash_dirs_links all_links dirs'
  end.

Lemma hash_directories_links all_links dirs (m : index) :
  hash_directories fs all_links dirs m
  = (hash_dirs_links all_links dirs ≫= fun _ => mret tt) m.
Proof.
  revert all_links m. induction dirs as [|d dirs IH]; intros al m; [done|].
  cbn [hash_directories hash_dirs_links]. unfold mbind, St_bind.
  destruct (hash_directory fs al d m) as [[al1| |] m1]; [|done..].
  apply IH.
Qed.

Lemma hash_dirs_links_app all_links l1 l2 (m : index) :
  hash_dirs_links all_links (l1 ++ l2) m
  = (hash_dirs_links all_links l1 ≫= fun al => hash_dirs_links al l2) m.
Proof.
  revert all_links m. induction l1 as [|d l1 IH]; intros al m; [done|].
  cbn [hash_dirs_links app]. unfold mbind, St_bind.
  destruct (hash_directory fs al d m) as [[al1| |] m1]; [|done..].
  apply IH.
Qed.

(** [l] lists what the filesystem has below [top]. *)
Definition listing (top : bytes) (l : list (bytes * node)) : Prop :=
  Forall (fun e => resolve fs (os_path.join top (fst e)) = Some (snd e)) l.

Lemma listing_app top l1 l2 :
  listing top l1 → listing top l2 → listing top (l1 ++ l2).
Proof. intros. by apply Forall_app. Qed.

Lemma listing_filter top f l : listing top l → listing top (List.filter f l).
Proof.
  unfold listing. rewrite !Forall_forall. intros Hl e [He _]%elem_of_List_filter.
  by apply Hl.
Qed.

Lemma links_run top l :
  listing top l →
  mapM (compute_link_metadata fs)
       (List.filter (os.islink fs) (map (os_path.join top) (map fst l)))
  = Ok (links_of top l).
Proof.
  induction 1 as [|[name c] l Hc _ IH]; [done|].
  cbn [map fst List.filter links_of flat_map]. simpl in Hc.
  unfold os.islink at 1. rewrite Hc.
  destruct c as [data x|target d|es]; cbn [is_symlink app]; [exact IH| |exact IH].
  cbn [mapM]. rewrite IH.
  unfold compute_link_metadata at 1, os.readlink. by rewrite Hc.
Qed.

Lemma blobs_run top l (all_links : gset string) :
  listing top l →
  Forall (fun e => is_dir (snd e) = false) l →
  (∀ e, e ∈ l → os_path.join top (fst e) ∈ all_links
                ↔ is_symlink (snd e) = true) →
  mapM (compute_blob_metadata fs)
       (List.filter (not_in all_links) (map (os_path.join top) (map fst l)))
  = Ok (blobs_of top l).
Proof.
  induction 1 as [|[name c] l Hc _ IH]; [done|].
  intros Hfiles Hlinks. inversion_clear Hfiles as [|? ? Hfile Hrest].
  cbn [map fst List.filter blobs_of flat_map]. simpl in Hc, Hfile.
  specialize (IH Hrest (fun e He => Hlinks e (list_elem_of_further _ _ _ He))).
  pose proof (Hlinks (name, c) ltac:(left)) as Hthis. simpl in Hthis.
  unfold not_in at 1.
  destruct c as [data x|target d|es]; [| |done].
  - rewrite bool_decide_eq_true_2 by (rewrite Hthis; done).
    cbn [mapM app]. rewrite IH.
    unfold compute_blob_metadata at 1, os.read, os.access_x. by rewrite Hc.
  - rewrite bool_decide_eq_false_2 by (rewrite Hthis; auto). exact IH.
Qed.

Lemma trees_run (sub : bytes → node → list entry) top l
      (all_links : gset string) (m : index) :
  all_lists m →
  Forall (fun e => is_dir (snd e) = true) l →
  (∀ e, e ∈ l → os_path.join top (fst e) ∈ all_links
                ↔ is_symlink (snd e) = true) →
  (∀ name es, (name, Dir es) ∈ l →
              m !! os_path.join top name
              = Some (Lst (sub (os_path.join top name) (Dir es)))) →
  tree_hashes (List.filter (not_in all_links)
                           (map (os_path.join top) (map fst l))) m
  = (Ok (trees_with sub top l), m).
Proof.
  intros Hm. induction l as [|[name c] l IH]; [done|].
  intros Hdirs Hlinks Hsub. inversion_clear Hdirs as [|? ? Hdir Hrest].
  cbn [map fst List.filter trees_with flat_map]. simpl in Hdir.
  specialize (IH Hrest (fun e He => Hlinks e (list_elem_of_further _ _ _ He))
                 (fun n es He => Hsub n es (list_elem_of_further _ _ _ He))).
  pose proof (Hlinks (name, c) ltac:(left)) as Hthis. simpl in Hthis.
  unfold not_in at 1.
  destruct c as [data x|target d|es]; [done| |].
  - rewrite bool_decide_eq_false_2 by (rewrite Hthis; auto). exact IH.
  - rewrite bool_decide_eq_true_2 by (rewrite Hthis; done).
    cbn [tree_hashes app]. unfold mbind, St_bind.
    rewrite compute_tree_metadata_lists by done.
    rewrite (Hsub name es) by left. cbn [items].
    unfold trees_with in IH. by rewrite IH.
Qed.

End WalkSemantics.

Abbreviation valid_names := (Forall (fun c => valid_name c = true)).

Lemma abs_path_child_inj cs n1 r1 n2 r2 :
  Forall (fun c => valid_name c = true) cs →
  Forall (fun c => valid_name c = true) (n1 :: r1) →
  Forall (fun c => valid_name c = true) (n2 :: r2) →
  abs_path (cs ++ n1 :: r1) = abs_path (cs ++ n2 :: r2) → n1 = n2 ∧ r1 = r2.
Proof.
  intros Hcs H1 H2 Heq.
  apply abs_path_inj in Heq; [|by apply Forall_app..].
  apply app_inv_head in Heq. by injection Heq.
Qed.

Lemma abs_path_below_ne cs n r :
  Forall (fun c => valid_name c = true) cs →
  Forall (fun c => valid_name c = true) (n :: r) →
  abs_path (cs ++ n :: r) ≠ abs_path cs.
Proof.
  intros Hcs Hr Heq. apply abs_path_inj in Heq; [|by apply Forall_app|done].
  rewrite <- (app_nil_r cs) in Heq at 2. by apply app_inv_head in Heq.
Qed.

Section WalkOfATree.

Context `{DigestDelegate}.
Variable fs : node.
Variable dir_ok_fn : bytes → bool.

(** No link met so far lies at or below [cs]. *)
Definition fresh (all_links : gset string) (cs : list bytes) : Prop :=
  ∀ rel, valid_names rel → abs_path (cs ++ rel) ∉ all_links.

(** The state after the walk of the directory [n] at [cs]. *)
Definition walked (cs : list bytes) (n : node)
           (all_links : gset string) (m : index)
           (all_links' : gset string) (m' : index) : Prop :=
  all_lists m'
  ∧ (∀ rel es, descend n rel = Some (Dir es) →
               dir_ok_fn (abs_path (cs ++ rel)) = true →
               m' !! abs_path (cs ++ rel)
               = Some (Lst (dir_entries dir_ok_fn (abs_path (cs ++ rel)) (Dir es))))
  ∧ (∀ k, (∀ rel, valid_names rel → k ≠ abs_path (cs ++ rel)) →
          m' !! k = m !! k)
  ∧ (∀ k, is_Some (m' !! k) →
          is_Some (m !! k)
          ∨ ∃ rel es, k = abs_path (cs ++ rel)
                      ∧ descend n rel = Some (Dir es)
                      ∧ dir_ok_fn k = true)
  ∧ all_links ⊆ all_links'
  ∧ (∀ p, p ∈ all_links' →
          p ∈ all_links
          ∨ ∃ rel, rel ≠ [] ∧ valid_names rel ∧ p = abs_path (cs ++ rel)).

Definition walks_well (n : node) : Prop :=
  ∀ cs all_links (m : index),
    valid_names cs → well_formed n = true → descend fs cs = Some n →
    all_lists m → fresh all_links cs →
    ∃ all_links' m',
      hash_dirs_links fs all_links (gen_from dir_ok_fn (abs_path cs) n) m
      = (Ok all_links', m')
      ∧ walked cs n all_links m all_links' m'.

(** The same for the subdirectories [l] of the directory at [cs]. *)
Definition children_walked (cs : list bytes) (l : list (bytes * node))
           (all_links : gset string) (m : index)
           (all_links' : gset string) (m' : index) : Prop :=
  all_lists m'
  ∧ (∀ name c rel es, (name, c) ∈ l → descend c rel = Some (Dir es) →
                      dir_ok_fn (abs_path (cs ++ name :: rel)) = true →
                      m' !! abs_path (cs ++ name :: rel)
                      = Some (Lst (dir_entries dir_ok_fn
                                               (abs_path (cs ++ name :: rel))
                                               (Dir es))))
  ∧ (∀ k, (∀ name rel, name ∈ map fst l → valid_names rel →
                       k ≠ abs_path (cs ++ name :: rel)) →
          m' !! k = m !! k)
  ∧ (∀ k, is_Some (m' !! k) →
          is_Some (m !! k)
          ∨ ∃ name c rel es, (name, c) ∈ l
                             ∧ k = abs_path (cs ++ name :: rel)
                             ∧ descend c rel = Some (Dir es)
                             ∧ dir_ok_fn k = true)
  ∧ all_links ⊆ all_links'
  ∧ (∀ p, p ∈ all_links' →
          p ∈ all_links
          ∨ ∃ name rel, name ∈ map fst l ∧ rel ≠ [] ∧ valid_names rel
                        ∧ p = abs_path (cs ++ name :: rel)).

Lemma children_gen_cons top name c l :
  children_gen dir_ok_fn top ((name, c) :: l)
  = (gen_from dir_ok_fn (os_path.join top name) c
     ++ children_gen dir_ok_fn top l)%list.
Proof. cbn [children_gen]. by destruct c. Qed.

Lemma children_walk cs :
  valid_names cs →
  ∀ l, Forall (fun e => walks_well (snd e)) l →
       Forall (fun e => valid_name (fst e) = true
                        ∧ well_formed (snd e) = true
                        ∧ descend fs (cs ++ [fst e]) = Some (snd e)) l →
       NoDup (map fst l) →
       ∀ all_links (m : index),
         all_lists m →
         (∀ name, name ∈ map fst l → fresh all_links (cs ++ [name])) →
         ∃ all_links' m',
           hash_dirs_links fs all_links
                           (children_gen dir_ok_fn (abs_path cs) l) m
           = (Ok all_links', m')
           ∧ children_walked cs l all_links m all_links' m'.
Proof.
  intros Hcs l. induction l as [|[name c] l IH]; intros HS Hl Hnd al m Hm Hfresh.
  { exists al, m. split; [done|]. split; [done|].
    split; [by intros ???? Hin; inversion Hin|]. split; [done|].
    split; [by left|]. split; [done|]. by left. }
  inversion_clear HS as [|? ? HSc HSl].
  inversion_clear Hl as [|? ? (Hname & Hwf & Hdesc) Hl'].
  change (map fst ((name, c) :: l)) with (name :: map fst l) in *.
  apply NoDup_cons in Hnd as [Hnotin Hnd]. cbn [fst snd] in *.
  rewrite children_gen_cons, hash_dirs_links_app.
  rewrite join_abs_path by done.
  assert (Hcs1 : valid_names (cs ++ [name])).
  { apply Forall_app. split; [done|by constructor]. }
  destruct (HSc (cs ++ [name])%list al m Hcs1 Hwf Hdesc Hm (Hfresh name ltac:(left)))
    as (al1 & m1 & Hrun1 & Hm1 & Hi1 & Hii1 & Hiii1 & Hsub1 & Hal1).
  unfold mbind at 1, St_bind at 1. rewrite Hrun1.
  assert (Happ : ∀ rel, ((cs ++ [name]) ++ rel = cs ++ name :: rel)%list).
  { intros rel. by rewrite <- app_assoc. }
  setoid_rewrite Happ in Hi1. setoid_rewrite Happ in Hii1.
  setoid_rewrite Happ in Hiii1. setoid_rewrite Happ in Hal1.
  assert (Hvalid : ∀ name', name' ∈ map fst l → valid_name name' = true).
  { intros name' Hname'. rewrite Forall_forall in Hl'.
    apply list_elem_of_fmap in Hname' as ([n0 c0] & -> & Hin0).
    by destruct (Hl' _ Hin0) as (? & _). }
  assert (Hother : ∀ name' rel rel', name' ∈ map fst l →
                     valid_names rel → valid_names rel' →
                     abs_path (cs ++ name :: rel) ≠ abs_path (cs ++ name' :: rel')).
  { intros name' rel rel' Hname' Hrel Hrel' Heq.
    apply abs_path_child_inj in Heq as [-> _]; [done..| |];
      constructor; auto. }
  destruct (IH HSl Hl' Hnd al1 m1 Hm1) as
    (al2 & m2 & Hrun2 & Hm2 & Hi2 & Hii2 & Hiii2 & Hsub2 & Hal2).
  { intros name' Hname' rel Hrel Hin. rewrite <- app_assoc in Hin.
    destruct (Hal1 _ Hin) as [Hold|(rel1 & _ & Hrel1 & Heq)].
    - apply (Hfresh name' (list_elem_of_further _ _ _ Hname') rel Hrel).
      by rewrite <- app_assoc.
    - symmetry in Heq. by apply Hother in Heq. }
  exists al2, m2. split; [done|]. split; [done|].
  split; [|split; [|split; [|split]]].
  - intros name' c' rel es [[= -> ->]|Hin]%elem_of_cons Hd Hok.
    + destruct (descend_well_formed _ _ _ Hwf Hd) as [Hrel _].
      rewrite Hii2; [by apply Hi1|].
      intros name' rel' Hname' Hrel'. by apply Hother.
    + by eapply Hi2.
  - intros k Hk. rewrite Hii2, Hii1.
    + done.
    + intros rel Hrel. apply Hk; [left|done].
    + intros name' rel Hname' Hrel. apply Hk; [by right|done].
  - intros k Hk.
    destruct (Hiii2 k Hk) as [Hk1|(name' & c' & rel & es & ? & ? & ? & ?)].
    + destruct (Hiii1 k Hk1) as [?|(rel & es & -> & Hd & Hok)]; [by left|].
      right. exists name, c, rel, es. split; [left|done].
    + right. exists name', c', rel, es. split; [by right|done].
  - set_solver.
  - intros p Hp. destruct (Hal2 p Hp) as [Hp1|(name' & rel & ? & ? & ? & ?)].
    + destruct (Hal1 p Hp1) as [?|(rel & Hne & Hrel & ->)]; [by left|].
      right. exists name, rel. split; [left|done].
    + right. exists name', rel. split; [by right|done].
Qed.

End WalkOfATree.

Section WalkOfADirectory.

Context `{DigestDelegate}.
Variable fs : node.
Variable dir_ok_fn : bytes → bool.

Lemma listed_files_not_dir es :
  Forall (fun e => is_dir (snd e) = false) (listed_files es).
Proof.
  apply Forall_forall. intros e [_ He]%elem_of_List_filter.
  by apply negb_true_iff.
Qed.

Lemma listed_dirs_dir top es :
  Forall (fun e => is_dir (snd e) = true) (listed_dirs dir_ok_fn top es).
Proof.
  apply Forall_forall. intros e [_ He]%elem_of_List_filter.
  by apply andb_true_iff in He as [? _].
Qed.

(** One turn of the main loop on the directory [es] at [top], when the
    links met so far are none of its own and its subdirectories have
    their lists in [m]. *)
Lemma hash_directory_top top es (all_links : gset string) (m : index) :
  listing fs top es →
  all_lists m →
  (∀ e, e ∈ es → os_path.join top (fst e) ∉ all_links) →
  (∀ name es', (name, Dir es') ∈ es →
               dir_ok_fn (os_path.join top name) = true →
               m !! os_path.join top name
               = Some (Lst (dir_entries dir_ok_fn (os_path.join top name)
                                        (Dir es')))
                 ∧ os_path.join top name ≠ top) →
  ∃ all_links',
    hash_directory fs all_links
                   (top, map fst (listed_dirs dir_ok_fn top es),
                    map fst (listed_files es)) m
    = (Ok all_links', <[top := Lst (dir_entries dir_ok_fn top (Dir es))]> m)
    ∧ all_links ⊆ all_links'
    ∧ ∀ p, p ∈ all_links' →
           p ∈ all_links ∨ ∃ e, e ∈ es ∧ p = os_path.join top (fst e).
Proof.
  intros Hlist Hm Hfresh Hsub.
  set (L := (listed_files es ++ listed_dirs dir_ok_fn top es)%list).
  set (links := List.filter (os.islink fs) (map (os_path.join top) (map fst L))).
  set (al := all_links ∪ list_to_set links).
  assert (HL : ∀ e, e ∈ L → e ∈ es).
  { intros e [[? _]%elem_of_List_filter|[? _]%elem_of_List_filter]%elem_of_app;
      done. }
  assert (HlistL : listing fs top L).
  { apply listing_app; by apply listing_filter. }
  assert (Hres : ∀ e, e ∈ es →
                      resolve fs (os_path.join top (fst e)) = Some (snd e)).
  { intros e He. unfold listing in Hlist. rewrite Forall_forall in Hlist.
    by apply Hlist. }
  assert (Hal : ∀ e, e ∈ L → os_path.join top (fst e) ∈ al
                             ↔ is_symlink (snd e) = true).
  { intros e He. unfold al. rewrite elem_of_union, elem_of_list_to_set.
    unfold links. rewrite elem_of_List_filter. split.
    - intros [Hin|[_ Hlink]]; [by destruct (Hfresh e (HL e He))|].
      unfold os.islink in Hlink. by rewrite (Hres e (HL e He)) in Hlink.
    - intros Hlink. right. split.
      + apply list_elem_of_fmap. exists (fst e). split; [done|].
        by apply list_elem_of_fmap_2.
      + unfold os.islink. by rewrite (Hres e (HL e He)). }
  exists al. split; [|split].
  - unfold hash_directory. rewrite <- map_app. fold L. fold links. fold al.
    fold (not_in al).
    rewrite (links_run fs top L HlistL).
    rewrite (blobs_run fs top (listed_files es) al);
      [|by apply listing_filter|apply listed_files_not_dir|].
    2:{ intros e He. apply Hal. apply elem_of_app. by left. }
    unfold mbind, St_bind.
    rewrite (trees_run (dir_entries dir_ok_fn) top
                       (listed_dirs dir_ok_fn top es) al).
    + unfold set_item, mret, St_ret. rewrite insert_insert_eq.
      rewrite dir_entries_unfold. unfold entries_with. fold L.
      by rewrite <- app_assoc.
    + by apply all_lists_insert.
    + apply listed_dirs_dir.
    + intros e He. apply Hal. apply elem_of_app. by right.
    + intros name es' [Hin Hok]%elem_of_List_filter.
      apply andb_true_iff in Hok as [_ Hok]. cbn [fst] in Hok.
      destruct (Hsub name es' Hin Hok) as [Hlook Hne].
      by rewrite lookup_insert_ne.
  - unfold al. set_solver.
  - intros p. unfold al. rewrite elem_of_union, elem_of_list_to_set.
    intros [?|Hin]; [by left|]. right.
    unfold links in Hin. apply elem_of_List_filter in Hin as [Hin _].
    apply list_elem_of_fmap in Hin as (name & -> & Hin).
    apply list_elem_of_fmap in Hin as (e & -> & Hin). eauto.
Qed.

(** The walk of a well-formed tree stores, for every directory it
    reaches whose path the filter accepts, the list of its entries. *)
Lemma walk_of_a_tree n : walks_well fs dir_ok_fn n.
Proof.
  induction n as [data x|target d|es IH] using node_ind';
    intros cs al m Hcs Hwf Hdesc Hm Hfresh.
  1,2: rewrite gen_from_not_Dir by done; exists al, m; (split; [done|]);
       (split; [done|]); (split; [by intros [|??] ?|]); (split; [done|]);
       (split; [by left|]); (split; [done|]); by left.
  destruct (well_formed_Dir _ Hwf) as (Hnd & Hval & Hwfs).
  assert (Hchild : ∀ name c, (name, c) ∈ es →
                             descend fs (cs ++ [name]) = Some c).
  { intros name c Hin. rewrite descend_app, Hdesc. simpl.
    by rewrite (lookup_name_NoDup _ _ _ Hnd Hin). }
  destruct (children_walk fs dir_ok_fn cs Hcs es IH) with (all_links := al) (m := m)
    as (al1 & m1 & Hrun1 & Hm1 & Hi1 & Hii1 & Hiii1 & Hsub1 & Hal1); [|done..| |].
  { apply Forall_forall. intros [name c] Hin.
    rewrite Forall_forall in Hval, Hwfs.
    split; [exact (Hval _ Hin)|]. split; [exact (Hwfs _ Hin)|].
    by apply Hchild. }
  { intros name Hname rel Hrel. rewrite <- app_assoc. apply Hfresh.
    constructor; [|done]. rewrite Forall_forall in Hval.
    apply list_elem_of_fmap in Hname as (e & -> & He). by apply Hval. }
  rewrite gen_from_Dir, hash_dirs_links_app.
  unfold mbind at 1, St_bind at 1. rewrite Hrun1.
  assert (Hvalid : ∀ name c, (name, c) ∈ es → valid_name name = true).
  { intros name c Hin. rewrite Forall_forall in Hval. exact (Hval _ Hin). }
  assert (Hdesc_child : ∀ name rel n', descend (Dir es) (name :: rel) = Some n' →
                          ∃ c, (name, c) ∈ es ∧ descend c rel = Some n').
  { intros name rel n'. simpl.
    destruct (lookup_name name es) as [c|] eqn:Hc; [|done]. simpl.
    intros Hd. exists c. split; [by apply lookup_name_elem|done]. }
  assert (Hname_valid : ∀ name, name ∈ map fst es → valid_name name = true).
  { intros name ([n0 c0] & -> & Hin)%list_elem_of_fmap. eauto. }
  assert (Hdesc_up : ∀ name c rel n', (name, c) ∈ es → descend c rel = Some n' →
                                      descend (Dir es) (name :: rel) = Some n').
  { intros name c rel n' Hin Hd. simpl.
    by rewrite (lookup_name_NoDup _ _ _ Hnd Hin). }
  assert (Hbelow : ∀ rel es', descend (Dir es) rel = Some (Dir es') → rel ≠ [] →
                              dir_ok_fn (abs_path (cs ++ rel)) = true →
                              m1 !! abs_path (cs ++ rel)
                              = Some (Lst (dir_entries dir_ok_fn
                                                       (abs_path (cs ++ rel))
                                                       (Dir es')))).
  { intros [|name rel] es' Hd Hne Hokr; [done|].
    destruct (Hdesc_child _ _ _ Hd) as (c & Hin & Hdc). by eapply Hi1. }
  assert (Hkeys : ∀ k, is_Some (m1 !! k) →
                       is_Some (m !! k)
                       ∨ ∃ rel es', k = abs_path (cs ++ rel)
                                    ∧ descend (Dir es) rel = Some (Dir es')
                                    ∧ dir_ok_fn k = true).
  { intros k Hk.
    destruct (Hiii1 k Hk) as [?|(name & c & rel & es' & Hin & -> & Hd & Hokk)];
      [by left|].
    right. exists (name :: rel), es'. split; [done|]. split; [|done].
    by eapply Hdesc_up. }
  assert (Hlinks : ∀ p, p ∈ al1 →
                        p ∈ al ∨ ∃ rel, rel ≠ [] ∧ valid_names rel
                                        ∧ p = abs_path (cs ++ rel)).
  { intros p Hp.
    destruct (Hal1 p Hp) as [?|(name & rel & Hname & Hne & Hrel & ->)];
      [by left|].
    right. exists (name :: rel). split; [done|]. split; [|done].
    constructor; [by apply Hname_valid|done]. }
  assert (Hrest : ∀ k, (∀ rel, valid_names rel → k ≠ abs_path (cs ++ rel)) →
                       m1 !! k = m !! k).
  { intros k Hk. apply Hii1. intros name rel Hname Hrel. apply Hk.
    constructor; [by apply Hname_valid|done]. }
  destruct (dir_ok_fn (abs_path cs)) eqn:Hok.
  - (* the directory itself is hashed *)
    destruct (hash_directory_top (abs_path cs) es al1 m1)
      as (al2 & Hrun2 & Hsub2 & Hal2).
    + apply Forall_forall. intros [name c] Hin. cbn [fst snd].
      rewrite join_abs_path, resolve_abs_path; eauto.
      apply Forall_app. split; [done|]. constructor; eauto.
    + done.
    + intros [name c] Hin Hmem. cbn [fst] in Hmem.
      rewrite join_abs_path in Hmem by eauto.
      destruct (Hal1 _ Hmem) as [Hold|(name' & rel & Hname' & Hne & Hrel & Heq)].
      * apply (Hfresh [name]); [constructor; eauto|done].
      * apply (abs_path_child_inj cs name [] name' rel) in Heq as [_ <-];
          [done|done|constructor; eauto|constructor; eauto].
    + intros name es' Hin Hokc. rewrite join_abs_path by eauto. split.
      * apply (Hi1 name (Dir es') [] es' Hin eq_refl).
        by rewrite join_abs_path in Hokc by eauto.
      * apply abs_path_below_ne; [done|]. constructor; eauto.
    + cbn [hash_dirs_links]. unfold mbind, St_bind. rewrite Hrun2.
      eexists _, _. split; [reflexivity|].
      split; [by apply all_lists_insert|]. split; [|split; [|split; [|split]]].
      * intros rel es' Hd Hokr. destruct (decide (rel = [])) as [->|Hne].
        -- rewrite app_nil_r. injection Hd as <-. by rewrite lookup_insert_eq.
        -- destruct (descend_well_formed _ _ _ Hwf Hd) as [Hrel _].
           rewrite lookup_insert_ne; [by apply Hbelow|].
           destruct rel as [|name rel]; [done|].
           symmetry. by apply abs_path_below_ne.
      * intros k Hk. rewrite lookup_insert_ne; [by apply Hrest|].
        intros <-. apply (Hk []); [constructor|by rewrite app_nil_r].
      * intros k. rewrite lookup_insert. case_decide as Hk.
        -- intros _. right. exists [], es. subst k.
           by rewrite app_nil_r.
        -- apply Hkeys.
      * set_solver.
      * intros p Hp. destruct (Hal2 p Hp) as [Hp1|([name c] & Hin & ->)].
        -- by apply Hlinks.
        -- right. exists [name]. split; [done|]. split; [constructor; eauto|].
           cbn [fst]. by rewrite join_abs_path by eauto.
  - (* the filter rejects the directory *)
    cbn [hash_dirs_links]. exists al1, m1. split; [done|].
    split; [done|]. split; [|split; [|split; [|split]]].
    + intros rel es' Hd Hokr. apply Hbelow; [done| |done].
      intros ->. rewrite app_nil_r in Hokr. congruence.
    + done.
    + done.
    + done.
    + done.
Qed.

End WalkOfADirectory.

Section WalkOfTheRoot.

Context `{DigestDelegate}.
Variable dir_ok_fn : bytes → bool.

Lemma hash_directories_of_a_tree fs cs es :
  well_formed fs = true → valid_names cs → descend fs cs = Some (Dir es) →
  ∃ all_links (m : index),
    hash_directories fs ∅ (gen_dir fs (abs_path cs) dir_ok_fn) ∅ = (Ok tt, m)
    ∧ walked dir_ok_fn cs (Dir es) ∅ ∅ all_links m.
Proof.
  intros Hwf Hcs Hdesc.
  destruct (descend_well_formed _ _ _ Hwf Hdesc) as [_ Hwf'].
  destruct (walk_of_a_tree fs dir_ok_fn (Dir es) cs ∅ ∅ Hcs Hwf' Hdesc
                           all_lists_empty)
    as (al & m & Hrun & Hwalked).
  { intros rel _. set_solver. }
  exists al, m. split; [|done].
  rewrite gen_dir_gen_from, resolve_abs_path, Hdesc by done.
  rewrite hash_directories_links. unfold mbind, St_bind. by rewrite Hrun.
Qed.

(** The walk of a directory of a well-formed tree, without the entry of
    the root. *)
Lemma walk_below fs cs es :
  well_formed fs = true → valid_names cs → cs ≠ [] →
  descend fs cs = Some (Dir es) →
  ∃ all_links (m : index),
    walk_and_compute_sha1_from_directory fs (abs_path cs) dir_ok_fn false false
    = (Ok m, fs)
    ∧ walked dir_ok_fn cs (Dir es) ∅ ∅ all_links m.
Proof.
  intros Hwf Hcs Hne Hdesc.
  destruct (hash_directories_of_a_tree fs cs es Hwf Hcs Hdesc)
    as (al & m & Hrun & Hwalked).
  exists al, m. split; [|done].
  unfold walk_and_compute_sha1_from_directory.
  fold (stripped (abs_path cs)). rewrite stripped_abs_path by done.
  unfold mbind, St_bind. by rewrite Hrun.
Qed.

(** The dictionary a successful full walk returns. *)
Lemma walk_root_inv fs cs (idx : index) fs' :
  well_formed fs = true → valid_names cs → cs ≠ [] →
  walk_and_compute_sha1_from_directory fs (abs_path cs) dir_ok_fn true false
  = (Ok idx, fs') →
  ∃ es all_links (m : index),
    fs' = fs
    ∧ descend fs cs = Some (Dir es)
    ∧ dir_ok_fn (abs_path cs) = true
    ∧ walked dir_ok_fn cs (Dir es) ∅ ∅ all_links m
    ∧ idx = <[ROOT_TREE_KEY :=
                Lst [tree_entry (abs_path cs)
                                (dir_entries dir_ok_fn (abs_path cs) (Dir es))]]> m.
Proof.
  intros Hwf Hcs Hne Hwalk.
  destruct (walk_returns _ _ _ _ _ _ _ Hwalk) as (Hfs & m & Hhash & s & Hs & ->).
  injection Hfs as <-.
  rewrite stripped_abs_path in * by done.
  destruct (descend fs cs) as [[data x|target d|es]|] eqn:Hdesc.
  1,2,4: rewrite gen_dir_gen_from, resolve_abs_path, Hdesc in Hhash by done;
         injection Hhash as <-; by rewrite lookup_empty in Hs.
  destruct (hash_directories_of_a_tree fs cs es Hwf Hcs Hdesc)
    as (al & m' & Hrun & Hwalked).
  rewrite Hhash in Hrun. injection Hrun as <-.
  destruct Hwalked as (Hm & Hi & Hii & Hiii & Hrest).
  assert (Hok : dir_ok_fn (abs_path cs) = true).
  { destruct (Hiii (abs_path cs) ltac:(eauto)) as [[? Hnone]|(? & ? & _ & _ & ?)];
      [by rewrite lookup_empty in Hnone|done]. }
  exists es, al, m. split; [done|]. split; [done|]. split; [done|].
  split; [done|].
  specialize (Hi [] es eq_refl). rewrite app_nil_r in Hi.
  rewrite (Hi Hok) in Hs. by injection Hs as <-.
Qed.

End WalkOfTheRoot.

(** ** Cascading removal: where it reaches *)

Section RemovalReach.

Context `{SetOrder}.

Lemma remove_path_reach dir_ok_fn path queue (objects : index) :
  ∃ queue' objects',
    remove_path dir_ok_fn path queue objects = (Ok queue', objects')
    ∧ (∀ q, q ∈ queue' →
            q ∈ queue
            ∨ (∃ s e, objects !! path = Some s ∧ e ∈ items s
                      ∧ e_type e = GitType.TREE ∧ q = e_path e)
            ∨ (q = os_path.dirname path ∧ dir_ok_fn q = false))
    ∧ (∀ k, k ≠ path → k ≠ os_path.dirname path →
            objects' !! k = objects !! k).
Proof.
  unfold remove_path.
  set (queue1 := match objects !! path with
                 | Some s => if truthy s then fold_left _ (items s) queue else queue
                 | None => queue
                 end).
  assert (Hq1 : ∀ q, q ∈ queue1 →
                     q ∈ queue
                     ∨ ∃ s e, objects !! path = Some s ∧ e ∈ items s
                              ∧ e_type e = GitType.TREE ∧ q = e_path e).
  { subst queue1. intros q. destruct (objects !! path) as [s|]; [|by left].
    destruct (truthy s); [|by left].
    assert (Hfold : ∀ (l : list entry) (acc : gset string),
               q ∈ fold_left (fun acc child =>
                                if decide (e_type child = GitType.TREE)
                                then acc ∪ {[e_path child]} else acc) l acc →
               q ∈ acc ∨ ∃ e, e ∈ l ∧ e_type e = GitType.TREE ∧ q = e_path e).
    { induction l as [|e l IH]; intros acc; simpl; [by left|].
      intros Hq. destruct (IH _ Hq) as [Hacc|(e' & ? & ? & ?)].
      - destruct (decide (e_type e = GitType.TREE)); [|by left].
        apply elem_of_union in Hacc as [?| ->%elem_of_singleton]; [by left|].
        right. exists e. split; [left|done].
      - right. exists e'. split; [by right|done]. }
    intros Hq. destruct (Hfold _ _ Hq) as [?|(e & ? & ? & ?)]; [by left|].
    right. by exists s, e. }
  assert (Hdel : ∀ k, k ≠ path → delete path objects !! k = objects !! k).
  { intros k Hk. by rewrite lookup_delete_ne. }
  destruct (negb (dir_ok_fn (os_path.dirname path))
            && bool_decide (os_path.dirname path ∉ queue1)) eqn:Hc.
  - eexists _, _. split; [done|]. split; [|by intros; apply Hdel].
    intros q [Hq| ->%elem_of_singleton]%elem_of_union.
    + destruct (Hq1 q Hq); eauto.
    + right; right. split; [done|].
      apply andb_true_iff in Hc as [Hc _]. by apply negb_true_iff in Hc.
  - destruct (delete path objects !! os_path.dirname path) as [s|] eqn:Hp;
      [destruct (truthy s)|];
      (eexists _, _; split; [done|]; split;
       [intros q Hq; destruct (Hq1 q Hq); eauto|]).
    + intros k Hk1 Hk2. rewrite lookup_insert_ne by done. by apply Hdel.
    + by intros; apply Hdel.
    + by intros; apply Hdel.
Qed.

Lemma remove_paths_reach dir_ok_fn rootpaths queue (objects : index) :
  ∃ queue' objects',
    remove_paths dir_ok_fn rootpaths queue objects = (Ok queue', objects')
    ∧ (∀ q, q ∈ queue' →
            q ∈ queue
            ∨ (∃ p s e, p ∈ rootpaths ∧ objects !! p = Some s ∧ e ∈ items s
                        ∧ e_type e = GitType.TREE ∧ q = e_path e)
            ∨ (∃ p, p ∈ rootpaths ∧ q = os_path.dirname p
                    ∧ dir_ok_fn q = false))
    ∧ (∀ k, (∀ p, p ∈ rootpaths → k ≠ p ∧ k ≠ os_path.dirname p) →
            objects' !! k = objects !! k)
    ∧ shrinks objects objects'.
Proof.
  revert queue objects.
  induction rootpaths as [|path l IH]; intros queue objects.
  { eexists _, _. split; [done|]. split; [by left|]. split; [done|].
    apply shrinks_refl. }
  destruct (remove_path_reach dir_ok_fn path queue objects)
    as (queue1 & objects1 & Hrun1 & Hq1 & Hk1).
  pose proof (remove_path_shrinks dir_ok_fn path queue objects) as Hs1.
  rewrite Hrun1 in Hs1. cbn [snd] in Hs1.
  destruct (IH queue1 objects1) as (queue2 & objects2 & Hrun2 & Hq2 & Hk2 & Hs2).
  exists queue2, objects2. split.
  { cbn [remove_paths]. unfold mbind, St_bind. by rewrite Hrun1. }
  split; [|split].
  - intros q Hq.
    destruct (Hq2 q Hq) as [Hin|[(p & s & e & Hp & Hs & He & Ht & ->)
                                |(p & Hp & -> & Hrej)]].
    + destruct (Hq1 q Hin) as [?|[(s & e & ? & ? & ? & ?)|[-> ?]]]; [by left| |].
      * right; left. exists path, s, e. split; [left|done].
      * right; right. exists path. split; [left|done].
    + right; left. destruct (Hs1 _ _ Hs) as (s0 & Hs0 & Hitems).
      exists p, s0, e. split; [by right|]. split; [done|].
      split; [by rewrite <- Hitems|done].
    + right; right. exists p. split; [by right|done].
  - intros k Hk. rewrite Hk2, Hk1.
    + done.
    + apply (Hk path). left.
    + apply (Hk path). left.
    + intros p Hp. apply Hk. by right.
  - by eapply shrinks_trans.
Qed.

(** Removal of paths that satisfy [Q], when [Q] goes over to the tree
    children stored at such paths and to the rejected parents, and the
    filter accepts every [Q] path that is its own parent: it ends, and
    leaves alone what is neither a [Q] path nor the parent of one. *)
Lemma removal_reach (Q : bytes → Prop) dir_ok_fn :
  (∀ p, Q p → os_path.dirname p = p → dir_ok_fn p = true) →
  (∀ p, Q p → dir_ok_fn (os_path.dirname p) = false → Q (os_path.dirname p)) →
  ∀ n m rootpaths (objects : index),
    (size (dom objects) ≤ n)%nat →
    Forall (fun p => (String.length p ≤ m)%nat) rootpaths →
    Forall Q rootpaths →
    (∀ k s e, Q k → objects !! k = Some s → e ∈ items s →
              e_type e = GitType.TREE → Q (e_path e)) →
    ∃ fuel objects',
      __remove_paths_from_objects fuel rootpaths dir_ok_fn objects
      = (Ok tt, objects')
      ∧ (∀ k, ¬ Q k → (∀ p, Q p → k ≠ os_path.dirname p) →
              objects' !! k = objects !! k)
      ∧ shrinks objects objects'.
Proof.
  intros Hfix Hparent n. induction n as [n IHn] using lt_wf_ind.
  intros m. induction m as [m IHm] using lt_wf_ind.
  intros rootpaths objects Hsize Hlen HQ Hentries.
  destruct (remove_paths_reach dir_ok_fn rootpaths ∅ objects)
    as (queue & objects1 & Hrun & Hq & Hk & Hshr).
  destruct (remove_paths_spec dir_ok_fn rootpaths ∅ objects)
    as (queue' & objects1' & Hrun' & Hdom & _ & _).
  rewrite Hrun in Hrun'. injection Hrun' as <- <-.
  rewrite Forall_forall in HQ.
  assert (Hkeep : ∀ k, ¬ Q k → (∀ p, Q p → k ≠ os_path.dirname p) →
                       objects1 !! k = objects !! k).
  { intros k HnQ Hnp. apply Hk. intros p Hp. split.
    - intros ->. by apply HnQ, HQ.
    - by apply Hnp, HQ. }
  destruct (decide (queue = ∅)) as [Hempty|Hnonempty].
  { exists 1, objects1. cbn [__remove_paths_from_objects].
    unfold mbind, St_bind. rewrite Hrun.
    by rewrite bool_decide_eq_false_2 by (by intros ?). }
  assert (HQqueue : Forall Q (set_iter queue)).
  { apply Forall_forall. intros q Hin%set_iter_elem.
    destruct (Hq q Hin) as [Hin0|[(p & s & e & Hp & Hs & He & Ht & ->)
                                 |(p & Hp & -> & Hrej)]].
    - set_solver.
    - by apply (Hentries p s e); [apply HQ|..].
    - by apply Hparent; [apply HQ|]. }
  assert (Hentries1 : ∀ k s e, Q k → objects1 !! k = Some s → e ∈ items s →
                               e_type e = GitType.TREE → Q (e_path e)).
  { intros k s e HQk Hs He Ht. destruct (Hshr _ _ Hs) as (s0 & Hs0 & Hitems).
    rewrite Hitems in He. by eapply Hentries. }
  assert (Hle : dom objects1 ⊆ dom objects) by (rewrite Hdom; set_solver).
  assert (Hnext : ∃ fuel objects',
             __remove_paths_from_objects fuel (set_iter queue) dir_ok_fn objects1
             = (Ok tt, objects')
             ∧ (∀ k, ¬ Q k → (∀ p, Q p → k ≠ os_path.dirname p) →
                     objects' !! k = objects1 !! k)
             ∧ shrinks objects1 objects').
  { destruct (decide (dom objects1 = dom objects)) as [Heq|Hne].
    - assert (Hshort : Forall (fun q => (String.length q ≤ m - 1 ∧ 1 ≤ m)%nat)
                              (set_iter queue)).
      { apply Forall_forall. intros q Hin%set_iter_elem.
        destruct (Hq q Hin) as [Hin0|[(p & s & e & Hp & Hs & _)
                                     |(p & Hp & -> & Hrej)]].
        - set_solver.
        - exfalso. apply elem_of_dom_2 in Hs.
          assert (p ∉ dom objects1) by (rewrite Hdom; set_solver).
          congruence.
        - rewrite Forall_forall in Hlen. specialize (Hlen p Hp).
          destruct (dirname_shorter p) as [Heqp|Hlt]; [|lia].
          rewrite Heqp in Hrej. rewrite Hfix in Hrej; [done|by apply HQ|done]. }
      destruct (set_iter queue) as [|q0 l] eqn:Hiter.
      { exfalso. apply Hnonempty. apply set_eq. intros x.
        rewrite <- set_iter_elem, Hiter. set_solver. }
      assert (1 ≤ m)%nat by (by inversion Hshort as [|? ? [_ ?]]).
      apply (IHm (m - 1)); [lia| | |done|done].
      + etrans; [|exact Hsize]. by apply subseteq_size.
      + eapply Forall_impl; [exact Hshort|]. by intros ? [? _].
    - apply (IHn (size (dom objects1))) with (m := max_len (set_iter queue));
        [|done|apply max_len_bound|done|done].
      eapply Nat.lt_le_trans; [|exact Hsize].
      apply subset_size. set_solver. }
  destruct Hnext as (fuel & objects' & Hrec & Hkeep' & Hshr').
  exists (S fuel), objects'. split; [|split].
  - cbn [__remove_paths_from_objects].
    unfold mbind, St_bind. rewrite Hrun.
    by rewrite bool_decide_eq_true_2.
  - intros k HnQ Hnp. rewrite Hkeep', Hkeep; done.
  - by eapply shrinks_trans.
Qed.


End RemovalReach.

(** ** Two trees that differ inside some directories only *)










(** ** Recomputation along the path from a directory up to the root *)

Lemma Forall_removelast {A} (P : A → Prop) (l : list A) :
  Forall P l → Forall P (removelast l).
Proof.
  intros Hl. destruct (decide (l = [])) as [->|Hne]; [done|].
  destruct (exists_last Hne) as (l' & x & ->).
  rewrite removelast_last. by apply Forall_app in Hl as [? _].
Qed.

Section RecomputeChain.

Context `{DigestDelegate}.
Variable dir_ok_fn : bytes → bool.

(** What the loop of [recompute_sha1_in_memory] puts in place of an
    entry: a tree entry gets the digest of the list now stored at its
    path, any other entry stays. *)
Definition refreshed (objects : index) (e : entry) : entry :=
  if decide (e_type e = GitType.TREE)
  then tree_entry (e_path e) (from_option items [] (objects !! e_path e))
  else e.

Lemma recompute_files_run top (objects0 : index) files :
  (∀ e, e ∈ files → e_type e = GitType.TREE →
        e_path e ≠ top ∧ ∃ l, objects0 !! e_path e = Some (Lst l)) →
  ∀ ls (objects : index),
    (∀ k, k ≠ top → objects !! k = objects0 !! k) →
    ∃ objects',
      recompute_files top files ls objects = (Ok tt, objects')
      ∧ (∀ k, k ≠ top → objects' !! k = objects0 !! k)
      ∧ objects' !! top
        = match files with
          | [] => objects !! top
          | _ => Some (Lst (ls ++ map (refreshed objects0) files)%list)
          end.
Proof.
  induction files as [|e files IH]; intros Hfiles ls objects Hsame.
  { by exists objects. }
  assert (Hentry : recompute_entry e objects = (Ok (refreshed objects0 e), objects)).
  { unfold recompute_entry, refreshed.
    destruct (decide (e_type e = GitType.TREE)) as [Ht|_]; [|done].
    destruct (Hfiles e ltac:(left) Ht) as (Hne & l & Hl).
    unfold compute_tree_metadata, compute_directory_git_sha1, mbind, St_bind.
    by rewrite (Hsame _ Hne), Hl. }
  destruct (IH (fun e' He' => Hfiles e' ltac:(by right))
               (ls ++ [refreshed objects0 e])%list
               (<[top := Lst (ls ++ [refreshed objects0 e])%list]> objects))
    as (objects' & Hrun & Hkeep & Htop).
  { intros k Hk. rewrite lookup_insert_ne by done. by apply Hsame. }
  exists objects'. split; [|split; [done|]].
  - cbn [recompute_files]. unfold mbind, St_bind at 1. rewrite Hentry.
    unfold set_item, mbind, St_bind. exact Hrun.
  - rewrite Htop. destruct files as [|e' files'].
    + rewrite lookup_insert_eq. done.
    + by rewrite <- app_assoc.
Qed.

Lemma recompute_level_run top (objects : index) files :
  objects !! top = Some (Lst files) →
  (∀ e, e ∈ files → e_type e = GitType.TREE →
        e_path e ≠ top ∧ ∃ l, objects !! e_path e = Some (Lst l)) →
  ∃ objects',
    recompute_level top objects = (Ok tt, objects')
    ∧ (∀ k, k ≠ top → objects' !! k = objects !! k)
    ∧ objects' !! top = Some (Lst (map (refreshed objects) files)).
Proof.
  intros Htop Hfiles.
  destruct (recompute_files_run top objects files Hfiles [] objects)
    as (objects' & Hrun & Hkeep & Hval); [done|].
  exists objects'. split; [|split; [done|]].
  - unfold recompute_level. by rewrite Htop.
  - rewrite Hval. by destruct files.
Qed.










End RecomputeChain.

Section RecomputeATree.

Context `{DigestDelegate}.
Variable dir_ok_fn : bytes → bool.












End RecomputeATree.

Section RecomputeUpwards.

Context `{DigestDelegate}.
Variable dir_ok_fn : bytes → bool.


End RecomputeUpwards.

(** ** The update after changes below the root *)






Section RecomputeAfterWalk.

Context `{DigestDelegate}.
Variable dir_ok_fn : bytes → bool.


End RecomputeAfterWalk.

Section UpdateAfterChanges.

Context `{DigestDelegate} `{SetOrder}.
Variable dir_ok_fn : bytes → bool.



End UpdateAfterChanges.

Section UpdateIsAWalk.

Context `{DigestDelegate} `{SetOrder}.
Variable dir_ok_fn : bytes → bool.


End UpdateIsAWalk.

(** * Further properties *)

(** ** The update against the full walk *)


Section FurtherWitnesses.

Import Sample.




End FurtherWitnesses.

(** ** commonpath *)

Lemma common_prefix_longest s1 :
  ∀ s2 c d, common_prefix s1 s2 = Ok c →
            d `prefix_of` s1 → d `prefix_of` s2 → d `prefix_of` c.
Proof.
  induction s1 as [|a s1 IH]; intros s2 c d Hc H1 H2.
  - injection Hc as <-. done.
  - destruct s2 as [|b s2]; [done|]. cbn [common_prefix] in Hc.
    destruct d as [|x d]; [apply prefix_nil|].
    apply prefix_cons_inv_1 in H1 as Hxa. apply prefix_cons_inv_2 in H1.
    apply prefix_cons_inv_1 in H2 as Hxb. apply prefix_cons_inv_2 in H2.
    subst a b. rewrite String.eqb_refl in Hc.
    destruct (common_prefix s1 s2) as [r| |] eqn:Hr; [|done..].
    injection Hc as <-. apply prefix_cons. by eapply IH.
Qed.

Lemma remove_dups_const (b : bool) (l : list bool) :
  l ≠ [] → Forall (fun x => x = b) l → remove_dups l = [b].
Proof.
  induction l as [|x l IH]; [done|]. intros _ Hall.
  inversion_clear Hall as [|? ? -> Hl]. simpl.
  match goal with
  | |- context [decide_rel ?R ?x ?k] => destruct (decide_rel R x k) as [Hin|Hin]
  end.
  - apply IH; [|done]. intros ->. inversion Hin.
  - destruct l as [|b' l]; [done|].
    inversion_clear Hl as [|? ? -> _]. exfalso. apply Hin. left.
Qed.

(** X2. [commonpath] of a sequence that is not empty and whose paths
    are all absolute, or all relative, returns, and what it returns is
    the longest common sub-path: the join, after [/] for absolute paths,
    of the longest list of components that starts the components of
    every path (empty components and [.] left out). *)
Theorem commonpath_is_the_longest_common_subpath (paths : list bytes) isabs :
  paths ≠ [] →
  Forall (fun p => startswith_sep p = isabs) paths →
  ∃ common,
    commonpath paths = Ok ((if isabs then "/" else "") ++ join_sep common)
    ∧ (∀ p, p ∈ paths → common `prefix_of` components p)
    ∧ (∀ d, (∀ p, p ∈ paths → d `prefix_of` components p) →
            d `prefix_of` common).
Proof.
  intros Hne Hall. destruct paths as [|p0 ps]; [done|].
  unfold commonpath.
  rewrite (remove_dups_const isabs); [|done|by apply Forall_fmap].
  cbv zeta.
  destruct (py_min_spec (components p0) (map components ps)) as [Hmin_in Hmin].
  destruct (py_max_spec (components p0) (map components ps)) as [Hmax_in Hmax].
  pose proof (Hmin _ Hmax_in) as Hle.
  destruct (common_prefix_spec _ _ Hle) as (c & Hc & Hpre & Hmid).
  change (components p0 :: map components ps)
    with (map components (p0 :: ps)) in *.
  exists c. split; [by rewrite Hc|]. split.
  - intros p Hp. apply Hmid.
    + apply Hmin. by apply list_elem_of_fmap_2.
    + apply Hmax. by apply list_elem_of_fmap_2.
  - intros d Hd.
    apply list_elem_of_fmap in Hmin_in as (p1 & Hp1 & Hin1).
    apply list_elem_of_fmap in Hmax_in as (p2 & Hp2 & Hin2).
    apply (common_prefix_longest _ _ _ _ Hc).
    + rewrite Hp1. by apply Hd.
    + rewrite Hp2. by apply Hd.
Qed.

Lemma commonpath_is_the_longest_common_subpath_witness :
  ∃ common,
    commonpath ["/r/a/b"; "/r//a/c"; "/r/./a"] = Ok ("/" ++ join_sep common)
    ∧ (∀ p, p ∈ ["/r/a/b"; "/r//a/c"; "/r/./a"] → common `prefix_of` components p)
    ∧ (∀ d, (∀ p, p ∈ ["/r/a/b"; "/r//a/c"; "/r/./a"] →
                  d `prefix_of` components p) →
            d `prefix_of` common).
Proof.
  apply (commonpath_is_the_longest_common_subpath
           ["/r/a/b"; "/r//a/c"; "/r/./a"] true).
  - discriminate.
  - repeat constructor.
Defined.

(** ** The walker on a well-formed tree *)

Section WalkerOnATree.

Context `{DigestDelegate}.
Variable dir_ok_fn : bytes → bool.

Lemma walk_root fs cs es :
  well_formed fs = true → valid_names cs → cs ≠ [] →
  descend fs cs = Some (Dir es) → dir_ok_fn (abs_path cs) = true →
  ∃ all_links (m : index),
    walk_and_compute_sha1_from_directory fs (abs_path cs) dir_ok_fn true false
    = (Ok (<[ROOT_TREE_KEY :=
               Lst [tree_entry (abs_path cs)
                               (dir_entries dir_ok_fn (abs_path cs) (Dir es))]]>
             m), fs)
    ∧ walked dir_ok_fn cs (Dir es) ∅ ∅ all_links m.
Proof.
  intros Hwf Hcs Hne Hdesc Hok.
  destruct (hash_directories_of_a_tree dir_ok_fn fs cs es Hwf Hcs Hdesc)
    as (al & m & Hrun & Hwalked).
  exists al, m. split; [|done].
  destruct Hwalked as (_ & Hi & _).
  specialize (Hi [] es eq_refl). rewrite app_nil_r in Hi. specialize (Hi Hok).
  unfold walk_and_compute_sha1_from_directory.
  fold (stripped (abs_path cs)). rewrite stripped_abs_path by done.
  unfold mbind, St_bind. rewrite Hrun.
  unfold root_tree, compute_directory_git_sha1, mbind, St_bind. by rewrite Hi.
Qed.

Lemma dir_entries_tree_eq top es e :
  e ∈ dir_entries dir_ok_fn top (Dir es) → e_type e = GitType.TREE →
  ∃ name es', (name, Dir es') ∈ es
              ∧ dir_ok_fn (os_path.join top name) = true
              ∧ e = tree_entry (os_path.join top name)
                               (dir_entries dir_ok_fn (os_path.join top name)
                                            (Dir es')).
Proof.
  rewrite dir_entries_unfold. unfold entries_with.
  intros [Hin|[Hin|Hin]%elem_of_app]%elem_of_app Ht.
  - exfalso. revert Hin.
    generalize (listed_files es ++ listed_dirs dir_ok_fn top es)%list.
    intros l. unfold links_of. induction l as [|[name c] l IH]; [by inversion 1|].
    destruct c; cbn [flat_map app]; try exact IH.
    intros [->|Hin]%elem_of_cons; [done|by apply IH].
  - exfalso. revert Hin. generalize (listed_files es).
    intros l. unfold blobs_of. induction l as [|[name c] l IH]; [by inversion 1|].
    destruct c; cbn [flat_map app]; try exact IH.
    intros [->|Hin]%elem_of_cons; [done|by apply IH].
  - assert (Hl : ∀ l, e ∈ trees_with (dir_entries dir_ok_fn) top l →
                      ∃ name es', (name, Dir es') ∈ l
                                  ∧ e = tree_entry (os_path.join top name)
                                          (dir_entries dir_ok_fn
                                             (os_path.join top name) (Dir es'))).
    { unfold trees_with. induction l as [|[name c] l IH]; [by inversion 1|].
      destruct c as [| |es']; cbn [flat_map app].
      - intros (n & es' & ? & ?)%IH. exists n, es'. split; [by right|done].
      - intros (n & es' & ? & ?)%IH. exists n, es'. split; [by right|done].
      - intros [->|(n & es'' & ? & ?)%IH]%elem_of_cons.
        + exists name, es'. split; [left|done].
        + exists n, es''. split; [by right|done]. }
    destruct (Hl _ Hin) as (name & es' & Hin' & Heq).
    apply elem_of_List_filter in Hin' as [Hin' Hc]. cbn [fst snd] in Hc.
    exists name, es'. by split; [|split].
Qed.

End WalkerOnATree.

(** X3. The full walk, without the removal of empty folders, of a
    directory of a well-formed tree that the filter accepts, given by
    its absolute path in normal form: it returns, with the tree as it
    was; every directory at or below the root whose own path the filter
    accepts is a key, and its list is made of its links (a link to a
    directory only when the filter accepts the path of the link), then
    its files, then a tree entry for each subdirectory the filter
    accepts, with the digest of that subdirectory's own list; there is
    no other key but the sentinel, which holds the tree entry of the
    root. *)
Theorem walk_of_a_directory_tree `{DigestDelegate} dir_ok_fn fs cs es :
  well_formed fs = true → valid_names cs → cs ≠ [] →
  descend fs cs = Some (Dir es) → dir_ok_fn (abs_path cs) = true →
  ∃ m : index,
    walk_and_compute_sha1_from_directory fs (abs_path cs) dir_ok_fn true false
    = (Ok (<[ROOT_TREE_KEY :=
               Lst [tree_entry (abs_path cs)
                               (dir_entries dir_ok_fn (abs_path cs) (Dir es))]]>
             m), fs)
    ∧ (∀ rel es', descend (Dir es) rel = Some (Dir es') →
                  dir_ok_fn (abs_path (cs ++ rel)) = true →
                  m !! abs_path (cs ++ rel)
                  = Some (Lst (dir_entries dir_ok_fn (abs_path (cs ++ rel))
                                           (Dir es'))))
    ∧ (∀ k, is_Some (m !! k) →
            ∃ rel es', k = abs_path (cs ++ rel)
                       ∧ descend (Dir es) rel = Some (Dir es')
                       ∧ dir_ok_fn k = true).
Proof.
  intros Hwf Hcs Hne Hdesc Hok.
  destruct (walk_root dir_ok_fn fs cs es Hwf Hcs Hne Hdesc Hok)
    as (al & m & Hwalk & _ & Hi & _ & Hiii & _).
  exists m. split; [done|]. split; [done|].
  intros k Hk. destruct (Hiii k Hk) as [[? Hnone]|?]; [|done].
  by rewrite lookup_empty in Hnone.
Qed.

(** X4. In the dictionary a full walk of a well-formed tree returns,
    every tree entry carries the digest of the list stored under the
    entry's own path, the entry of the sentinel included. *)
Theorem walked_index_is_consistent `{DigestDelegate} dir_ok_fn fs cs
        (idx : index) fs' :
  well_formed fs = true → valid_names cs → cs ≠ [] →
  walk_and_compute_sha1_from_directory fs (abs_path cs) dir_ok_fn true false
  = (Ok idx, fs') →
  ∀ k s e, idx !! k = Some s → e ∈ items s → e_type e = GitType.TREE →
           ∃ l, idx !! e_path e = Some (Lst l)
                ∧ e_sha1_git e = directory_sha1 l.
Proof.
  intros Hwf Hcs Hne Hwalk.
  destruct (walk_root_inv dir_ok_fn fs cs idx fs' Hwf Hcs Hne Hwalk)
    as (es & al & m & _ & Hdesc & Hok & Hwalked & ->).
  destruct Hwalked as (_ & Hi & _ & Hiii & _).
  destruct (descend_well_formed _ _ _ Hwf Hdesc) as [_ Hwfr].
  intros k s e Hk He Ht.
  destruct (decide (k = ROOT_TREE_KEY)) as [->|Hnk].
  - rewrite lookup_insert_eq in Hk. injection Hk as <-.
    cbn [items] in He. apply list_elem_of_singleton in He as ->.
    exists (dir_entries dir_ok_fn (abs_path cs) (Dir es)).
    split; [|done]. cbn [e_path tree_entry].
    rewrite lookup_insert_ne by done.
    specialize (Hi [] es eq_refl). rewrite app_nil_r in Hi. by apply Hi.
  - rewrite lookup_insert_ne in Hk by done.
    destruct (Hiii k ltac:(eauto)) as [[? Hnone]|(rel & es' & -> & Hrel & Hokk)];
      [by rewrite lookup_empty in Hnone|].
    rewrite (Hi rel es' Hrel Hokk) in Hk. injection Hk as <-. cbn [items] in He.
    destruct (dir_entries_tree_eq dir_ok_fn _ _ _ He Ht)
      as (name & es'' & Hin & Hokn & ->).
    destruct (descend_well_formed _ _ _ Hwfr Hrel) as [Hvrel Hwf'].
    destruct (well_formed_Dir _ Hwf') as (Hnd & Hval & _).
    rewrite Forall_forall in Hval. pose proof (Hval _ Hin) as Hname.
    cbn [fst] in Hname.
    assert (Hv : valid_names (cs ++ rel)) by (by apply Forall_app).
    rewrite join_abs_path in * by done.
    exists (dir_entries dir_ok_fn (abs_path ((cs ++ rel) ++ [name])) (Dir es'')).
    split; [|done]. cbn [e_path tree_entry].
    rewrite lookup_insert_ne by done. rewrite <- app_assoc in *.
    apply Hi; [|done].
    rewrite descend_app, Hrel. cbn [mbind option_bind descend].
    by rewrite (lookup_name_NoDup name _ _ Hnd Hin).
Qed.

Section WalkerWitnesses.

Import Sample.

Lemma walk_of_a_directory_tree_witness :
  ∃ m : index,
    walk_and_compute_sha1_from_directory fs0 (abs_path ["r"]) all_ok true false
    = (Ok (<[ROOT_TREE_KEY :=
               Lst [tree_entry
                      (abs_path ["r"])
                      (dir_entries
                         all_ok (abs_path ["r"])
                         (Dir [("a", Dir [("b", Dir [("file.txt",
                                                      File "foo" false)])]);
                               ("c.txt", File "bar" false)]))]]>
             m), fs0)
    ∧ (∀ rel es',
         descend (Dir [("a", Dir [("b", Dir [("file.txt", File "foo" false)])]);
                       ("c.txt", File "bar" false)]) rel = Some (Dir es') →
         all_ok (abs_path (["r"] ++ rel)) = true →
         m !! abs_path (["r"] ++ rel)
         = Some (Lst (dir_entries all_ok (abs_path (["r"] ++ rel)) (Dir es'))))
    ∧ (∀ k, is_Some (m !! k) →
            ∃ rel es',
              k = abs_path (["r"] ++ rel)
              ∧ descend (Dir [("a", Dir [("b", Dir [("file.txt",
                                                     File "foo" false)])]);
                              ("c.txt", File "bar" false)]) rel
                = Some (Dir es')
              ∧ all_ok k = true).
Proof.
  apply (walk_of_a_directory_tree all_ok fs0 ["r"]).
  - reflexivity.
  - repeat constructor.
  - discriminate.
  - reflexivity.
  - reflexivity.
Defined.

Lemma walked_index_is_consistent_witness :
  ∃ s e,
    index0 !! ROOT_TREE_KEY = Some s ∧ e ∈ items s ∧ e_type e = GitType.TREE
    ∧ ∃ l, index0 !! e_path e = Some (Lst l) ∧ e_sha1_git e = directory_sha1 l.
Proof.
  do 2 eexists. split; [vm_compute; reflexivity|].
  split; [left|]. split; [reflexivity|].
  eapply (fun Hwf Hcs Hne Hwalk =>
            walked_index_is_consistent all_ok fs0 ["r"] index0 fs0
                                       Hwf Hcs Hne Hwalk ROOT_TREE_KEY).
  - reflexivity.
  - repeat constructor.
  - discriminate.
  - vm_compute. reflexivity.
  - vm_compute. reflexivity.
  - left.
  - reflexivity.
Defined.

End WalkerWitnesses.

(** ** The walker on a root that is no directory, or that the filter rejects *)

Section WalkerEdges.

Context `{DigestDelegate}.
Variable dir_ok_fn : bytes → bool.

Lemma gen_dir_nothing fs rootdir :
  (∀ es, resolve fs rootdir ≠ Some (Dir es)) →
  gen_dir fs rootdir dir_ok_fn = [].
Proof.
  intros Hno. rewrite gen_dir_gen_from.
  destruct (resolve fs rootdir) as [[| |es]|]; [done..| |done].
  by destruct (Hno es).
Qed.

Lemma endswith_rstrip_sep s : endswith_sep (rstrip_sep s) = false.
Proof.
  induction s as [|c s IH]; [done|]. cbn [rstrip_sep].
  destruct (rstrip_sep s) as [|a r].
  - destruct (is_sep c) eqn:Hc; [done|]. cbn [endswith_sep]. exact Hc.
  - exact IH.
Qed.

Lemma rstrip_sep_unchanged s : endswith_sep s = false → rstrip_sep s = s.
Proof.
  induction s as [|c s IH]; [done|]. intros Hend. cbn [rstrip_sep].
  destruct s as [|a t].
  - cbn [endswith_sep] in Hend. cbn [rstrip_sep]. by rewrite Hend.
  - rewrite IH by exact Hend. done.
Qed.

Lemma stripped_rstrip_sep rootdir : stripped (rstrip_sep rootdir) = stripped rootdir.
Proof.
  unfold stripped. rewrite endswith_rstrip_sep.
  destruct (endswith_sep rootdir) eqn:Hend; [done|].
  by rewrite rstrip_sep_unchanged.
Qed.

End WalkerEdges.

Lemma walk_finds_nothing `{DigestDelegate} dir_ok_fn fs rootdir prune :
  (∀ es, resolve fs (stripped rootdir) ≠ Some (Dir es)) →
  walk_and_compute_sha1_from_directory fs rootdir dir_ok_fn true prune
  = (Raise KeyError, fs)
  ∧ walk_and_compute_sha1_from_directory fs rootdir dir_ok_fn false prune
    = (Ok ∅, fs).
Proof.
  intros Hno. unfold walk_and_compute_sha1_from_directory.
  fold (stripped rootdir).
  destruct prune; rewrite ?(gen_dir_nothing dir_ok_fn _ _ Hno);
    cbn [remove_empty_folders]; rewrite ?(gen_dir_nothing dir_ok_fn _ _ Hno);
    cbn [hash_directories];
    unfold root_tree, compute_directory_git_sha1, mbind, St_bind, mret, St_ret;
    by rewrite lookup_empty.
Qed.

(** Whether a symbolic link lies on the way from [cur] along [comps],
    its end included. *)
Fixpoint meets_link (cur : node) (comps : list bytes) : bool :=
  match cur with
  | Symlink _ _ => true
  | File _ _ => false
  | Dir es =>
      match comps with
      | [] => false
      | c :: cs =>
          match lookup_name c es with
          | Some n => meets_link n cs
          | None => false
          end
      end
  end.

(** X5. When [rootdir], without its trailing separators, is empty, as
    it is for [/], or is an absolute path in normal form, without [..],
    that goes through no symbolic link and ends at nothing or at a
    regular file, the walk finds nothing: asked for the entry of the
    root it raises [KeyError], otherwise it returns the empty
    dictionary; the tree is left as it is. *)
Theorem walk_of_what_is_no_directory `{DigestDelegate} dir_ok_fn fs rootdir prune :
  stripped rootdir = ""
  ∨ (∃ cs, stripped rootdir = abs_path cs
           ∧ valid_names cs ∧ Forall (fun c => c ≠ "..") cs
           ∧ meets_link fs cs = false
           ∧ ∀ es, descend fs cs ≠ Some (Dir es)) →
  walk_and_compute_sha1_from_directory fs rootdir dir_ok_fn true prune
  = (Raise KeyError, fs)
  ∧ walk_and_compute_sha1_from_directory fs rootdir dir_ok_fn false prune
    = (Ok ∅, fs).
Proof.
  intros Hroot. apply walk_finds_nothing. intros es.
  destruct Hroot as [->|(cs & -> & Hcs & _ & _ & Hno)]; [done|].
  rewrite resolve_abs_path by done. apply Hno.
Qed.

(** X6. When the filter rejects the root, given by its absolute path
    in normal form in a well-formed tree, the full walk without the
    removal of empty folders raises [KeyError]: the root is not among
    the keys when its entry is asked for. *)
Theorem walk_of_a_rejected_root `{DigestDelegate} dir_ok_fn fs cs :
  well_formed fs = true → valid_names cs → cs ≠ [] →
  dir_ok_fn (abs_path cs) = false →
  walk_and_compute_sha1_from_directory fs (abs_path cs) dir_ok_fn true false
  = (Raise KeyError, fs).
Proof.
  intros Hwf Hcs Hne Hrej.
  destruct (descend fs cs) as [[data x|target d|es]|] eqn:Hdesc.
  1,2,4: apply walk_finds_nothing; intros es;
         rewrite stripped_abs_path, resolve_abs_path, Hdesc by done; done.
  destruct (hash_directories_of_a_tree dir_ok_fn fs cs es Hwf Hcs Hdesc)
    as (al & m & Hrun & _ & _ & _ & Hiii & _).
  assert (Hnone : m !! abs_path cs = None).
  { destruct (m !! abs_path cs) as [s|] eqn:Hs; [|done].
    destruct (Hiii (abs_path cs) ltac:(eauto)) as [[? Hnone]|(? & ? & _ & _ & ?)];
      [by rewrite lookup_empty in Hnone|congruence]. }
  unfold walk_and_compute_sha1_from_directory.
  fold (stripped (abs_path cs)). rewrite stripped_abs_path by done.
  unfold mbind, St_bind. rewrite Hrun.
  unfold root_tree, compute_directory_git_sha1, mbind, St_bind. by rewrite Hnone.
Qed.

(** X7. Trailing separators of [rootdir] do not count: the walk of
    [rootdir] is the walk of [rootdir] without them. *)
Theorem walk_ignores_trailing_separators `{DigestDelegate} dir_ok_fn fs rootdir
        with_root_tree prune :
  walk_and_compute_sha1_from_directory fs rootdir dir_ok_fn with_root_tree prune
  = walk_and_compute_sha1_from_directory fs (rstrip_sep rootdir) dir_ok_fn
                                         with_root_tree prune.
Proof.
  unfold walk_and_compute_sha1_from_directory.
  fold (stripped rootdir) (stripped (rstrip_sep rootdir)).
  by rewrite stripped_rstrip_sep.
Qed.

Section WalkerEdgeWitnesses.

Import Sample.

Lemma walk_of_what_is_no_directory_witness :
  walk_and_compute_sha1_from_directory fs0 "/" all_ok true false
  = (Raise KeyError, fs0)
  ∧ walk_and_compute_sha1_from_directory fs0 "/" all_ok false false
    = (Ok ∅, fs0).
Proof.
  apply (walk_of_what_is_no_directory all_ok fs0 "/" false).
  left. reflexivity.
Defined.

Lemma walk_of_a_rejected_root_witness :
  walk_and_compute_sha1_from_directory
    fs0 (abs_path ["r"; "a"]) all_but_a true false
  = (Raise KeyError, fs0).
Proof.
  apply (walk_of_a_rejected_root all_but_a fs0 ["r"; "a"]).
  - reflexivity.
  - repeat constructor.
  - discriminate.
  - reflexivity.
Defined.

End WalkerEdgeWitnesses.

(** ** Cascading removal: what is gone afterwards *)

Section RemovalCascade.

Context `{SetOrder}.
Variable dir_ok_fn : bytes → bool.

Lemma queued_children (l : list entry) (acc : gset string) :
  acc ⊆ fold_left (fun acc child =>
                     if decide (e_type child = GitType.TREE)
                     then acc ∪ {[e_path child]} else acc) l acc
  ∧ ∀ e, e ∈ l → e_type e = GitType.TREE →
         e_path e ∈ fold_left (fun acc child =>
                                 if decide (e_type child = GitType.TREE)
                                 then acc ∪ {[e_path child]} else acc) l acc.
Proof.
  revert acc. induction l as [|e0 l IH]; intros acc; cbn [fold_left].
  - split; [done|]. by inversion 1.
  - destruct (IH (if decide (e_type e0 = GitType.TREE)
                  then acc ∪ {[e_path e0]} else acc)) as [Hsub Hin].
    split.
    + etrans; [|exact Hsub]. case_decide; set_solver.
    + intros e [->|He]%elem_of_cons Ht; [|by apply Hin].
      apply Hsub. rewrite decide_True by done. set_solver.
Qed.

(** A turn queues the tree children of the list it pops, and keeps the
    entries of every other key. *)
Lemma remove_path_queue path queue (objects : index) queue' objects' :
  remove_path dir_ok_fn path queue objects = (Ok queue', objects') →
  queue ⊆ queue'
  ∧ (∀ s e, objects !! path = Some s → truthy s = true → e ∈ items s →
            e_type e = GitType.TREE → e_path e ∈ queue')
  ∧ (∀ k s, k ≠ path → objects !! k = Some s →
            ∃ s', objects' !! k = Some s' ∧ items s' = items s
                  ∧ (truthy s = true → truthy s' = true)).
Proof.
  unfold remove_path.
  set (queue1 := match objects !! path with
                 | Some s => if truthy s then fold_left _ (items s) queue else queue
                 | None => queue
                 end).
  assert (Hq1 : queue ⊆ queue1
                ∧ ∀ s e, objects !! path = Some s → truthy s = true →
                         e ∈ items s → e_type e = GitType.TREE →
                         e_path e ∈ queue1).
  { subst queue1. destruct (objects !! path) as [s|]; [|by split].
    destruct (truthy s) eqn:Hs.
    - destruct (queued_children (items s) queue) as [Hsub Hin].
      split; [done|]. intros s0 e [= <-] _. apply Hin.
    - split; [done|]. intros s0 e [= <-]. congruence. }
  destruct Hq1 as [Hsub Hin].
  assert (Hdel : ∀ k s, k ≠ path → objects !! k = Some s →
                        delete path objects !! k = Some s).
  { intros k s Hk Hs. by rewrite lookup_delete_ne. }
  destruct (negb (dir_ok_fn (os_path.dirname path))
            && bool_decide (os_path.dirname path ∉ queue1)).
  - intros [= <- <-]. split; [set_solver|]. split.
    + intros s e Hs Ht He Hty. specialize (Hin s e Hs Ht He Hty). set_solver.
    + intros k s Hk Hs. exists s. by split; [apply Hdel|].
  - destruct (delete path objects !! os_path.dirname path) as [sp|] eqn:Hp;
      [destruct (truthy sp) eqn:Htp|]; intros [= <- <-];
      (split; [done|]; split; [done|]).
    + intros k s Hk Hs.
      destruct (decide (k = os_path.dirname path)) as [->|Hkp].
      * rewrite lookup_insert_eq. exists (py_filter_ne path sp).
        rewrite (Hdel _ _ Hk Hs) in Hp. injection Hp as <-.
        split; [done|]. split; [apply py_filter_ne_items|done].
      * rewrite lookup_insert_ne by done. exists s. by split; [apply Hdel|].
    + intros k s Hk Hs. exists s. by split; [apply Hdel|].
    + intros k s Hk Hs. exists s. by split; [apply Hdel|].
Qed.

Lemma remove_paths_queue rootpaths :
  ∀ queue (objects : index) queue' objects',
    remove_paths dir_ok_fn rootpaths queue objects = (Ok queue', objects') →
    queue ⊆ queue'
    ∧ (∀ p s e, p ∈ rootpaths → objects !! p = Some s → truthy s = true →
                e ∈ items s → e_type e = GitType.TREE → e_path e ∈ queue')
    ∧ (∀ k s, k ∉ rootpaths → objects !! k = Some s →
              ∃ s', objects' !! k = Some s' ∧ items s' = items s
                    ∧ (truthy s = true → truthy s' = true))
    ∧ (∀ p, p ∈ rootpaths → objects' !! p = None).
Proof.
  induction rootpaths as [|path l IH]; intros queue objects queue' objects'.
  { intros [= <- <-]. split; [done|]. split; [by inversion 1|].
    split; [eauto|by inversion 1]. }
  cbn [remove_paths]. unfold mbind, St_bind at 1.
  destruct (remove_path dir_ok_fn path queue objects) as [[queue1| |] objects1]
    eqn:Hrun1; [|done..].
  intros Hrun2.
  destruct (remove_path_queue _ _ _ _ _ Hrun1) as (Hsub1 & Hin1 & Hkeep1).
  destruct (IH _ _ _ _ Hrun2) as (Hsub2 & Hin2 & Hkeep2 & Hgone2).
  pose proof (remove_paths_shrinks dir_ok_fn l queue1 objects1) as Hshr.
  rewrite Hrun2 in Hshr. cbn [snd] in Hshr.
  destruct (remove_path_spec dir_ok_fn path queue objects)
    as (q0 & o0 & Hrun0 & Hdom & _).
  rewrite Hrun1 in Hrun0. injection Hrun0 as <- <-.
  split; [set_solver|]. split; [|split].
  - intros p s e Hp Hs Ht He Hty.
    destruct (decide (p = path)) as [->|Hne].
    + apply Hsub2. by eapply Hin1.
    + apply elem_of_cons in Hp as [?|Hp]; [done|].
      destruct (Hkeep1 p s Hne Hs) as (s1 & Hs1 & Hitems & Htruthy).
      apply (Hin2 p s1 e Hp Hs1); [by apply Htruthy|by rewrite Hitems|done].
  - intros k s Hk Hs.
    apply not_elem_of_cons in Hk as [Hk1 Hk2].
    destruct (Hkeep1 k s Hk1 Hs) as (s1 & Hs1 & Hitems1 & Ht1).
    destruct (Hkeep2 k s1 Hk2 Hs1) as (s2 & Hs2 & Hitems2 & Ht2).
    exists s2. split; [done|]. split; [congruence|]. auto.
  - intros p Hp. destruct (objects' !! p) as [s'|] eqn:Hs'; [|done].
    apply elem_of_cons in Hp as [->|Hp]; [|by rewrite Hgone2 in Hs'].
    destruct (Hshr _ _ Hs') as (s1 & Hs1 & _).
    apply elem_of_dom_2 in Hs1. rewrite Hdom in Hs1. set_solver.
Qed.

(** What the removal is to take away: the paths given, and the paths of
    the tree entries stored, in a list that counts as true, at a path
    that is to go. *)
Inductive doomed (objects : index) (rootpaths : list bytes) : bytes → Prop :=
| doomed_root p : p ∈ rootpaths → doomed objects rootpaths p
| doomed_child p s e :
    doomed objects rootpaths p →
    objects !! p = Some s → truthy s = true →
    e ∈ items s → e_type e = GitType.TREE →
    doomed objects rootpaths (e_path e).

Lemma removal_removes_the_doomed fuel :
  ∀ rootpaths (objects objects' : index),
    __remove_paths_from_objects fuel rootpaths dir_ok_fn objects
    = (Ok tt, objects') →
    ∀ q, doomed objects rootpaths q → objects' !! q = None.
Proof.
  induction fuel as [|fuel IH]; intros rootpaths objects objects'; [done|].
  cbn [__remove_paths_from_objects]. unfold mbind, St_bind at 1.
  destruct (remove_paths dir_ok_fn rootpaths ∅ objects) as [[queue| |] objects1]
    eqn:Hrun1; [|done..].
  destruct (remove_paths_queue _ _ _ _ _ Hrun1) as (_ & Hin & Hkeep & Hgone).
  assert (Hnext : ∀ q, doomed objects rootpaths q →
                       q ∈ rootpaths ∨ doomed objects1 (set_iter queue) q).
  { induction 1 as [p Hp|p s e Hd IHd Hs Ht He Hty]; [by left|].
    right. destruct (decide (p ∈ rootpaths)) as [Hp|Hp].
    - apply doomed_root, set_iter_elem. by eapply Hin.
    - destruct IHd as [?|Hd1]; [done|].
      destruct (Hkeep p s Hp Hs) as (s1 & Hs1 & Hitems & Htruthy).
      apply (doomed_child _ _ p s1 e); [done|done|by apply Htruthy| |done].
      by rewrite Hitems. }
  case_bool_decide as Hq.
  - intros Hrun2 q Hd.
    pose proof (remove_paths_from_objects_shrinks dir_ok_fn fuel (set_iter queue)
                                                  objects1) as Hshr.
    rewrite Hrun2 in Hshr. cbn [snd] in Hshr.
    destruct (Hnext q Hd) as [Hroot|Hd1]; [|by eapply IH].
    destruct (objects' !! q) as [s'|] eqn:Hs'; [|done].
    destruct (Hshr _ _ Hs') as (s1 & Hs1 & _). by rewrite Hgone in Hs1.
  - intros [= <-] q Hd.
    destruct (Hnext q Hd) as [Hroot|Hd1]; [by apply Hgone|].
    exfalso. assert (Hno : ∀ x, x ∉ set_iter queue).
    { intros x Hx%set_iter_elem. rewrite Hq in Hx. set_solver. }
    clear Hd.
    induction Hd1 as [p Hp|p s e Hd1 IHd Hs Ht He Hty]; [by apply (Hno p)|].
    exact IHd.
Qed.

End RemovalCascade.

(** X8. When the cascading removal returns, the paths it was given are
    no keys any more, and neither are their descendants: the paths of
    the tree entries that were stored, in a list that counts as true,
    under a path taken away. *)
Theorem removal_takes_away_paths_and_descendants `{SetOrder}
        dir_ok_fn fuel rootpaths (objects objects' : index) :
  __remove_paths_from_objects fuel rootpaths dir_ok_fn objects
  = (Ok tt, objects') →
  ∀ q, doomed objects rootpaths q → objects' !! q = None.
Proof. apply removal_removes_the_doomed. Qed.

(** X9. The cascading removal never adds a key, and never takes an
    entry out of a list it leaves in the dictionary: what is stored
    under a key afterwards yields the entries that were there before,
    also when it has become the iterator of [filter]. *)
Theorem removal_leaves_the_remaining_lists `{SetOrder}
        dir_ok_fn fuel rootpaths (objects : index) k s' :
  snd (__remove_paths_from_objects fuel rootpaths dir_ok_fn objects) !! k
  = Some s' →
  ∃ s, objects !! k = Some s ∧ items s' = items s.
Proof. apply remove_paths_from_objects_shrinks. Qed.

(** X10. Where the cascading removal reaches.  Let [Q] hold of the
    paths to remove, go over from a path to the tree entries stored
    under it and to a parent the filter rejects, and let the filter
    accept every [Q] path that is its own parent.  Then the removal
    returns, given enough fuel, and it leaves as it was every key that
    is neither a [Q] path nor the parent of one. *)
Theorem removal_stays_within_reach `{SetOrder} (Q : bytes → Prop) dir_ok_fn
        rootpaths (objects : index) :
  (∀ p, Q p → os_path.dirname p = p → dir_ok_fn p = true) →
  (∀ p, Q p → dir_ok_fn (os_path.dirname p) = false → Q (os_path.dirname p)) →
  Forall Q rootpaths →
  (∀ k s e, Q k → objects !! k = Some s → e ∈ items s →
            e_type e = GitType.TREE → Q (e_path e)) →
  ∃ fuel objects',
    __remove_paths_from_objects fuel rootpaths dir_ok_fn objects
    = (Ok tt, objects')
    ∧ ∀ k, ¬ Q k → (∀ p, Q p → k ≠ os_path.dirname p) →
           objects' !! k = objects !! k.
Proof.
  intros Hfix Hparent HQ Hentries.
  destruct (removal_reach Q dir_ok_fn Hfix Hparent (size (dom objects))
                          (max_len rootpaths) rootpaths objects)
    as (fuel & objects' & Hrun & Hfoot & _);
    [done|apply max_len_bound|done|done|].
  by exists fuel, objects'.
Qed.

Section RemovalWitnesses.

Import Sample.

Lemma removal_takes_away_paths_and_descendants_witness :
  ∃ objects' : index,
    __remove_paths_from_objects 5 ["/r/a"] all_ok index0 = (Ok tt, objects')
    ∧ ∀ q, doomed index0 ["/r/a"] q → objects' !! q = None.
Proof.
  assert (Hrun : ∃ objects' : index,
             __remove_paths_from_objects 5 ["/r/a"] all_ok index0
             = (Ok tt, objects')) by (eexists; vm_compute; reflexivity).
  destruct Hrun as [objects' Hrun]. exists objects'. split; [exact Hrun|].
  exact (removal_takes_away_paths_and_descendants
           all_ok 5 ["/r/a"] index0 objects' Hrun).
Defined.

Lemma removal_leaves_the_remaining_lists_witness :
  ∃ s' s,
    snd (__remove_paths_from_objects 5 ["/r/a/b"] all_ok index0) !! "/r/a"
    = Some s'
    ∧ index0 !! "/r/a" = Some s ∧ items s' = items s.
Proof.
  assert (Hk : ∃ s',
             snd (__remove_paths_from_objects 5 ["/r/a/b"] all_ok index0)
               !! "/r/a" = Some s') by (eexists; vm_compute; reflexivity).
  destruct Hk as [s' Hk].
  destruct (removal_leaves_the_remaining_lists
              all_ok 5 ["/r/a/b"] index0 "/r/a" s' Hk) as (s & Hs & Hitems).
  exists s', s. split; [exact Hk|]. split; [exact Hs|exact Hitems].
Defined.

Lemma removal_stays_within_reach_witness :
  ∃ fuel (objects' : index),
    __remove_paths_from_objects fuel ["/r/a/b"] all_ok index0 = (Ok tt, objects')
    ∧ ∀ k, ¬ k = "/r/a/b" → (∀ p, p = "/r/a/b" → k ≠ os_path.dirname p) →
           objects' !! k = index0 !! k.
Proof.
  apply (removal_stays_within_reach (fun p => p = "/r/a/b") all_ok
                                    ["/r/a/b"] index0).
  - intros p -> Hd. vm_compute in Hd. discriminate.
  - intros p _ Hrej. discriminate.
  - repeat constructor.
  - intros k s e -> Hs He Ht. vm_compute in Hs. injection Hs as <-.
    apply list_elem_of_singleton in He. subst e. discriminate.
Defined.

End RemovalWitnesses.

(** ** The update: edges *)

Lemma set_iter_singleton `{SetOrder} (x : string) : set_iter {[x]} = [x].
Proof.
  pose proof (set_iter_nodup {[x]}) as Hnd.
  assert (Hel : ∀ y, y ∈ set_iter {[x]} ↔ y = x).
  { intros y. rewrite set_iter_elem. set_solver. }
  destruct (set_iter {[x]}) as [|a [|b l]].
  - exfalso. by apply (elem_of_nil x), Hel.
  - f_equal. apply Hel. left.
  - exfalso. assert (a = x) as -> by (apply Hel; left).
    assert (b = x) as -> by (apply Hel; right; left).
    apply NoDup_cons in Hnd as [Hnotin _]. apply Hnotin. left.
Qed.

Lemma common_prefix_refl s : common_prefix s s = Ok s.
Proof.
  induction s as [|c s IH]; [done|]. cbn [common_prefix].
  by rewrite String.eqb_refl, IH.
Qed.

Lemma commonpath_single p : normal p → commonpath [p] = Ok p.
Proof.
  intros (cs & Hcs & ->). unfold commonpath. cbn [map remove_dups].
  cbv zeta. unfold py_min, py_max. cbn [map fold_left].
  rewrite common_prefix_refl, components_abs_path by done. done.
Qed.

Section UpdateEdges.

Context `{DigestDelegate} `{SetOrder}.
Variable dir_ok_fn : bytes → bool.

(** The sentinel holds a list whose tree entries name keys that hold
    lists. *)
Definition sentinel_settled (objects : index) : Prop :=
  ∃ files, objects !! ROOT_TREE_KEY = Some (Lst files)
           ∧ ∀ e, e ∈ files → e_type e = GitType.TREE →
                  e_path e ≠ ROOT_TREE_KEY
                  ∧ ∃ l, objects !! e_path e = Some (Lst l).

Lemma sentinel_level (objects : index) :
  sentinel_settled objects →
  ∃ objects', recompute_level ROOT_TREE_KEY objects = (Ok tt, objects')
              ∧ sentinel_settled objects'.
Proof.
  intros (files & Hfiles & Hall).
  destruct (recompute_level_run ROOT_TREE_KEY objects files Hfiles Hall)
    as (objects' & Hrun & Hkeep & Hval).
  exists objects'. split; [done|].
  exists (map (refreshed objects) files). split; [done|].
  intros e' (e & -> & He)%list_elem_of_fmap Ht.
  unfold refreshed in *. destruct (decide (e_type e = GitType.TREE)) as [Hte|Hte].
  - cbn [e_path tree_entry]. destruct (Hall e He Hte) as (Hne & l & Hl).
    split; [done|]. exists l. by rewrite Hkeep.
  - done.
Qed.

Lemma recompute_levels_never_end upper fuel :
  upper ≠ ROOT_TREE_KEY →
  ∀ objects : index,
    sentinel_settled objects →
    fst (recompute_levels fuel upper ROOT_TREE_KEY objects) = OutOfFuel.
Proof.
  intros Hupper. induction fuel as [|fuel IH]; intros objects Hs;
    cbn [recompute_levels];
    replace (ROOT_TREE_KEY =? upper) with false
      by (symmetry; apply String.eqb_neq; congruence); [done|].
  destruct (sentinel_level objects Hs) as (objects' & Hrun & Hs').
  unfold mbind, St_bind. rewrite Hrun.
  change (os_path.dirname ROOT_TREE_KEY) with ROOT_TREE_KEY. by apply IH.
Qed.

End UpdateEdges.

Lemma update_loops_on_a_bare_name `{DigestDelegate} `{SetOrder}
        dir_ok_fn fuel fs c (objects : index) prune e files :
  objects !! ROOT_TREE_KEY = Some (Lst (e :: files)) →
  (∀ e', e' ∈ e :: files → e_type e' = GitType.TREE →
         e_path e' ≠ ROOT_TREE_KEY ∧ ∃ l, objects !! e_path e' = Some (Lst l)) →
  os_path.dirname (stripped (e_path e)) ≠ "" →
  os_path.dirname (c_path c) = "" →
  c_action c ≠ "D" →
  returned (update_checksums_from fuel fs [c] objects dir_ok_fn prune)
  = OutOfFuel.
Proof.
  intros Hsent Hall Hupper Hparent Haction.
  assert (Hroot : resolved_root objects = Ok (stripped (e_path e))).
  { unfold resolved_root, root_path. by rewrite Hsent. }
  assert (Hne : stripped (e_path e) ≠ "").
  { intros Heq. by rewrite Heq in Hupper. }
  rewrite (update_unfold_root _ _ _ _ _ _ _ Hroot).
  cbn [scan_changes]. rewrite Hparent.
  replace ("" =? stripped (e_path e)) with false
    by (symmetry; apply String.eqb_neq; congruence).
  replace (c_action c =? "D") with false
    by (symmetry; by apply String.eqb_neq).
  assert (Hpaths : (∅ ∪ {[""]} : gset string) = {[""]}) by set_solver.
  rewrite Hpaths.
  rewrite bool_decide_eq_false_2 by set_solver.
  rewrite set_iter_singleton.
  change (commonpath [""]) with (Ok "" : res bytes). cbv iota beta.
  rewrite bool_decide_eq_false_2 by (by intros []).
  change ("" : bytes) with ROOT_TREE_KEY. rewrite Hsent. cbn [from_option truthy negb].
  destruct (walk_finds_nothing dir_ok_fn fs ROOT_TREE_KEY prune) as [_ Hwalk];
    [done|].
  rewrite Hwalk. cbv zeta. rewrite (left_id_L ∅ (∪)).
  unfold recompute_sha1_in_memory.
  change (os_path.dirname ROOT_TREE_KEY) with ROOT_TREE_KEY.
  pose proof (recompute_levels_never_end
                (os_path.dirname (stripped (e_path e))) fuel Hupper objects)
    as Hloop.
  unfold mbind, St_bind.
  destruct (recompute_levels fuel (os_path.dirname (stripped (e_path e)))
                             ROOT_TREE_KEY objects) as [r objects'].
  cbn [fst] in Hloop. rewrite Hloop; [done|]. by exists (e :: files).
Qed.

(** X11. A change whose path has no directory part, as [foo], makes
    [update_checksums_from] loop for ever when the directory of the
    root is not the empty path, as it is for an absolute root, and the
    sentinel holds a list whose tree entries name keys that hold lists,
    as it does after a full walk: the parent of the change is the empty
    path, which is the key of the sentinel and its own parent, so the
    loop of [recompute_sha1_in_memory] never reaches the directory of
    the root.  Whatever the fuel, the run does not end. *)
Theorem update_never_ends_on_a_bare_name `{DigestDelegate} `{SetOrder}
        dir_ok_fn fuel fs c (objects : index) prune e files :
  objects !! ROOT_TREE_KEY = Some (Lst (e :: files)) →
  (∀ e', e' ∈ e :: files → e_type e' = GitType.TREE →
         e_path e' ≠ ROOT_TREE_KEY ∧ ∃ l, objects !! e_path e' = Some (Lst l)) →
  os_path.dirname (stripped (e_path e)) ≠ "" →
  os_path.dirname (c_path c) = "" →
  c_action c ≠ "D" →
  returned (update_checksums_from fuel fs [c] objects dir_ok_fn prune)
  = OutOfFuel.
Proof. apply update_loops_on_a_bare_name. Qed.

(** X13. Without the removal of empty folders [update_checksums_from]
    leaves the filesystem as it is, whatever it is given and however it
    ends. *)
Theorem update_leaves_the_filesystem `{DigestDelegate} `{SetOrder}
        dir_ok_fn fuel fs changed_paths (objects : index) :
  fs_after (update_checksums_from fuel fs changed_paths objects dir_ok_fn false)
  = fs.
Proof.
  assert (Hfull : ∀ root objects',
             fs_after (full_walk fs root objects' dir_ok_fn false) = fs).
  { intros root objects'. unfold full_walk.
    pose proof (walk_without_pruning_keeps_fs fs root dir_ok_fn true) as Hfs.
    by destruct (walk_and_compute_sha1_from_directory fs root dir_ok_fn true false). }
  unfold update_checksums_from.
  destruct (root_path objects) as [root| |]; [|done..].
  destruct (scan_changes _ changed_paths ∅ ∅) as [|paths removes]; [apply Hfull|].
  case_bool_decide; [done|].
  destruct (commonpath (set_iter paths)) as [rootdir| |]; [|done..].
  destruct (if bool_decide (removes ≠ ∅)
            then __remove_paths_from_objects fuel (set_iter removes) dir_ok_fn
                                             objects
            else (Ok tt, objects)) as [[[]| |] objects1]; [|done..].
  destruct (negb _); [apply Hfull|].
  pose proof (walk_without_pruning_keeps_fs fs rootdir dir_ok_fn false) as Hfs.
  destruct (walk_and_compute_sha1_from_directory fs rootdir dir_ok_fn false false)
    as [[hashes| |] fs']; cbn [snd] in Hfs; subst fs'; [|done..].
  cbv zeta.
  by destruct (recompute_sha1_in_memory fuel _ rootdir (hashes ∪ objects1)).
Qed.

Section UpdateEdgeWitnesses.

Import Sample.

Lemma update_never_ends_on_a_bare_name_witness :
  returned (update_checksums_from
              7 fs0 [{| c_path := "foo"; c_action := "A" |}] index0 all_ok false)
  = OutOfFuel.
Proof.
  eapply (update_never_ends_on_a_bare_name
            all_ok 7 fs0 {| c_path := "foo"; c_action := "A" |} index0 false).
  - vm_compute. reflexivity.
  - intros e' He' _. apply list_elem_of_singleton in He'. subst e'.
    split; [discriminate|]. eexists. vm_compute. reflexivity.
  - vm_compute. discriminate.
  - reflexivity.
  - discriminate.
Defined.

End UpdateEdgeWitnesses.

(** X12. Without the removal of empty folders: when the filter
    rejects the parent of the directory of a change, and that directory
    is in the index with a list that is not empty and is still a
    directory, [update_checksums_from] raises [KeyError]: the walk of
    the directory succeeds, and the recomputation then looks up its
    parent, which no walk with this filter has made a key. *)
Theorem update_raises_when_the_parent_is_rejected `{DigestDelegate} `{SetOrder}
        dir_ok_fn fs1 fs2 rcs ccs d c (idx1 : index) fuel :
  well_formed fs1 = true → well_formed fs2 = true →
  valid_names rcs → rcs ≠ [] →
  walk_and_compute_sha1_from_directory fs1 (abs_path rcs) dir_ok_fn true false
  = (Ok idx1, fs1) →
  valid_names (ccs ++ [d]) →
  os_path.dirname (c_path c) = abs_path (ccs ++ [d]) →
  c_action c ≠ "D" →
  from_option truthy false (idx1 !! abs_path (ccs ++ [d])) = true →
  (∃ es, descend fs2 (ccs ++ [d]) = Some (Dir es)) →
  dir_ok_fn (abs_path ccs) = false →
  abs_path (ccs ++ [d]) ≠ abs_path rcs →
  returned (update_checksums_from (S fuel) fs2 [c] idx1 dir_ok_fn false)
  = Raise KeyError.
Proof.
  intros Hwf1 Hwf2 Hrcs Hne Hwalk1 Hval Hparent Haction Htruthy [es2 Hd2]
         Hrej Hnotroot.
  set (root := abs_path rcs) in *. set (C := abs_path (ccs ++ [d])) in *.
  destruct (walk_root_inv dir_ok_fn fs1 rcs idx1 fs1 Hwf1 Hrcs Hne Hwalk1)
    as (es1 & al1 & m1 & _ & Hd1 & Hokroot & Hwalked1 & Hidx1).
  destruct Hwalked1 as (_ & Hi1 & _ & Hiii1 & _).
  destruct (descend_well_formed _ _ _ Hwf1 Hd1) as [_ Hwfr1].
  pose proof Hval as Hval'. apply Forall_app in Hval' as [Hccs Hdv].
  inversion_clear Hdv as [|? ? Hdn _].
  assert (Hroot : resolved_root idx1 = Ok root).
  { unfold resolved_root, root_path. rewrite Hidx1, lookup_insert_eq.
    cbn [mbind res_bind e_path tree_entry].
    unfold root. by rewrite endswith_sep_abs_path. }
  assert (HC : ∃ rel es, (ccs ++ [d])%list = (rcs ++ rel)%list
                         ∧ descend (Dir es1) rel = Some (Dir es)).
  { destruct (idx1 !! C) as [s|] eqn:Hs; [|done].
    rewrite Hidx1, lookup_insert_ne in Hs by done.
    destruct (Hiii1 C ltac:(eauto)) as [[? Hnone]|(rel & es & Heq & Hrel & _)];
      [by rewrite lookup_empty in Hnone|].
    destruct (descend_well_formed _ _ _ Hwfr1 Hrel) as [Hvrel _].
    apply abs_path_inj in Heq; [|done|by apply Forall_app]. eauto. }
  destruct HC as (rel & es & Hcomps & Hrel).
  assert (Hupper : abs_path ccs ≠ os_path.dirname root).
  { unfold root. rewrite dirname_abs_path by done. intros Heq.
    apply abs_path_inj in Heq; [|done|by apply Forall_removelast].
    destruct (exists_last Hne) as (rcs' & x & Hx).
    rewrite Hx, removelast_last in Heq. subst ccs.
    rewrite Hx, <- app_assoc in Hcomps. apply app_inv_head in Hcomps.
    cbn [app] in Hcomps. injection Hcomps as -> <-.
    apply Hnotroot. unfold C, root. by rewrite Hx. }
  rewrite (update_unfold_root _ _ _ _ _ _ _ Hroot).
  cbn [scan_changes]. rewrite Hparent. fold C.
  replace (C =? root) with false by (symmetry; by apply String.eqb_neq).
  replace (c_action c =? "D") with false
    by (symmetry; by apply String.eqb_neq).
  assert (Hpaths : (∅ ∪ {[C]} : gset string) = {[C]}) by set_solver.
  rewrite Hpaths.
  rewrite bool_decide_eq_false_2 by set_solver.
  rewrite set_iter_singleton.
  rewrite commonpath_single by (by exists (ccs ++ [d])%list).
  rewrite bool_decide_eq_false_2 by (by intros []).
  rewrite Htruthy. cbn [negb].
  destruct (walk_below dir_ok_fn fs2 (ccs ++ [d]) es2 Hwf2 Hval)
    as (al & hashes & Hwalkb & _ & _ & Hii & _); [by destruct ccs|done|].
  fold C in Hwalkb. rewrite Hwalkb. cbv zeta.
  assert (Hnone : (hashes ∪ idx1) !! abs_path ccs = None).
  { apply lookup_union_None. split.
    - rewrite Hii; [done|]. intros r Hr Heq.
      apply abs_path_inj in Heq; [|done|by apply Forall_app].
      apply (f_equal length) in Heq. rewrite !length_app in Heq.
      cbn [length] in Heq. lia.
    - rewrite Hidx1, lookup_insert_ne by done.
      destruct (m1 !! abs_path ccs) as [s|] eqn:Hs; [|done].
      destruct (Hiii1 (abs_path ccs) ltac:(eauto))
        as [[? Hnone]|(? & ? & _ & _ & ?)];
        [by rewrite lookup_empty in Hnone|congruence]. }
  unfold recompute_sha1_in_memory, C.
  rewrite dirname_abs_path_snoc by done.
  cbn [recompute_levels].
  replace (abs_path ccs =? os_path.dirname root) with false
    by (symmetry; by apply String.eqb_neq).
  unfold mbind, St_bind, recompute_level. by rewrite Hnone.
Qed.

Section RejectedParentWitness.

Import Sample.

Lemma update_raises_when_the_parent_is_rejected_witness :
  returned (update_checksums_from 9 fs0 [modify_file] index_but_a all_but_a false)
  = Raise KeyError.
Proof.
  apply (update_raises_when_the_parent_is_rejected
           all_but_a fs0 fs0 ["r"] ["r"; "a"] "b" modify_file index_but_a 8).
  - reflexivity.
  - reflexivity.
  - repeat constructor.
  - discriminate.
  - vm_compute. reflexivity.
  - repeat constructor.
  - reflexivity.
  - discriminate.
  - vm_compute. reflexivity.
  - eexists. reflexivity.
  - reflexivity.
  - discriminate.
Defined.

End RejectedParentWitness.

(** ** The keys the recomputation works on *)

Section RecomputeKeys.

Context `{DigestDelegate}.
Variable D : gset string.

(** The dictionary has the keys [D]. *)
Definition has_keys (m : index) : Prop := dom m = D.

Lemma has_keys_insert (m : index) k v :
  has_keys m → is_Some (m !! k) → has_keys (<[k := v]> m).
Proof.
  unfold has_keys. intros <- Hk%elem_of_dom. rewrite dom_insert_L. set_solver.
Qed.

Lemma has_keys_compute_directory_git_sha1 dirpath :
  keeps has_keys (compute_directory_git_sha1 dirpath) (fun _ => True).
Proof.
  intros m r m' HJ. unfold compute_directory_git_sha1.
  destruct (m !! dirpath) as [[l|pending]|] eqn:Hk; intros [= <- <-];
    (split; [|done]); [done| |done].
  apply has_keys_insert; eauto.
Qed.

Lemma has_keys_recompute_entry hashfile :
  keeps has_keys (recompute_entry hashfile) (fun _ => True).
Proof.
  unfold recompute_entry. case_decide; [|by apply keeps_ret].
  unfold compute_tree_metadata.
  eapply keeps_bind; [apply has_keys_compute_directory_git_sha1|].
  intros sha1 _. by apply keeps_ret.
Qed.

Lemma has_keys_recompute_files rootdir files :
  rootdir ∈ D →
  ∀ ls_hashes, keeps has_keys (recompute_files rootdir files ls_hashes)
                     (fun _ => True).
Proof.
  intros Hroot. induction files as [|e files IH]; intros ls;
    cbn [recompute_files]; [by apply keeps_ret|].
  eapply keeps_bind; [apply has_keys_recompute_entry|]. intros e' _.
  eapply keeps_bind with (P := fun _ => True); [|intros _ _; apply IH].
  intros m r m' HJ [= <- <-]. split; [|done].
  apply has_keys_insert; [done|]. apply elem_of_dom. by rewrite HJ.
Qed.

Lemma has_keys_recompute_level rootdir :
  keeps has_keys (recompute_level rootdir) (fun _ => True).
Proof.
  intros m r m' HJ. unfold recompute_level.
  destruct (m !! rootdir) as [[files|[|hashfile pending]]|] eqn:Hk.
  - apply has_keys_recompute_files; [|done].
    rewrite <- HJ. by apply elem_of_dom_2 in Hk.
  - by intros [= <- <-].
  - assert (Hroot : rootdir ∈ D) by (rewrite <- HJ; by apply elem_of_dom_2 in Hk).
    assert (HJ1 : has_keys (<[rootdir := Flt pending]> m))
      by (apply has_keys_insert; eauto).
    revert HJ1. generalize (<[rootdir := Flt pending]> m). clear m HJ Hk.
    intros m HJ. revert m r m' HJ.
    change (keeps has_keys (e ← recompute_entry hashfile;
                            recompute_pending rootdir e) (fun _ => True)).
    eapply keeps_bind; [apply has_keys_recompute_entry|]. intros e _.
    intros m r m' HJ. unfold recompute_pending.
    unfold mbind, St_bind at 1. unfold set_item at 1.
    apply has_keys_recompute_files; [done|].
    apply has_keys_insert; [done|]. apply elem_of_dom. by rewrite HJ.
  - by intros [= <- <-].
Qed.

Lemma has_keys_recompute_levels fuel upper_root :
  ∀ rootdir, keeps has_keys (recompute_levels fuel upper_root rootdir)
                   (fun _ => True).
Proof.
  induction fuel as [|fuel IH]; intros rootdir; cbn [recompute_levels];
    destruct (rootdir =? upper_root); try by apply keeps_ret.
  - by intros m r m' HJ [= <- <-].
  - eapply keeps_bind; [apply has_keys_recompute_level|]. intros _ _. apply IH.
Qed.

Lemma has_keys_set_root_sha1 root_tree_hash :
  keeps has_keys (set_root_sha1 root_tree_hash) (fun _ => True).
Proof.
  intros m r m' HJ. unfold set_root_sha1.
  destruct (m !! ROOT_TREE_KEY) as [[[|e l]|pending]|] eqn:Hk;
    intros [= <- <-]; (split; [|done]); try done.
  apply has_keys_insert; eauto.
Qed.

Lemma has_keys_recompute_sha1_in_memory fuel root deeper_rootdir :
  keeps has_keys (recompute_sha1_in_memory fuel root deeper_rootdir)
        (fun _ => True).
Proof.
  unfold recompute_sha1_in_memory.
  eapply keeps_bind; [apply has_keys_recompute_levels|]. intros _ _.
  eapply keeps_bind; [apply has_keys_compute_directory_git_sha1|].
  intros sha1 _. apply has_keys_set_root_sha1.
Qed.

End RecomputeKeys.

(** X14. [recompute_sha1_in_memory] neither adds nor drops a key,
    however it ends: the dictionary it leaves has the keys of the
    dictionary it was given. *)
Theorem recompute_keeps_the_keys `{DigestDelegate} fuel root deeper_rootdir
        (objects : index) :
  dom (snd (recompute_sha1_in_memory fuel root deeper_rootdir objects))
  = dom objects.
Proof.
  destruct (recompute_sha1_in_memory fuel root deeper_rootdir objects)
    as [r objects'] eqn:Hrun.
  by destruct (has_keys_recompute_sha1_in_memory (dom objects) fuel root
                 deeper_rootdir objects r objects' eq_refl Hrun).
Qed.

(** ** The digest of a directory and the place of the directory *)

Section Relocation.

Context `{DigestDelegate}.
Variables ok1 ok2 : bytes → bool.





End Relocation.


Section RelocationWitness.

Import Sample.



End RelocationWitness.

(** ** The update against the full walk: where they part *)

Section UpdateAndWalkPart.

Import Sample.





End UpdateAndWalkPart.
